(** * Hidden Markov model training (meta/sequence/hmm/hmm.h)

    A shallow embedding of [hidden_markov_model<ObsDist>]: the scaled
    forward and backward trellises, the posterior state membership, the
    expected-count accumulation of one Baum-Welch iteration and the [fit]
    loop with its convergence and divergence policy.

    Numbers.  The C++ code computes in [double].  The embedding computes in
    the real numbers of the Standard Library, so every statement below is a
    statement over exact arithmetic; infinities and NaN have no counterpart.
    Division is total in [R]; wherever a result is only meaningful for a
    non-zero divisor the statement carries that as a hypothesis.

    Indices.  [uint64_t], [state_id] and [label_id] indices are natural
    numbers, except for the iteration counter of [fit], whose 64-bit
    wrap-around is written out.  Sequences are non-empty: on an empty
    sequence the C++ code writes row 0 of an empty matrix and
    [seq.size() - 1] wraps, so what the embedding computes there carries no
    meaning.

    Collaborators.  hmm.h is the only source file.  The trellis classes, the
    Markov chain, the Dirichlet prior and the parallel reduction are
    modelled from the specification, each under a comment that says so; the
    observation distribution, a template parameter, is a type class.  The
    scale factor that [forward_trellis::normalize] records is the column's
    sum, as section 4.1 words it; the log likelihood of a sequence is also
    studied with the normalization taken as a parameter ([forward_with]). *)

From Stdlib Require Import String.
From Stdlib Require Import Reals List ZArith Lia Lra Bool Arith.
From Stdlib Require Import Permutation FunctionalExtensionality.
Import ListNotations.

Open Scope R_scope.

(** ** Loops and sums *)

Definition state_id := nat.
Definition label_id := nat.

Bind Scope nat_scope with state_id label_id.

(** [for (i = 0; i < n; ++i) body], threading the loop state. *)
Definition for_range {A : Type} (n : nat) (body : nat -> A -> A) (a : A) : A :=
  fold_left (fun acc i => body i acc) (seq 0 n) a.

(** [for (t = lo; t < lo + n; ++t) body]. *)
Definition for_from {A : Type} (lo n : nat) (body : nat -> A -> A) (a : A) : A :=
  fold_left (fun acc i => body i acc) (seq lo n) a.

(** [double sum = 0; for (j = 0; j < n; ++j) sum += f j;] *)
Definition sum_upto (n : nat) (f : nat -> R) : R :=
  for_range n (fun j sum => sum + f j) 0.

(** ** util::dense_matrix<double> *)

(** A dense matrix is read and written cell by cell; cells start at zero. *)
Definition dense_matrix := nat -> nat -> R.

Definition zero_matrix : dense_matrix := fun _ _ => 0.

Definition mset (m : dense_matrix) (r c : nat) (v : R) : dense_matrix :=
  fun r' c' => if (r' =? r)%nat && (c' =? c)%nat then v else m r' c'.

(** The value written to cell [i] may read every cell but the ones the loop
    has already written. *)
Definition reads_unwritten (row : nat) (g : dense_matrix -> nat -> R) : Prop :=
  forall (m1 m2 : dense_matrix) (i : nat),
    (forall r c, r <> row \/ (i <= c)%nat -> m1 r c = m2 r c) ->
    g m1 i = g m2 i.

(** ** sequence::trellis and sequence::forward_trellis *)

(** Modelled from the spec: trellis.h is not part of the sources.  Section
    4.1 describes a table indexed by time step and state with cell reads and
    writes. *)
Record trellis := {
  tr_size : nat;
  tr_labels : nat;
  tr_cells : dense_matrix
}.

Definition new_trellis (size num_labels : nat) : trellis :=
  {| tr_size := size; tr_labels := num_labels; tr_cells := zero_matrix |}.

Definition tr_probability (tr : trellis) (idx : nat) (tag : label_id) : R :=
  tr_cells tr idx tag.

Definition tr_set (tr : trellis) (idx : nat) (tag : label_id) (prob : R) : trellis :=
  {| tr_size := tr_size tr; tr_labels := tr_labels tr;
     tr_cells := mset (tr_cells tr) idx tag prob |}.

(** Modelled from the spec: the forward variant of the trellis (trellis.h,
    not part of the sources) additionally stores one scale factor per time
    step. *)
Record forward_trellis := {
  ft_trellis : trellis;
  ft_normalizers : nat -> R
}.

Definition new_forward_trellis (size num_labels : nat) : forward_trellis :=
  {| ft_trellis := new_trellis size num_labels; ft_normalizers := fun _ => 0 |}.

Definition ft_size (fwd : forward_trellis) : nat := tr_size (ft_trellis fwd).

Definition ft_probability (fwd : forward_trellis) (idx : nat) (tag : label_id) : R :=
  tr_probability (ft_trellis fwd) idx tag.

Definition ft_set (fwd : forward_trellis) (idx : nat) (tag : label_id) (prob : R)
  : forward_trellis :=
  {| ft_trellis := tr_set (ft_trellis fwd) idx tag prob;
     ft_normalizers := ft_normalizers fwd |}.

Definition normalizer (fwd : forward_trellis) (idx : nat) : R :=
  ft_normalizers fwd idx.

(** Modelled from the spec: [forward_trellis::normalize] (trellis.h, not
    part of the sources).  Section 4.1: normalizing a time step divides every
    state's value in that column by the column's sum and records that sum as
    the scale factor. *)
Definition normalize (fwd : forward_trellis) (idx : nat) : forward_trellis :=
  let labels := tr_labels (ft_trellis fwd) in
  let sum := sum_upto labels (fun s => ft_probability fwd idx s) in
  {| ft_trellis :=
       for_range labels
         (fun s tr => tr_set tr idx s (tr_probability tr idx s / sum))
         (ft_trellis fwd);
     ft_normalizers :=
       fun t => if (t =? idx)%nat then sum else ft_normalizers fwd t |}.

(** ** sequence::markov_model *)

(** Modelled from the spec: markov_model.h is not part of the sources.
    Section 6 lists its operations: initial and transition probabilities,
    fresh counts, increments of the initial and transition counts, the
    combination of counts and the reconstruction of a chain from counts by
    row-normalization. *)
Record markov_model := {
  mm_num_states : nat;
  initial_probability : state_id -> R;
  transition_probability : state_id -> state_id -> R
}.

Record chain_counts := {
  cc_num_states : nat;
  initial_count : state_id -> R;
  trans_count : state_id -> state_id -> R
}.

(** Modelled from the spec: [markov_model::expected_counts], the fresh
    all-zero counts shaped after the current chain. *)
Definition mm_expected_counts (model : markov_model) : chain_counts :=
  {| cc_num_states := mm_num_states model;
     initial_count := fun _ => 0;
     trans_count := fun _ _ => 0 |}.

(** Modelled from the spec: [increment_initial(state, weight)]. *)
Definition increment_initial (c : chain_counts) (s : state_id) (w : R) : chain_counts :=
  {| cc_num_states := cc_num_states c;
     initial_count := fun s' => if (s' =? s)%nat then initial_count c s' + w
                                else initial_count c s';
     trans_count := trans_count c |}.

(** Modelled from the spec: [increment_transition(from, to, weight)]. *)
Definition increment_transition (c : chain_counts) (from to : state_id) (w : R)
  : chain_counts :=
  {| cc_num_states := cc_num_states c;
     initial_count := initial_count c;
     trans_count := fun i j => if (i =? from)%nat && (j =? to)%nat
                               then trans_count c i j + w
                               else trans_count c i j |}.

(** Modelled from the spec: the combine operator of the chain counts. *)
Definition cc_plus (a b : chain_counts) : chain_counts :=
  {| cc_num_states := cc_num_states a;
     initial_count := fun s => initial_count a s + initial_count b s;
     trans_count := fun i j => trans_count a i j + trans_count b i j |}.

(** Modelled from the spec: [markov_model{counts}], which row-normalizes the
    initial counts and the transition counts. *)
Definition mm_from_counts (c : chain_counts) : markov_model :=
  let K := cc_num_states c in
  {| mm_num_states := K;
     initial_probability :=
       fun s => initial_count c s / sum_upto K (initial_count c);
     transition_probability :=
       fun i j => trans_count c i j / sum_upto K (trans_count c i) |}.

(** Modelled from the spec: the Dirichlet-style prior object handed to the
    constructors (stats/dirichlet.h, not part of the sources). *)
Definition dirichlet := state_id -> R.

(** Modelled from the spec: what the random constructor of the chain draws
    from the caller's generator. *)
Record generator := {
  drawn_initial : state_id -> R;
  drawn_transition : state_id -> state_id -> R
}.

(** Modelled from the spec: [markov_model{num_states, rng, prior}]. *)
Definition mm_random (num_states : nat) (rng : generator) (prior : dirichlet)
  : markov_model :=
  {| mm_num_states := num_states;
     initial_probability := drawn_initial rng;
     transition_probability := drawn_transition rng |}.

(** Modelled from the spec: [markov_model{num_states, prior}], the uniform
    initial and transition distributions. *)
Definition mm_uniform (num_states : nat) (prior : dirichlet) : markov_model :=
  {| mm_num_states := num_states;
     initial_probability := fun _ => 1 / INR num_states;
     transition_probability := fun _ _ => 1 / INR num_states |}.

(** ** The observation distribution (template parameter [ObsDist]) *)

(** The operations [hidden_markov_model] uses of its template parameter. *)
Class ObsDist (D : Type) := {
  observation_type : Type;
  expected_counts_type : Type;
  od_num_states : D -> nat;
  probability : D -> observation_type -> state_id -> R;
  od_expected_counts : D -> expected_counts_type;
  increment : expected_counts_type -> observation_type -> state_id -> R
              -> expected_counts_type;
  od_plus : expected_counts_type -> expected_counts_type -> expected_counts_type;
  od_from_counts : expected_counts_type -> D
}.

(** ** hidden_markov_model<ObsDist> *)

Section Model.

Context {D : Type} `{OD : ObsDist D}.

Definition sequence_type := list observation_type.
Definition training_data_type := list sequence_type.

Record hidden_markov_model := {
  obs_dist_ : D;
  model_ : markov_model
}.

Definition num_states (h : hidden_markov_model) : nat :=
  mm_num_states (model_ h).

Definition trans_prob (h : hidden_markov_model) (from to : state_id) : R :=
  transition_probability (model_ h) from to.

Definition init_prob (h : hidden_markov_model) (s : state_id) : R :=
  initial_probability (model_ h) s.

Definition observation_distribution (h : hidden_markov_model) : D :=
  obs_dist_ h.

(** [output_probabilities]: the cache [b(t, s)] of emission probabilities.
    [seq[t]] is read with [nth_error]; inside the loop the index is always
    in range. *)
Definition output_probabilities (h : hidden_markov_model) (sq : sequence_type)
  : dense_matrix :=
  for_range (length sq)
    (fun t output_probs =>
       match nth_error sq t with
       | Some o =>
           for_range (num_states h)
             (fun s_i output_probs =>
                mset output_probs t s_i (probability (obs_dist_ h) o s_i))
             output_probs
       | None => output_probs
       end)
    zero_matrix.

(** [forward]: the scaled forward trellis of one sequence. *)
Definition forward (h : hidden_markov_model) (sq : sequence_type)
    (output_probs : dense_matrix) : forward_trellis :=
  let fwd := new_forward_trellis (length sq) (num_states h) in
  (* initialize the first column of the trellis *)
  let fwd :=
    for_range (num_states h)
      (fun l fwd => ft_set fwd 0 l (init_prob h l * output_probs 0%nat l)) fwd in
  (* normalize to avoid underflow *)
  let fwd := normalize fwd 0 in
  (* compute remaining columns using the recursive formulation *)
  for_from 1 (length sq - 1)
    (fun t fwd =>
       let fwd :=
         for_range (num_states h)
           (fun i fwd =>
              let sum :=
                sum_upto (num_states h)
                  (fun j => ft_probability fwd (t - 1) j * trans_prob h j i) in
              ft_set fwd t i (sum * output_probs t i))
           fwd in
       normalize fwd t)
    fwd.

(** [backward]: the backward trellis, scaled with the forward trellis's
    normalizers.  For a non-empty sequence [length sq - 1] does not wrap. *)
Definition backward (h : hidden_markov_model) (sq : sequence_type)
    (fwd : forward_trellis) (output_probs : dense_matrix) : trellis :=
  let bwd := new_trellis (length sq) (num_states h) in
  (* initialize the last column of the trellis *)
  let bwd :=
    for_range (num_states h) (fun i bwd => tr_set bwd (length sq - 1) i 1) bwd in
  (* fill in the remaining columns of the trellis from back to front *)
  for_from 1 (length sq - 1)
    (fun k bwd =>
       let t := (length sq - 1 - k)%nat in
       for_range (num_states h)
         (fun i bwd =>
            let sum :=
              sum_upto (num_states h)
                (fun j => tr_probability bwd (t + 1) j * trans_prob h i j
                          * output_probs (t + 1)%nat j) in
            let norm := normalizer fwd (t + 1) in
            tr_set bwd t i (norm * sum))
         bwd)
    bwd.

(** [posterior_state_membership]: gamma, renormalized per time step. *)
Definition posterior_state_membership (h : hidden_markov_model)
    (fwd : forward_trellis) (bwd : trellis) : dense_matrix :=
  for_range (ft_size fwd)
    (fun t gamma =>
       let '(gamma, norm) :=
         for_range (num_states h)
           (fun i '(gamma, norm) =>
              let gamma :=
                mset gamma t i (ft_probability fwd t i * tr_probability bwd t i) in
              (gamma, norm + gamma t i))
           (gamma, 0) in
       for_range (num_states h)
         (fun i gamma => mset gamma t i (gamma t i / norm)) gamma)
    zero_matrix.

(** The local struct [expected_counts] of [expectation_maximization]. *)
Record expected_counts := {
  obs_counts : expected_counts_type;
  model_counts : chain_counts;
  log_likelihood : R
}.

(** Its constructor from the current observation distribution and chain. *)
Definition new_expected_counts (obs_dist : D) (model : markov_model)
  : expected_counts :=
  {| obs_counts := od_expected_counts obs_dist;
     model_counts := mm_expected_counts model;
     log_likelihood := 0 |}.

(** [expected_counts::operator+=]. *)
Definition ec_plus (a other : expected_counts) : expected_counts :=
  {| obs_counts := od_plus (obs_counts a) (obs_counts other);
     model_counts := cc_plus (model_counts a) (model_counts other);
     log_likelihood := log_likelihood a + log_likelihood other |}.

Definition with_model_counts (c : expected_counts) (mc : chain_counts)
  : expected_counts :=
  {| obs_counts := obs_counts c; model_counts := mc;
     log_likelihood := log_likelihood c |}.

Definition with_obs_counts (c : expected_counts) (oc : expected_counts_type)
  : expected_counts :=
  {| obs_counts := oc; model_counts := model_counts c;
     log_likelihood := log_likelihood c |}.

Definition with_log_likelihood (c : expected_counts) (ll : R) : expected_counts :=
  {| obs_counts := obs_counts c; model_counts := model_counts c;
     log_likelihood := ll |}.

(** The value [xi_tij] computed in the innermost loop of the expectation
    step. *)
Definition xi_tij (h : hidden_markov_model) (gamma output_probs : dense_matrix)
    (fwd : forward_trellis) (bwd : trellis) (t : nat) (i j : state_id) : R :=
  (gamma t i * trans_prob h i j * output_probs (t + 1)%nat j
   * normalizer fwd (t + 1) * tr_probability bwd (t + 1) j)
  / tr_probability bwd t i.

(** The per-sequence function handed to [parallel::reduction]: it adds the
    expected counts and the log likelihood of one sequence to [counts].
    The progress report under the mutex has no effect on the counts and is
    left out. *)
Definition accumulate_sequence (h : hidden_markov_model)
    (counts : expected_counts) (sq : sequence_type) : expected_counts :=
  (* cache b_i(o_t) *)
  let output_probs := output_probabilities h sq in
  (* run forward-backward to get the trellises *)
  let fwd := forward h sq output_probs in
  let bwd := backward h sq fwd output_probs in
  let gamma := posterior_state_membership h fwd bwd in
  (* add expected counts to the new parameters *)
  let counts :=
    for_range (num_states h)
      (fun i counts =>
         let counts :=
           with_model_counts counts
             (increment_initial (model_counts counts) i (gamma 0%nat i)) in
         let counts :=
           for_range (num_states h)
             (fun j counts =>
                for_range (length sq - 1)
                  (fun t counts =>
                     with_model_counts counts
                       (increment_transition (model_counts counts) i j
                          (xi_tij h gamma output_probs fwd bwd t i j)))
                  counts)
             counts in
         for_range (length sq)
           (fun t counts =>
              match nth_error sq t with
              | Some o =>
                  with_obs_counts counts
                    (increment (obs_counts counts) o i (gamma t i))
              | None => counts
              end)
           counts)
      counts in
  (* contribution to the log likelihood from the scaling factors *)
  for_range (length sq)
    (fun t counts =>
       with_log_likelihood counts
         (log_likelihood counts + - ln (normalizer fwd t)))
    counts.

(** Modelled from the spec: the thread pool of [parallel::reduction]
    (parallel/algorithm.h, not part of the sources) decides how the training
    sequences are split into per-worker blocks and in which order the
    workers' results are merged. *)
Definition thread_pool := training_data_type -> list training_data_type.

(** Modelled from the spec: [parallel::reduction] (section 4.4).  Every
    worker folds its block into a fresh accumulator; the workers' accumulators
    are then merged serially with the combine function. *)
Definition reduction {A : Type} (blocks : list training_data_type)
    (zero : A) (process : A -> sequence_type -> A) (combine : A -> A -> A) : A :=
  match map (fun block => fold_left process block zero) blocks with
  | [] => zero
  | first :: rest => fold_left combine rest first
  end.

(** [expectation_maximization]: one Baum-Welch iteration.  It returns the
    model with both parameter sets replaced and the data log likelihood. *)
Definition aggregate_counts (h : hidden_markov_model)
    (instances : training_data_type) (pool : thread_pool) : expected_counts :=
  reduction (pool instances)
    (new_expected_counts (obs_dist_ h) (model_ h))
    (accumulate_sequence h)
    ec_plus.

Definition expectation_maximization (h : hidden_markov_model)
    (instances : training_data_type) (pool : thread_pool)
  : hidden_markov_model * R :=
  let counts := aggregate_counts h instances pool in
  (* normalize and replace old parameters *)
  ({| obs_dist_ := od_from_counts (obs_counts counts);
      model_ := mm_from_counts (model_counts counts) |},
   log_likelihood counts).

End Model.

Arguments hidden_markov_model D : clear implicits.
Arguments expected_counts D {OD}.

(** ** Exceptions, constructors and [fit] *)

Inductive exception :=
| hmm_exception (what : string)
| runtime_error (what : string).

Inductive outcome (A : Type) :=
| Returns (a : A)
| Throws (e : exception).

Arguments Returns {A} a.
Arguments Throws {A} e.

(** [training_options]: the convergence threshold and the iteration budget,
    a [uint64_t]. *)
Record training_options := {
  delta : R;
  max_iters : Z
}.

Definition uint64_modulus : Z := 2 ^ 64.
Definition uint64_max : Z := uint64_modulus - 1.

(** A value a [uint64_t] can hold. *)
Definition is_uint64 (z : Z) : Prop := (0 <= z <= uint64_max)%Z.

(** [++iter] on a [uint64_t]. *)
Definition uint64_succ (z : Z) : Z := ((z + 1) mod uint64_modulus)%Z.

(** [std::numeric_limits<double>::lowest()], the most negative finite double
    [-(2 - 2^-52) * 2^1023]. *)
Definition lowest : R := - IZR (2 ^ 1024 - 2 ^ 971).

Definition default_options : training_options :=
  {| delta := 1 / 100000; max_iters := uint64_max |}.

Section Training.

Context {D : Type} `{OD : ObsDist D}.

Definition differing_states : string :=
  "The observation distribution and HMM have differing numbers of hidden states".

Definition did_not_improve : string := "Log likelihood did not improve".

(** The constructor with random initialization. *)
Definition make_random (num_states : nat) (rng : generator) (obs_dist : D)
    (trans_prior : dirichlet) : outcome (hidden_markov_model D) :=
  let h := {| obs_dist_ := obs_dist;
              model_ := mm_random num_states rng trans_prior |} in
  if negb (od_num_states (obs_dist_ h) =? num_states)%nat
  then Throws (hmm_exception differing_states)
  else Returns h.

(** The constructor with uniform initialization. *)
Definition make_uniform (num_states : nat) (obs_dist : D)
    (trans_prior : dirichlet) : outcome (hidden_markov_model D) :=
  let h := {| obs_dist_ := obs_dist;
              model_ := mm_uniform num_states trans_prior |} in
  if negb (od_num_states (obs_dist_ h) =? num_states)%nat
  then Throws (hmm_exception differing_states)
  else Returns h.

(** The loop of [fit].  One unit of fuel is spent per evaluation of the loop
    condition; [None] means that the fuel ran out.  The model is threaded
    through the iterations, since [expectation_maximization] replaces its
    parameters, and is returned next to the outcome. *)
Fixpoint fit_loop (fuel : nat) (instances : training_data_type)
    (pool : thread_pool) (options : training_options)
    (h : hidden_markov_model D) (iter : Z) (old_ll : R)
  : option (hidden_markov_model D * outcome R) :=
  match fuel with
  | O => None
  | S fuel' =>
      if (iter <=? max_iters options)%Z then
        let '(h', ll) := expectation_maximization h instances pool in
        if Rgt_dec old_ll ll then
          Some (h', Throws (runtime_error did_not_improve))
        else if Rlt_dec (ll - old_ll) (delta options) then
          Some (h', Returns ll)
        else
          fit_loop fuel' instances pool options h' (uint64_succ iter) ll
      else Some (h, Returns old_ll)
  end.

Definition fit (fuel : nat) (h : hidden_markov_model D)
    (instances : training_data_type) (pool : thread_pool)
    (options : training_options)
  : option (hidden_markov_model D * outcome R) :=
  fit_loop fuel instances pool options h 1%Z lowest.

(** The model after [n] runs of [expectation_maximization] and the log
    likelihood the [n]-th run returned. *)
Fixpoint em_state (instances : training_data_type) (pool : thread_pool)
    (h : hidden_markov_model D) (n : nat) : hidden_markov_model D :=
  match n with
  | O => h
  | S n' => fst (expectation_maximization (em_state instances pool h n')
                   instances pool)
  end.

Definition em_ll (instances : training_data_type) (pool : thread_pool)
    (h : hidden_markov_model D) (n : nat) : R :=
  snd (expectation_maximization (em_state instances pool h (n - 1))
         instances pool).

(** The value of [old_ll] once [n] iterations have completed. *)
Definition old_ll_after (instances : training_data_type) (pool : thread_pool)
    (h : hidden_markov_model D) (n : nat) : R :=
  match n with
  | O => lowest
  | S _ => em_ll instances pool h n
  end.

(** Iteration [n] neither raises nor converges. *)
Definition continues (instances : training_data_type) (pool : thread_pool)
    (options : training_options) (h : hidden_markov_model D) (n : nat) : Prop :=
  ~ old_ll_after instances pool h (n - 1) > em_ll instances pool h n /\
  ~ em_ll instances pool h n - old_ll_after instances pool h (n - 1)
    < delta options.

(** ** The brute-force likelihood of a sequence

    The reference the scaled trellis is compared with, in the
    specification's words: the joint probability of the observations and a
    state path, summed over all state paths. *)

(** All state paths of length [T] over [K] states; a path lists its states
    latest first. *)
Fixpoint state_paths (K T : nat) : list (list state_id) :=
  match T with
  | O => [[]]
  | S T' => flat_map (fun s => map (cons s) (state_paths K T')) (seq 0 K)
  end.

(** The joint probability of a state path (latest state first) and the
    observations: initial probability, transitions and emissions. *)
Fixpoint path_probability (h : hidden_markov_model D) (b : dense_matrix)
    (path : list state_id) : R :=
  match path with
  | [] => 1
  | s :: earlier =>
      match earlier with
      | [] => init_prob h s * b 0%nat s
      | j :: _ =>
          path_probability h b earlier * trans_prob h j s
          * b (length earlier) s
      end
  end.

Definition sum_list (l : list R) : R := fold_right Rplus 0 l.

(** P(sequence): the sum of the joint probability over all state paths. *)
Definition brute_force_likelihood (h : hidden_markov_model D)
    (sq : sequence_type) : R :=
  sum_list (map (path_probability h (output_probabilities h sq))
              (state_paths (num_states h) (length sq))).

(** The log likelihood the expectation step adds for one sequence. *)
Definition sequence_log_likelihood (h : hidden_markov_model D)
    (sq : sequence_type) : R :=
  let fwd := forward h sq (output_probabilities h sq) in
  sum_upto (length sq) (fun t => - ln (normalizer fwd t)).

(** The pool with a single worker. *)
Definition single_worker : thread_pool := fun instances => [instances].

(** The pool that hands every sequence to a worker of its own and merges the
    workers' results last to first. *)
Definition worker_per_sequence : thread_pool :=
  fun instances => rev (map (fun sq => [sq]) instances).

End Training.

(** ** A categorical observation distribution

    The emission models of the library live outside hmm.h.  This table-based
    instance of the [ObsDist] interface (one categorical distribution over
    the symbols [0 .. symbols-1] per state) serves the concrete scenarios
    below. *)

Record categorical := {
  cat_states : nat;
  cat_symbols : nat;
  cat_prob : state_id -> nat -> R
}.

Record categorical_counts := {
  cnt_states : nat;
  cnt_symbols : nat;
  cnt : state_id -> nat -> R
}.

Definition cat_expected_counts (d : categorical) : categorical_counts :=
  {| cnt_states := cat_states d; cnt_symbols := cat_symbols d;
     cnt := fun _ _ => 0 |}.

Definition cat_increment (c : categorical_counts) (o : nat) (s : state_id) (w : R)
  : categorical_counts :=
  {| cnt_states := cnt_states c; cnt_symbols := cnt_symbols c;
     cnt := fun s' o' => if (s' =? s)%nat && (o' =? o)%nat
                         then cnt c s' o' + w else cnt c s' o' |}.

Definition cat_plus (a b : categorical_counts) : categorical_counts :=
  {| cnt_states := cnt_states a; cnt_symbols := cnt_symbols a;
     cnt := fun s o => cnt a s o + cnt b s o |}.

Definition cat_from_counts (c : categorical_counts) : categorical :=
  {| cat_states := cnt_states c; cat_symbols := cnt_symbols c;
     cat_prob := fun s o => cnt c s o / sum_upto (cnt_symbols c) (cnt c s) |}.

#[export] Instance categorical_ObsDist : ObsDist categorical := {
  observation_type := nat;
  expected_counts_type := categorical_counts;
  od_num_states := cat_states;
  probability := fun d o s => cat_prob d s o;
  od_expected_counts := cat_expected_counts;
  increment := cat_increment;
  od_plus := cat_plus;
  od_from_counts := cat_from_counts
}.

(** The two-state, two-symbol scenario of the specification. *)
Module Scenario.

Definition A : nat := 0.
Definition B : nat := 1.

Definition emissions : categorical :=
  {| cat_states := 2; cat_symbols := 2;
     cat_prob := fun s o =>
       match s, o with
       | O, O => 0.8 | O, S O => 0.2
       | S O, O => 0.2 | S O, S O => 0.8
       | _, _ => 0
       end |}.

Definition chain : markov_model :=
  {| mm_num_states := 2;
     initial_probability := fun _ => 0.5;
     transition_probability := fun _ _ => 0.5 |}.

Definition hmm : hidden_markov_model categorical :=
  {| obs_dist_ := emissions; model_ := chain |}.

Definition AB : @sequence_type categorical _ := [A; B].
Definition ABA : @sequence_type categorical _ := [A; B; A].

Definition training_data : @training_data_type categorical _ := [AB; ABA].

Definition b := output_probabilities hmm AB.
Definition fwd := forward hmm AB b.
Definition bwd := backward hmm AB fwd b.
Definition gamma := posterior_state_membership hmm fwd bwd.

Definition b3 := output_probabilities hmm ABA.
Definition fwd3 := forward hmm ABA b3.
Definition bwd3 := backward hmm ABA fwd3 b3.
Definition gamma3 := posterior_state_membership hmm fwd3 bwd3.

End Scenario.

(** A model with a single hidden state over the symbols [A] and [B], where
    [A] has probability [p]. *)
Module SingleState.

Definition emissions (p : R) : categorical :=
  {| cat_states := 1; cat_symbols := 2;
     cat_prob := fun _ o => match o with O => p | _ => 1 - p end |}.

Definition chain : markov_model :=
  {| mm_num_states := 1;
     initial_probability := fun _ => 1;
     transition_probability := fun _ _ => 1 |}.

Definition hmm (p : R) : hidden_markov_model categorical :=
  {| obs_dist_ := emissions p; model_ := chain |}.

Definition AA : @sequence_type categorical _ := [0%nat; 0%nat].

Definition training_data : @training_data_type categorical _ := [AA].

(** Converge on any change below two; run at most five iterations. *)
Definition loose : training_options := {| delta := 2; max_iters := 5 |}.

(** Never converge; run at most three iterations. *)
Definition three_iterations : training_options :=
  {| delta := 0; max_iters := 3 |}.

(** Never converge, with the default iteration budget. *)
Definition unbounded : training_options :=
  {| delta := 0; max_iters := uint64_max |}.

End SingleState.

(** ** Recurrences of the trellises, as predicates on a filled trellis *)

Section Recurrences.

Context {D : Type} `{OD : ObsDist D}.
Variable h : hidden_markov_model D.
Variable b : dense_matrix.

(** The raw (not yet normalized) value of cell [(t, s)] of the forward
    trellis, from the previous column of [fwd]. *)
Definition forward_raw (fwd : forward_trellis) (t : nat) (s : state_id) : R :=
  match t with
  | O => init_prob h s * b 0%nat s
  | S t' =>
      sum_upto (num_states h)
        (fun j => ft_probability fwd t' j * trans_prob h j s) * b t s
  end.

(** Column [t] of [fwd] holds the normalized raw values and their sum. *)
Definition forward_column (fwd : forward_trellis) (t : nat) : Prop :=
  normalizer fwd t = sum_upto (num_states h) (forward_raw fwd t)
  /\ forall s, (s < num_states h)%nat ->
       ft_probability fwd t s = forward_raw fwd t s / normalizer fwd t.


Variable fwd : forward_trellis.

(** Column [t] of [bwd] obeys the backward recurrence. *)
Definition backward_column (bwd : trellis) (t : nat) : Prop :=
  forall s, (s < num_states h)%nat ->
    tr_probability bwd t s
    = normalizer fwd (t + 1)
      * sum_upto (num_states h)
          (fun j => tr_probability bwd (t + 1) j * trans_prob h s j
                    * b (t + 1)%nat j).


End Recurrences.

(** ** The unscaled forward recursion *)

Section Unscaled.

Context {D : Type} `{OD : ObsDist D}.
Variable h : hidden_markov_model D.
Variable b : dense_matrix.

(** alpha(t, s): the joint probability of the first [t + 1] observations
    and of state [s] at time [t]. *)
Fixpoint alpha (t : nat) (s : state_id) : R :=
  match t with
  | O => init_prob h s * b 0%nat s
  | S t' =>
      sum_upto (num_states h) (fun j => alpha t' j * trans_prob h j s) * b t s
  end.

End Unscaled.

(** The product of [f 0 .. f (n-1)]. *)
Fixpoint prod_upto (n : nat) (f : nat -> R) : R :=
  match n with
  | O => 1
  | S n' => prod_upto n' f * f n'
  end.

(** ** The forward pass over the trellis's normalization

    [forward_trellis::normalize] belongs to trellis.h, which is not part of
    the sources.  Here the forward pass and the log likelihood of a sequence
    take it as a parameter, so that they can be studied under what hmm.h
    itself says of the scale factors. *)

Section ForwardWith.

Context {D : Type} `{OD : ObsDist D}.
Variable trellis_normalize : forward_trellis -> nat -> forward_trellis.

(** [forward], with [fwd.normalize(t)] calling [trellis_normalize]. *)
Definition forward_with (h : hidden_markov_model D) (sq : sequence_type)
    (output_probs : dense_matrix) : forward_trellis :=
  let fwd := new_forward_trellis (length sq) (num_states h) in
  (* initialize the first column of the trellis *)
  let fwd :=
    for_range (num_states h)
      (fun l fwd => ft_set fwd 0 l (init_prob h l * output_probs 0%nat l)) fwd in
  (* normalize to avoid underflow *)
  let fwd := trellis_normalize fwd 0 in
  (* compute remaining columns using the recursive formulation *)
  for_from 1 (length sq - 1)
    (fun t fwd =>
       let fwd :=
         for_range (num_states h)
           (fun i fwd =>
              let sum :=
                sum_upto (num_states h)
                  (fun j => ft_probability fwd (t - 1) j * trans_prob h j i) in
              ft_set fwd t i (sum * output_probs t i))
           fwd in
       trellis_normalize fwd t)
    fwd.

(** The contribution of one sequence to the log likelihood: the loop of
    [expectation_maximization] that adds [-log(fwd.normalizer(t))] for every
    time step. *)
Definition sequence_log_likelihood_with (h : hidden_markov_model D)
    (sq : sequence_type) : R :=
  let fwd := forward_with h sq (output_probabilities h sq) in
  for_range (length sq)
    (fun t log_likelihood => log_likelihood + - ln (normalizer fwd t))
    0.

End ForwardWith.

(** Modelled from the spec: the contract of [forward_trellis::normalize]
    (trellis.h, not part of the sources) under which, as section 4.2 has
    it, the product of all scale factors is 1/P(sequence), and under which
    the likelihood is the product of [1 / scale(t)] as the comment at the
    accumulation in hmm.h reads it: the column is divided by its sum, and
    the scale factor recorded for the time step is the reciprocal of that
    sum, the factor the column was multiplied with.  Other columns and
    scale factors, the number of labels and the size are left alone. *)
Definition records_reciprocal
    (trellis_normalize : forward_trellis -> nat -> forward_trellis) : Prop :=
  forall (fwd : forward_trellis) (idx : nat),
    let labels := tr_labels (ft_trellis fwd) in
    let sum := sum_upto labels (fun s => ft_probability fwd idx s) in
    (forall r c, ft_probability (trellis_normalize fwd idx) r c
                 = if (r =? idx)%nat && (c <? labels)%nat
                   then ft_probability fwd idx c / sum
                   else ft_probability fwd r c)
    /\ (forall t, normalizer (trellis_normalize fwd idx) t
                  = if (t =? idx)%nat then 1 / sum else normalizer fwd t)
    /\ tr_labels (ft_trellis (trellis_normalize fwd idx)) = labels
    /\ ft_size (trellis_normalize fwd idx) = ft_size fwd.

(** Modelled from the spec: a [forward_trellis::normalize] of that kind.
    It rescales the column as [normalize] does and records the reciprocal
    of the column's sum. *)
Definition normalize_reciprocal (fwd : forward_trellis) (idx : nat)
  : forward_trellis :=
  let labels := tr_labels (ft_trellis fwd) in
  let sum := sum_upto labels (fun s => ft_probability fwd idx s) in
  {| ft_trellis :=
       for_range labels
         (fun s tr => tr_set tr idx s (tr_probability tr idx s / sum))
         (ft_trellis fwd);
     ft_normalizers :=
       fun t => if (t =? idx)%nat then 1 / sum else ft_normalizers fwd t |}.

(** ** The transition posterior as the specification words it *)

Section Claimed.

Context {D : Type} `{OD : ObsDist D}.

(** xi(t,i,j) = gamma(t,i) * trans(i,j) * b(t+1,j) * c_{t+1} / g(t,i). *)
Definition xi_claimed (h : hidden_markov_model D) (gamma output_probs : dense_matrix)
    (fwd : forward_trellis) (bwd : trellis) (t : nat) (i j : state_id) : R :=
  gamma t i * trans_prob h i j * output_probs (t + 1)%nat j
  * normalizer fwd (t + 1)
  / tr_probability bwd t i.

End Claimed.

(** ** The contract of the observation distribution *)

(** What [hidden_markov_model] relies on of its template parameter (section
    6 of the specification): counts shaped after a distribution are closed
    under increments and combination; combination is associative, and on
    counts of one shape commutative with the fresh counts as identity; an
    increment commutes with combination; a distribution rebuilt from counts
    keeps the state count. *)
Class ObsDistLaws (D : Type) `{OD : ObsDist D} := {
  od_shaped : D -> expected_counts_type -> Prop;
  od_shaped_fresh : forall d, od_shaped d (od_expected_counts d);
  od_shaped_increment :
    forall d c o s w, od_shaped d c -> od_shaped d (increment c o s w);
  od_shaped_plus :
    forall d a b, od_shaped d a -> od_shaped d b -> od_shaped d (od_plus a b);
  od_plus_assoc :
    forall a b c, od_plus a (od_plus b c) = od_plus (od_plus a b) c;
  od_plus_comm :
    forall d a b, od_shaped d a -> od_shaped d b -> od_plus a b = od_plus b a;
  od_plus_fresh_r :
    forall d c, od_shaped d c -> od_plus c (od_expected_counts d) = c;
  od_increment_plus :
    forall a b o s w,
      increment (od_plus a b) o s w = od_plus a (increment b o s w);
  od_from_counts_states :
    forall d c, od_shaped d c -> od_num_states (od_from_counts c) = od_num_states d
}.

Section Shapes.

Context {D : Type} `{OD : ObsDist D} `{Laws : !ObsDistLaws D}.

(** An accumulator shaped after the current parameters of the model. *)
Definition ec_shaped (h : hidden_markov_model D) (c : expected_counts D) : Prop :=
  od_shaped (obs_dist_ h) (obs_counts c)
  /\ cc_num_states (model_counts c) = num_states h.

(** The accumulator of a single worker that sees all of [instances]. *)
Definition sequential_counts (h : hidden_markov_model D)
    (instances : training_data_type) : expected_counts D :=
  fold_left (accumulate_sequence h) instances
    (new_expected_counts (obs_dist_ h) (model_ h)).

End Shapes.

Definition cat_shaped (d : categorical) (c : categorical_counts) : Prop :=
  cnt_states c = cat_states d /\ cnt_symbols c = cat_symbols d.

(** ** The course of [fit] *)

Section Course.

Context {D : Type} `{OD : ObsDist D}.
Variable instances : training_data_type.
Variable pool : thread_pool.
Variable options : training_options.
Variable h : hidden_markov_model D.

(** The value of [iter] once [n] iterations have completed. *)
Definition iter_after (n : nat) : Z := Nat.iter n uint64_succ 1%Z.

(** The loop condition lets iteration [k] start: [k <= max_iters], which
    for the largest [uint64_t] no value of [iter] violates. *)
Definition budget_allows (k : nat) : Prop :=
  max_iters options = uint64_max \/ (Z.of_nat k <= max_iters options)%Z.

(** Iteration [i] finds the log likelihood decreased. *)
Definition decreases_at (i : nat) : Prop :=
  old_ll_after instances pool h (i - 1) > em_ll instances pool h i.

(** Iteration [i] finds no decrease and a change below [delta]. *)
Definition converges_at (i : nat) : Prop :=
  ~ decreases_at i
  /\ Rabs (em_ll instances pool h i - old_ll_after instances pool h (i - 1))
     < delta options.

(** Iteration [i] is run: the budget allows it and no earlier iteration
    stopped the loop. *)
Definition reaches (i : nat) : Prop :=
  budget_allows i
  /\ forall k, (1 <= k < i)%nat -> continues instances pool options h k.

End Course.

(** A model with one hidden state that emits the symbol 0 with probability
    [p], starts in its state and stays there. *)
Definition single_state (p : R) (h : hidden_markov_model categorical) : Prop :=
  num_states h = 1%nat /\ init_prob h 0 = 1 /\ trans_prob h 0 0 = 1
  /\ cat_prob (obs_dist_ h) 0%nat 0%nat = p
  /\ cat_states (obs_dist_ h) = 1%nat /\ cat_symbols (obs_dist_ h) = 2%nat.

(** ** Persistence: [save] and the constructor from an input stream *)

(** A stream is the list of the items written to it, or still to be read
    from it.  How the observation distribution and the chain write and read
    themselves is theirs to define (section 6 of the specification); a
    failed read is [None]. *)
Class Persistence (token : Type) (D : Type) := {
  od_save : D -> list token -> list token;
  od_load : list token -> option (D * list token);
  mm_save : markov_model -> list token -> list token;
  mm_load : list token -> option (markov_model * list token)
}.

(** The collaborators append to the output stream, and each reads back what
    it wrote, leaving the rest of the stream. *)
Class PersistenceLaws (token : Type) (D : Type) `{P : Persistence token D} := {
  od_save_appends : forall d os, od_save d os = os ++ od_save d [];
  mm_save_appends : forall m os, mm_save m os = os ++ mm_save m [];
  od_load_save : forall d rest, od_load (od_save d [] ++ rest) = Some (d, rest);
  mm_load_save : forall m rest, mm_load (mm_save m [] ++ rest) = Some (m, rest)
}.

Section Persist.

Context {token : Type} {D : Type} `{P : Persistence token D}.

(** [save]: the observation distribution first, then the chain. *)
Definition save (h : hidden_markov_model D) (os : list token) : list token :=
  let os := od_save (obs_dist_ h) os in
  mm_save (model_ h) os.

(** The constructor from an input stream: the members are read in their
    declaration order, [obs_dist_] before [model_]; nothing is checked. *)
Definition load (input : list token)
  : option (hidden_markov_model D * list token) :=
  match od_load input with
  | Some (obs_dist, input) =>
      match mm_load input with
      | Some (model, input) =>
          Some ({| obs_dist_ := obs_dist; model_ := model |}, input)
      | None => None
      end
  | None => None
  end.

End Persist.

(** A stream of whole objects, for the categorical distribution. *)
#[export] Instance object_stream
  : Persistence (categorical + markov_model) categorical := {
  od_save := fun d os => os ++ [inl d];
  od_load := fun input => match input with
                          | inl d :: rest => Some (d, rest)
                          | _ => None
                          end;
  mm_save := fun m os => os ++ [inr m];
  mm_load := fun input => match input with
                          | inr m :: rest => Some (m, rest)
                          | _ => None
                          end
}.

(** A training set without sequences, and options that converge on any
    change below one within ten iterations. *)
Definition no_training_data : @training_data_type categorical _ := [].

Definition ten_iterations : training_options :=
  {| delta := 1; max_iters := 10 |}.

(** Options that allow one iteration, and options that allow none. *)
Definition single_iteration : training_options :=
  {| delta := 2; max_iters := 1 |}.

Definition no_iterations : training_options :=
  {| delta := 1; max_iters := 0 |}.

(** The sum of the per-sequence log likelihoods of a training set. *)
Definition data_log_likelihood {D : Type} `{OD : ObsDist D}
    (h : hidden_markov_model D) (instances : training_data_type) : R :=
  sum_list (map (sequence_log_likelihood h) instances).

(** ** Tactics for concrete inputs *)

(** Evaluation of the model on concrete inputs: the loops, matrices and
    trellises are unfolded, the real arithmetic is left to [lra]. *)
Ltac evaluate :=
  cbv [Scenario.fwd Scenario.bwd Scenario.gamma Scenario.b Scenario.hmm
       Scenario.AB Scenario.ABA Scenario.A Scenario.B
       Scenario.emissions Scenario.chain
       sequence_log_likelihood
       forward backward posterior_state_membership output_probabilities
       xi_tij
       for_range for_from sum_upto fold_left seq length nth_error
       num_states trans_prob init_prob obs_dist_ model_ mm_num_states
       initial_probability transition_probability
       probability categorical_ObsDist cat_prob cat_states cat_symbols
       new_forward_trellis new_trellis ft_set tr_set ft_probability
       tr_probability normalize normalizer
       ft_trellis ft_normalizers tr_cells tr_labels tr_size ft_size
       mset zero_matrix Nat.eqb andb Nat.sub Nat.add].

(** The sums and the parameters of the two-state scenario, unfolded in a
    hypothesis. *)
Ltac unroll_sums_in H :=
  cbv [sum_upto for_range seq fold_left num_states Scenario.hmm model_
       Scenario.chain mm_num_states forward_raw backward_column
       init_prob trans_prob initial_probability transition_probability
       Nat.add Nat.sub] in H.


(** * Loops *)

Lemma for_range_0 {A : Type} (body : nat -> A -> A) (a : A) :
  for_range 0 body a = a.
Proof. reflexivity. Qed.

Lemma for_range_S {A : Type} (n : nat) (body : nat -> A -> A) (a : A) :
  for_range (S n) body a = body n (for_range n body a).
Proof.
  unfold for_range. rewrite seq_S, fold_left_app. reflexivity.
Qed.

Lemma for_from_S {A : Type} (lo n : nat) (body : nat -> A -> A) (a : A) :
  for_from lo (S n) body a = body (lo + n)%nat (for_from lo n body a).
Proof.
  unfold for_from. rewrite seq_S, fold_left_app. reflexivity.
Qed.

(** A loop commutes with a projection of its state that the body respects. *)
Lemma for_range_proj {A B : Type} (proj : A -> B) (body : nat -> A -> A)
    (body' : nat -> B -> B) (n : nat) (a : A) :
  (forall i x, (i < n)%nat -> proj (body i x) = body' i (proj x)) ->
  proj (for_range n body a) = for_range n body' (proj a).
Proof.
  induction n as [|n IH]; intros Hstep.
  - reflexivity.
  - rewrite !for_range_S, Hstep by lia. f_equal. apply IH.
    intros i x Hi. apply Hstep. lia.
Qed.

(** A loop invariant that every iteration preserves. *)
Lemma for_range_inv {A : Type} (P : A -> Prop) (body : nat -> A -> A)
    (n : nat) (a : A) :
  P a -> (forall i x, (i < n)%nat -> P x -> P (body i x)) ->
  P (for_range n body a).
Proof.
  intros Ha Hstep. induction n as [|n IH].
  - exact Ha.
  - rewrite for_range_S. apply Hstep; [lia|]. apply IH.
    intros i x Hi. apply Hstep. lia.
Qed.

Lemma for_range_ext {A : Type} (body body' : nat -> A -> A) (n : nat) (a : A) :
  (forall i x, (i < n)%nat -> body i x = body' i x) ->
  for_range n body a = for_range n body' a.
Proof.
  induction n as [|n IH]; intros H.
  - reflexivity.
  - rewrite !for_range_S, IH by (intros; apply H; lia). apply H. lia.
Qed.

(** * Sums *)

Lemma sum_upto_0 (f : nat -> R) : sum_upto 0 f = 0.
Proof. reflexivity. Qed.

Lemma sum_upto_S (n : nat) (f : nat -> R) :
  sum_upto (S n) f = sum_upto n f + f n.
Proof. unfold sum_upto. rewrite for_range_S. reflexivity. Qed.

Lemma sum_upto_ext (n : nat) (f g : nat -> R) :
  (forall i, (i < n)%nat -> f i = g i) -> sum_upto n f = sum_upto n g.
Proof.
  induction n as [|n IH]; intros H.
  - reflexivity.
  - rewrite !sum_upto_S, IH, H by (try lia; intros; apply H; lia). reflexivity.
Qed.

Lemma sum_upto_scal_l (n : nat) (c : R) (f : nat -> R) :
  sum_upto n (fun i => c * f i) = c * sum_upto n f.
Proof.
  induction n as [|n IH].
  - rewrite !sum_upto_0. lra.
  - rewrite !sum_upto_S, IH. lra.
Qed.

Lemma sum_upto_scal_r (n : nat) (c : R) (f : nat -> R) :
  sum_upto n (fun i => f i * c) = sum_upto n f * c.
Proof.
  induction n as [|n IH].
  - rewrite !sum_upto_0. lra.
  - rewrite !sum_upto_S, IH. lra.
Qed.

Lemma sum_upto_zero (n : nat) : sum_upto n (fun _ => 0) = 0.
Proof.
  induction n as [|n IH].
  - reflexivity.
  - rewrite sum_upto_S, IH. lra.
Qed.

Lemma sum_upto_nonneg (n : nat) (f : nat -> R) :
  (forall i, (i < n)%nat -> 0 <= f i) -> 0 <= sum_upto n f.
Proof.
  induction n as [|n IH]; intros H.
  - rewrite sum_upto_0. lra.
  - rewrite sum_upto_S.
    assert (0 <= sum_upto n f) by (apply IH; intros; apply H; lia).
    assert (0 <= f n) by (apply H; lia). lra.
Qed.

(** A non-negative family with a zero sum is zero everywhere. *)
Lemma sum_upto_zero_inv (n : nat) (f : nat -> R) :
  (forall i, (i < n)%nat -> 0 <= f i) -> sum_upto n f = 0 ->
  forall i, (i < n)%nat -> f i = 0.
Proof.
  induction n as [|n IH]; intros Hf Hs i Hi; [lia|].
  rewrite sum_upto_S in Hs.
  assert (0 <= sum_upto n f)
    by (apply sum_upto_nonneg; intros; apply Hf; lia).
  assert (0 <= f n) by (apply Hf; lia).
  destruct (Nat.eq_dec i n) as [->|Hne]; [lra|].
  apply IH; [intros; apply Hf; lia | lra | lia].
Qed.

(** * Writing one row of a dense matrix, cell by cell *)

Lemma mset_same (m : dense_matrix) (r c : nat) (v : R) : mset m r c v r c = v.
Proof. unfold mset. rewrite !Nat.eqb_refl. reflexivity. Qed.

Lemma row_loop (row n : nat) (g : dense_matrix -> nat -> R) (m : dense_matrix) :
  reads_unwritten row g ->
  forall r c,
    for_range n (fun i m' => mset m' row i (g m' i)) m r c
    = if (r =? row)%nat && (c <? n)%nat then g m c else m r c.
Proof.
  intros Hg. induction n as [|n IH]; intros r c.
  - rewrite for_range_0, andb_false_r. reflexivity.
  - rewrite for_range_S.
    set (m' := for_range n _ m) in *.
    assert (Hgn : g m' n = g m n).
    { apply Hg. intros r' c' H. rewrite IH.
      destruct (Nat.eqb_spec r' row), (Nat.ltb_spec c' n); simpl;
        try reflexivity. lia. }
    unfold mset at 1. rewrite Hgn, IH.
    destruct (Nat.eqb_spec r row), (Nat.eqb_spec c n),
      (Nat.ltb_spec c n), (Nat.ltb_spec c (S n)); simpl;
      subst; try reflexivity; try lia.
Qed.

(** * The trellises *)

Lemma tr_row_loop (row n : nat) (g : dense_matrix -> nat -> R) (tr : trellis) :
  reads_unwritten row g ->
  let tr' := for_range n (fun i tr' => tr_set tr' row i (g (tr_cells tr') i)) tr in
  (forall r c, tr_probability tr' r c
               = if (r =? row)%nat && (c <? n)%nat then g (tr_cells tr) c
                 else tr_probability tr r c)
  /\ tr_labels tr' = tr_labels tr /\ tr_size tr' = tr_size tr.
Proof.
  intros Hg tr'. repeat split.
  - intros r c. unfold tr_probability, tr'.
    rewrite (for_range_proj tr_cells _ (fun i m' => mset m' row i (g m' i)))
      by reflexivity.
    apply row_loop. exact Hg.
  - apply (for_range_inv (fun x => tr_labels x = tr_labels tr)); auto.
  - apply (for_range_inv (fun x => tr_size x = tr_size tr)); auto.
Qed.

Lemma ft_row_loop (row n : nat) (g : dense_matrix -> nat -> R)
    (fwd : forward_trellis) :
  reads_unwritten row g ->
  let fwd' :=
    for_range n
      (fun i fwd' => ft_set fwd' row i (g (tr_cells (ft_trellis fwd')) i)) fwd in
  (forall r c, ft_probability fwd' r c
               = if (r =? row)%nat && (c <? n)%nat
                 then g (tr_cells (ft_trellis fwd)) c
                 else ft_probability fwd r c)
  /\ (forall t, normalizer fwd' t = normalizer fwd t)
  /\ tr_labels (ft_trellis fwd') = tr_labels (ft_trellis fwd)
  /\ ft_size fwd' = ft_size fwd.
Proof.
  intros Hg fwd'.
  assert (Htr : ft_trellis fwd'
                = for_range n
                    (fun i tr' => tr_set tr' row i (g (tr_cells tr') i))
                    (ft_trellis fwd)).
  { unfold fwd'. apply for_range_proj. reflexivity. }
  destruct (tr_row_loop row n g (ft_trellis fwd) Hg) as (Hc & Hl & Hs).
  unfold ft_probability, ft_size. rewrite Htr. repeat split; auto.
  intros t. unfold normalizer, fwd'.
  apply (for_range_inv (fun x => ft_normalizers x t = ft_normalizers fwd t)); auto.
Qed.

Lemma normalize_spec (fwd : forward_trellis) (idx : nat) :
  let labels := tr_labels (ft_trellis fwd) in
  let sum := sum_upto labels (fun s => ft_probability fwd idx s) in
  (forall r c, ft_probability (normalize fwd idx) r c
               = if (r =? idx)%nat && (c <? labels)%nat
                 then ft_probability fwd idx c / sum
                 else ft_probability fwd r c)
  /\ (forall t, normalizer (normalize fwd idx) t
                = if (t =? idx)%nat then sum else normalizer fwd t)
  /\ tr_labels (ft_trellis (normalize fwd idx)) = labels
  /\ ft_size (normalize fwd idx) = ft_size fwd.
Proof.
  intros labels sum.
  assert (Hg : reads_unwritten idx (fun m s => m idx s / sum)).
  { intros m1 m2 i H. rewrite H by (right; lia). reflexivity. }
  destruct (tr_row_loop idx labels (fun m s => m idx s / sum)
              (ft_trellis fwd) Hg) as (Hc & Hl & Hs).
  repeat split.
  - intros r c. unfold ft_probability, normalize. cbn [ft_trellis].
    fold labels. fold sum. apply Hc.
  - unfold normalize. cbn [ft_trellis]. exact Hl.
  - unfold ft_size, normalize. cbn [ft_trellis]. exact Hs.
Qed.

Section Forward.

Context {D : Type} `{OD : ObsDist D}.
Variable h : hidden_markov_model D.
Variable b : dense_matrix.

Lemma forward_raw_ext (fwd fwd' : forward_trellis) (t : nat) (s : state_id) :
  (forall t' j, (t' < t)%nat -> ft_probability fwd t' j = ft_probability fwd' t' j) ->
  forward_raw h b fwd t s = forward_raw h b fwd' t s.
Proof.
  intros H. destruct t as [|t]; [reflexivity|]. simpl.
  f_equal. apply sum_upto_ext. intros j _. rewrite H by lia. reflexivity.
Qed.

Lemma forward_column_ext (fwd fwd' : forward_trellis) (t : nat) :
  (forall t' j, (t' <= t)%nat -> ft_probability fwd t' j = ft_probability fwd' t' j) ->
  normalizer fwd t = normalizer fwd' t ->
  forward_column h b fwd t -> forward_column h b fwd' t.
Proof.
  intros Hc Hn [H1 H2]. split.
  - rewrite <- Hn, H1. apply sum_upto_ext. intros s _.
    apply forward_raw_ext. intros. apply Hc. lia.
  - intros s Hs. rewrite <- Hn, <- Hc, H2 by lia. f_equal.
    apply forward_raw_ext. intros. apply Hc. lia.
Qed.

(** One pass of the column loop: the cells of row [t] are written from row
    [t - 1], then the row is normalized. *)
Lemma forward_step (fwd : forward_trellis) (t : nat) (raw : dense_matrix -> nat -> R) :
  reads_unwritten t raw ->
  tr_labels (ft_trellis fwd) = num_states h ->
  let fwd' :=
    normalize
      (for_range (num_states h)
         (fun i fwd' => ft_set fwd' t i (raw (tr_cells (ft_trellis fwd')) i)) fwd)
      t in
  let cells := tr_cells (ft_trellis fwd) in
  (forall r c, r <> t -> ft_probability fwd' r c = ft_probability fwd r c)
  /\ (forall r, r <> t -> normalizer fwd' r = normalizer fwd r)
  /\ normalizer fwd' t = sum_upto (num_states h) (raw cells)
  /\ (forall s, (s < num_states h)%nat ->
        ft_probability fwd' t s = raw cells s / normalizer fwd' t)
  /\ tr_labels (ft_trellis fwd') = num_states h
  /\ ft_size fwd' = ft_size fwd.
Proof.
  intros Hraw Hlab fwd' cells.
  destruct (ft_row_loop t (num_states h) raw fwd Hraw) as (Hc & Hn & Hl & Hs).
  set (mid := for_range (num_states h) _ fwd) in *.
  destruct (normalize_spec mid t) as (Nc & Nn & Nl & Ns).
  rewrite Hl, Hlab in Nc, Nn, Nl.
  assert (Hsum : sum_upto (num_states h) (fun s => ft_probability mid t s)
                 = sum_upto (num_states h) (raw cells)).
  { apply sum_upto_ext. intros s Hs'. rewrite Hc, Nat.eqb_refl.
    destruct (Nat.ltb_spec s (num_states h)); [reflexivity | lia]. }
  repeat split.
  - intros r c Hr. unfold fwd'. rewrite Nc.
    destruct (Nat.eqb_spec r t); [contradiction|]. simpl. rewrite Hc.
    destruct (Nat.eqb_spec r t); [contradiction | reflexivity].
  - intros r Hr. unfold fwd'. rewrite Nn.
    destruct (Nat.eqb_spec r t); [contradiction | apply Hn].
  - unfold fwd'. rewrite Nn, Nat.eqb_refl. exact Hsum.
  - intros s Hs'. unfold fwd'. rewrite Nc, Nn, !Nat.eqb_refl, Hsum.
    destruct (Nat.ltb_spec s (num_states h)); [|lia]. simpl.
    rewrite Hc, Nat.eqb_refl.
    destruct (Nat.ltb_spec s (num_states h)); [reflexivity | lia].
  - exact Nl.
  - unfold fwd'. rewrite Ns. exact Hs.
Qed.

(** The loop of [forward] does not read the size the trellis was created
    with, so its cells and normalizers do not depend on it. *)
Lemma forward_loop_inv (size n : nat) :
  let fwd :=
    for_from 1 n
      (fun t fwd =>
         normalize
           (for_range (num_states h)
              (fun i fwd =>
                 ft_set fwd t i
                   (sum_upto (num_states h)
                      (fun j => ft_probability fwd (t - 1) j * trans_prob h j i)
                    * b t i))
              fwd) t)
      (normalize
         (for_range (num_states h)
            (fun l fwd => ft_set fwd 0 l (init_prob h l * b 0%nat l))
            (new_forward_trellis size (num_states h)))
         0) in
  tr_labels (ft_trellis fwd) = num_states h
  /\ ft_size fwd = size
  /\ forall t, (t <= n)%nat -> forward_column h b fwd t.
Proof.
  induction n as [|n IH].
  - cbn zeta. unfold for_from. cbn [seq fold_left].
    destruct (forward_step (new_forward_trellis size (num_states h)) 0
                (fun _ l => init_prob h l * b 0%nat l))
      as (_ & _ & Hn & Hc & Hl & Hs); [intros ? ? ? ?; reflexivity | reflexivity |].
    split; [exact Hl|]. split; [exact Hs|].
    intros t Ht. replace t with 0%nat by lia. split; [exact Hn | exact Hc].
  - cbn zeta. rewrite for_from_S. cbn zeta in IH.
    set (prev := for_from 1 n _ _) in *.
    destruct IH as (Hlab & Hsize & Hcols).
    replace (1 + n)%nat with (S n) by lia.
    assert (Hraw : reads_unwritten (S n)
              (fun m i => sum_upto (num_states h)
                            (fun j => m (S n - 1)%nat j * trans_prob h j i)
                          * b (S n) i)).
    { intros m1 m2 i H. f_equal. apply sum_upto_ext. intros j _.
      rewrite H by (left; lia). reflexivity. }
    match goal with
    | |- context [normalize ?x ?t] => set (cur := normalize x t)
    end.
    pose proof (forward_step prev (S n) _ Hraw Hlab) as Hstep.
    cbv zeta in Hstep. change (normalize _ _) with cur in Hstep.
    destruct Hstep as (Hc & Hn & Hnt & Hct & Hl & Hs).
    split; [exact Hl|]. split; [rewrite <- Hsize; exact Hs|].
    intros t Ht. destruct (Nat.eq_dec t (S n)) as [->|Hne].
    + split.
      * etransitivity; [exact Hnt|]. apply sum_upto_ext. intros s _.
        simpl. replace (n - 0)%nat with n by lia.
        f_equal. apply sum_upto_ext. intros j _.
        rewrite Hc by lia. reflexivity.
      * intros s Hs'. etransitivity; [apply Hct; exact Hs'|].
        f_equal. simpl. replace (n - 0)%nat with n by lia.
        f_equal. apply sum_upto_ext. intros j _.
        rewrite Hc by lia. reflexivity.
    + apply (forward_column_ext prev).
      * intros t' j Ht'. symmetry. apply Hc. lia.
      * symmetry. apply Hn. lia.
      * apply Hcols. lia.
Qed.


Lemma forward_columns (sq : sequence_type) :
  let fwd := forward h sq b in
  tr_labels (ft_trellis fwd) = num_states h
  /\ ft_size fwd = length sq
  /\ forall t, (t < length sq)%nat -> forward_column h b fwd t.
Proof.
  destruct (forward_loop_inv (length sq) (length sq - 1)) as (Hl & Hs & Hc).
  split; [exact Hl|]. split; [exact Hs|].
  intros t Ht. apply Hc. lia.
Qed.

(** Two trellises whose columns [0 .. t] obey the forward recurrence agree
    on those columns. *)
Lemma forward_column_unique (fwd fwd' : forward_trellis) (n : nat) :
  (forall t, (t <= n)%nat -> forward_column h b fwd t) ->
  (forall t, (t <= n)%nat -> forward_column h b fwd' t) ->
  forall t, (t <= n)%nat ->
    normalizer fwd t = normalizer fwd' t
    /\ forall s, (s < num_states h)%nat ->
         ft_probability fwd t s = ft_probability fwd' t s.
Proof.
  intros H H' t. induction t as [|t IH]; intros Ht.
  - destruct (H 0%nat Ht) as [Hn Hc], (H' 0%nat Ht) as [Hn' Hc'].
    assert (E : normalizer fwd 0 = normalizer fwd' 0)
      by (rewrite Hn, Hn'; reflexivity).
    split; [exact E|]. intros s Hs. rewrite Hc, Hc', E by assumption.
    reflexivity.
  - destruct (H (S t) Ht) as [Hn Hc], (H' (S t) Ht) as [Hn' Hc'].
    destruct IH as [_ IH]; [lia|].
    assert (Eraw : forall s, forward_raw h b fwd (S t) s = forward_raw h b fwd' (S t) s).
    { intros s. simpl. f_equal. apply sum_upto_ext. intros j Hj.
      rewrite IH by assumption. reflexivity. }
    assert (E : normalizer fwd (S t) = normalizer fwd' (S t)).
    { rewrite Hn, Hn'. apply sum_upto_ext. intros s _. apply Eraw. }
    split; [exact E|]. intros s Hs. rewrite Hc, Hc', E, Eraw by assumption.
    reflexivity.
Qed.

End Forward.

Section Backward.

Context {D : Type} `{OD : ObsDist D}.
Variable h : hidden_markov_model D.
Variable b : dense_matrix.
Variable fwd : forward_trellis.

Lemma backward_loop_inv (T n : nat) :
  (n < T)%nat ->
  let bwd :=
    for_from 1 n
      (fun k bwd =>
         let t := (T - 1 - k)%nat in
         for_range (num_states h)
           (fun i bwd =>
              let sum :=
                sum_upto (num_states h)
                  (fun j => tr_probability bwd (t + 1) j * trans_prob h i j
                            * b (t + 1)%nat j) in
              let norm := normalizer fwd (t + 1) in
              tr_set bwd t i (norm * sum))
           bwd)
      (for_range (num_states h) (fun i bwd => tr_set bwd (T - 1) i 1)
         (new_trellis T (num_states h))) in
  (forall s, (s < num_states h)%nat -> tr_probability bwd (T - 1) s = 1)
  /\ (forall t, (T - 1 - n <= t)%nat -> (t + 1 < T)%nat -> backward_column h b fwd bwd t)
  /\ tr_size bwd = T.
Proof.
  intros Hn. induction n as [|n IH].
  - cbn zeta. unfold for_from. cbn [seq fold_left].
    destruct (tr_row_loop (T - 1) (num_states h) (fun _ _ => 1)
                (new_trellis T (num_states h)))
      as (Hc & _ & Hs); [intros ? ? ? ?; reflexivity|].
    split; [|split].
    + intros s Hs'. etransitivity; [apply Hc|].
      rewrite Nat.eqb_refl.
      destruct (Nat.ltb_spec s (num_states h)); [reflexivity | lia].
    + intros t H1 H2. lia.
    + exact Hs.
  - cbn zeta. rewrite for_from_S. cbn zeta in IH.
    set (prev := for_from 1 n _ _) in *.
    destruct IH as (Hlast & Hcols & Hsize); [lia|].
    replace (T - 1 - (1 + n))%nat with (T - 2 - n)%nat by lia.
    set (t := (T - 2 - n)%nat).
    assert (Hraw : reads_unwritten t
              (fun m i => normalizer fwd (t + 1)
                          * sum_upto (num_states h)
                              (fun j => m (t + 1)%nat j * trans_prob h i j
                                        * b (t + 1)%nat j))).
    { intros m1 m2 i H. f_equal. apply sum_upto_ext. intros j _.
      rewrite H by (left; lia). reflexivity. }
    match goal with
    | |- context [for_range ?k ?body prev] => set (cur := for_range k body prev)
    end.
    pose proof (tr_row_loop t (num_states h) _ prev Hraw) as Hstep.
    cbv zeta in Hstep. change (for_range _ _ prev) with cur in Hstep.
    destruct Hstep as (Hc & _ & Hs).
    assert (Hkeep : forall r c, r <> t -> tr_probability cur r c = tr_probability prev r c).
    { intros r c Hr. rewrite Hc.
      destruct (Nat.eqb_spec r t); [contradiction | reflexivity]. }
    split; [|split].
    + intros s Hs'. rewrite Hkeep by (unfold t; lia). apply Hlast, Hs'.
    + intros t' H1 H2 s Hs'.
      destruct (Nat.eq_dec t' t) as [->|Hne].
      * rewrite Hc, Nat.eqb_refl.
        destruct (Nat.ltb_spec s (num_states h)); [|lia]. simpl.
        f_equal. apply sum_upto_ext. intros j _.
        rewrite Hkeep by lia. reflexivity.
      * rewrite Hkeep by exact Hne.
        rewrite (Hcols t') by (try assumption; unfold t in Hne; lia).
        f_equal. apply sum_upto_ext. intros j _.
        rewrite Hkeep by (unfold t in *; lia). reflexivity.
    + rewrite Hs. exact Hsize.
Qed.

Lemma backward_columns (sq : sequence_type) :
  sq <> [] ->
  let bwd := backward h sq fwd b in
  (forall s, (s < num_states h)%nat -> tr_probability bwd (length sq - 1) s = 1)
  /\ (forall t, (t + 1 < length sq)%nat -> backward_column h b fwd bwd t)
  /\ tr_size bwd = length sq.
Proof.
  intros Hne.
  assert (Hlen : (length sq - 1 < length sq)%nat).
  { destruct sq; [contradiction | simpl; lia]. }
  destruct (backward_loop_inv (length sq) (length sq - 1) Hlen) as (H1 & H2 & H3).
  split; [exact H1|]. split; [|exact H3].
  intros t Ht. apply H2; lia.
Qed.

End Backward.

Section Posterior.

Context {D : Type} `{OD : ObsDist D}.
Variable h : hidden_markov_model D.

Lemma output_probabilities_loop (sq : sequence_type) (n : nat) :
  (n <= length sq)%nat ->
  forall r c,
    for_range n
      (fun t output_probs =>
         match nth_error sq t with
         | Some o =>
             for_range (num_states h)
               (fun s_i output_probs =>
                  mset output_probs t s_i (probability (obs_dist_ h) o s_i))
               output_probs
         | None => output_probs
         end)
      zero_matrix r c
    = if (r <? n)%nat && (c <? num_states h)%nat
      then match nth_error sq r with
           | Some o => probability (obs_dist_ h) o c
           | None => 0
           end
      else 0.
Proof.
  induction n as [|n IH]; intros Hn r c.
  - reflexivity.
  - rewrite for_range_S.
    set (prev := for_range n _ zero_matrix) in *.
    destruct (nth_error sq n) as [o|] eqn:Ho.
    + rewrite (row_loop n (num_states h)
                 (fun _ s_i => probability (obs_dist_ h) o s_i))
        by (intros ? ? ? ?; reflexivity).
      rewrite IH by lia.
      destruct (Nat.eqb_spec r n) as [->|Hne].
      * rewrite Ho, Nat.ltb_irrefl.
        destruct (Nat.ltb_spec n (S n)); [|lia].
        destruct (c <? num_states h)%nat; reflexivity.
      * simpl. destruct (Nat.ltb_spec r n), (Nat.ltb_spec r (S n));
          try reflexivity; lia.
    + apply nth_error_None in Ho. lia.
Qed.

(** The cache holds [b(t, s) = P(observation_t | state s)]. *)
Lemma output_probabilities_spec (sq : sequence_type) (t : nat) (s : state_id)
    (o : observation_type) :
  nth_error sq t = Some o -> (s < num_states h)%nat ->
  output_probabilities h sq t s = probability (obs_dist_ h) o s.
Proof.
  intros Ho Hs. unfold output_probabilities.
  rewrite output_probabilities_loop by lia.
  assert (Ht : (t < length sq)%nat) by (apply nth_error_Some; congruence).
  destruct (Nat.ltb_spec t (length sq)); [|lia].
  destruct (Nat.ltb_spec s (num_states h)); [|lia].
  simpl. rewrite Ho. reflexivity.
Qed.

Lemma gamma_products_loop (n t : nat) (p : nat -> R) (m : dense_matrix) :
  for_range n
    (fun i '(gamma, norm) =>
       let gamma := mset gamma t i (p i) in (gamma, norm + gamma t i))
    (m, 0)
  = (for_range n (fun i m' => mset m' t i (p i)) m, sum_upto n p).
Proof.
  induction n as [|n IH].
  - reflexivity.
  - rewrite !for_range_S, IH, sum_upto_S. cbv zeta.
    rewrite mset_same. reflexivity.
Qed.

(** One pass of the time-step loop of [posterior_state_membership]. *)
Lemma posterior_step (fwd : forward_trellis) (bwd : trellis) (t : nat)
    (m : dense_matrix) :
  let p := fun i => ft_probability fwd t i * tr_probability bwd t i in
  let m' :=
    let '(gamma, norm) :=
      for_range (num_states h)
        (fun i '(gamma, norm) =>
           let gamma :=
             mset gamma t i (ft_probability fwd t i * tr_probability bwd t i) in
           (gamma, norm + gamma t i))
        (m, 0) in
    for_range (num_states h)
      (fun i gamma => mset gamma t i (gamma t i / norm)) gamma in
  forall r c,
    m' r c = if (r =? t)%nat && (c <? num_states h)%nat
             then p c / sum_upto (num_states h) p
             else m r c.
Proof.
  intros p m' r c. unfold m'.
  pose proof (gamma_products_loop (num_states h) t p m) as E.
  unfold p at 1 in E. cbv beta in E. rewrite E. clear E.
  rewrite (row_loop t (num_states h)
             (fun m'' i => m'' t i / sum_upto (num_states h) p)).
  - rewrite (row_loop t (num_states h) (fun _ i => p i))
      by (intros ? ? ? ?; reflexivity).
    rewrite (row_loop t (num_states h) (fun _ i => p i))
      by (intros ? ? ? ?; reflexivity).
    rewrite Nat.eqb_refl.
    destruct (Nat.eqb_spec r t), (Nat.ltb_spec c (num_states h)); reflexivity.
  - intros m1 m2 i H. rewrite H by (right; lia). reflexivity.
Qed.

Lemma posterior_loop (fwd : forward_trellis) (bwd : trellis) (n : nat) :
  forall r c,
    for_range n
      (fun t gamma =>
         let '(gamma, norm) :=
           for_range (num_states h)
             (fun i '(gamma, norm) =>
                let gamma :=
                  mset gamma t i
                    (ft_probability fwd t i * tr_probability bwd t i) in
                (gamma, norm + gamma t i))
             (gamma, 0) in
         for_range (num_states h)
           (fun i gamma => mset gamma t i (gamma t i / norm)) gamma)
      zero_matrix r c
    = if (r <? n)%nat && (c <? num_states h)%nat
      then ft_probability fwd r c * tr_probability bwd r c
           / sum_upto (num_states h)
               (fun i => ft_probability fwd r i * tr_probability bwd r i)
      else 0.
Proof.
  induction n as [|n IH]; intros r c.
  - reflexivity.
  - rewrite for_range_S.
    set (prev := for_range n _ zero_matrix) in *.
    rewrite (posterior_step fwd bwd n prev), IH.
    destruct (Nat.eqb_spec r n) as [->|Hne].
    + destruct (Nat.ltb_spec n (S n)); [|lia].
      destruct (c <? num_states h)%nat; simpl; [reflexivity|].
      rewrite andb_false_r. reflexivity.
    + simpl. destruct (Nat.ltb_spec r n), (Nat.ltb_spec r (S n));
        try reflexivity; lia.
Qed.

(** gamma(t, s) is the product of the forward and backward cells divided by
    the sum of these products over the states. *)
Lemma posterior_state_membership_spec (fwd : forward_trellis) (bwd : trellis)
    (t : nat) (s : state_id) :
  (t < ft_size fwd)%nat -> (s < num_states h)%nat ->
  posterior_state_membership h fwd bwd t s
  = ft_probability fwd t s * tr_probability bwd t s
    / sum_upto (num_states h)
        (fun i => ft_probability fwd t i * tr_probability bwd t i).
Proof.
  intros Ht Hs. unfold posterior_state_membership.
  rewrite posterior_loop.
  destruct (Nat.ltb_spec t (ft_size fwd)); [|lia].
  destruct (Nat.ltb_spec s (num_states h)); [|lia].
  reflexivity.
Qed.

End Posterior.

(** * Normalization of the columns and of the posteriors *)

Section Normalized.

Context {D : Type} `{OD : ObsDist D}.
Variable h : hidden_markov_model D.

Lemma sum_upto_div (n : nat) (f : nat -> R) (c : R) :
  sum_upto n (fun i => f i / c) = sum_upto n f / c.
Proof. unfold Rdiv. apply sum_upto_scal_r. Qed.

(** A forward column with a non-zero scale factor sums to 1. *)
Lemma forward_column_sums_to_one (b : dense_matrix) (sq : sequence_type)
    (t : nat) :
  (t < length sq)%nat ->
  normalizer (forward h sq b) t <> 0 ->
  sum_upto (num_states h) (fun s => ft_probability (forward h sq b) t s) = 1.
Proof.
  intros Ht Hnz.
  destruct (forward_columns h b sq) as (_ & _ & Hcol).
  destruct (Hcol t Ht) as [Hn Hc].
  rewrite (sum_upto_ext _ _ (fun s => forward_raw h b (forward h sq b) t s
                                      / normalizer (forward h sq b) t))
    by exact Hc.
  rewrite sum_upto_div, <- Hn. field. exact Hnz.
Qed.

(** The posteriors of a time step sum to 1 whenever the products of the
    forward and backward cells do not sum to zero. *)
Lemma posterior_sums_to_one (fwd : forward_trellis) (bwd : trellis) (t : nat) :
  (t < ft_size fwd)%nat ->
  sum_upto (num_states h)
    (fun i => ft_probability fwd t i * tr_probability bwd t i) <> 0 ->
  sum_upto (num_states h) (fun s => posterior_state_membership h fwd bwd t s)
  = 1.
Proof.
  intros Ht Hnz.
  rewrite (sum_upto_ext _ _
             (fun s => ft_probability fwd t s * tr_probability bwd t s
                       / sum_upto (num_states h)
                           (fun i => ft_probability fwd t i
                                     * tr_probability bwd t i))).
  - rewrite sum_upto_div. field. exact Hnz.
  - intros s Hs. apply posterior_state_membership_spec; assumption.
Qed.

End Normalized.

Lemma ln_half : ln 0.5 = - ln 2.
Proof.
  replace 0.5 with (/ 2) by lra. apply ln_Rinv. lra.
Qed.

Lemma scenario_forward :
  ft_probability Scenario.fwd 0 0 = 0.8 /\ ft_probability Scenario.fwd 0 1 = 0.2
  /\ normalizer Scenario.fwd 0 = 0.5
  /\ ft_probability Scenario.fwd 1 0 = 0.2 /\ ft_probability Scenario.fwd 1 1 = 0.8
  /\ normalizer Scenario.fwd 1 = 0.5.
Proof. evaluate. repeat split; lra. Qed.

Lemma scenario_backward :
  tr_probability Scenario.bwd 0 0 = 0.25 /\ tr_probability Scenario.bwd 0 1 = 0.25.
Proof. evaluate. split; lra. Qed.

Lemma scenario_gamma :
  Scenario.gamma 0%nat 0%nat = 0.8 /\ Scenario.gamma 0%nat 1%nat = 0.2
  /\ Scenario.gamma 1%nat 0%nat = 0.2 /\ Scenario.gamma 1%nat 1%nat = 0.8.
Proof.
  destruct scenario_forward as (F00 & F01 & _ & F10 & F11 & _).
  destruct scenario_backward as (B00 & B01).
  assert (B10 : tr_probability Scenario.bwd 1 0 = 1) by reflexivity.
  assert (B11 : tr_probability Scenario.bwd 1 1 = 1) by reflexivity.
  unfold Scenario.gamma.
  rewrite !posterior_state_membership_spec by (cbv; lia).
  cbv [sum_upto for_range seq fold_left num_states Scenario.hmm model_
       Scenario.chain mm_num_states].
  rewrite F00, F01, F10, F11, B00, B01, B10, B11.
  repeat split; lra.
Qed.

Lemma scenario_log_likelihood :
  sequence_log_likelihood Scenario.hmm Scenario.AB = 2 * ln 2.
Proof.
  destruct scenario_forward as (_ & _ & N0 & _ & _ & N1).
  change (sequence_log_likelihood _ _)
    with (0 + - ln (normalizer Scenario.fwd 0) + - ln (normalizer Scenario.fwd 1)).
  rewrite N0, N1, ln_half. lra.
Qed.

(** * The expectation step of one sequence *)

(** A loop whose body adds [w k] to a real-valued projection of the state. *)
Lemma for_range_add {A : Type} (p : A -> R) (w : nat -> R)
    (body : nat -> A -> A) (n : nat) (a : A) :
  (forall k x, (k < n)%nat -> p (body k x) = p x + w k) ->
  p (for_range n body a) = p a + sum_upto n w.
Proof.
  induction n as [|n IH]; intros H.
  - rewrite for_range_0, sum_upto_0. lra.
  - rewrite for_range_S, sum_upto_S, H, IH by (try lia; intros; apply H; lia).
    lra.
Qed.

Lemma sum_upto_indicator (n i : nat) (v : R) :
  sum_upto n (fun k => if (k =? i)%nat then v else 0)
  = if (i <? n)%nat then v else 0.
Proof.
  induction n as [|n IH].
  - reflexivity.
  - rewrite sum_upto_S, IH.
    destruct (Nat.eqb_spec n i), (Nat.ltb_spec i n), (Nat.ltb_spec i (S n));
      try lia; lra.
Qed.

Section ExpectationStep.

Context {D : Type} `{OD : ObsDist D}.
Variable h : hidden_markov_model D.
Variable sq : sequence_type.

Let b := output_probabilities h sq.
Let fwd := forward h sq b.
Let bwd := backward h sq fwd b.
Let gamma := posterior_state_membership h fwd bwd.

(** The loop over the states of the expectation step. *)
Let counts_loop (counts : expected_counts D) : expected_counts D :=
  for_range (num_states h)
    (fun i counts =>
       let counts :=
         with_model_counts counts
           (increment_initial (model_counts counts) i (gamma 0%nat i)) in
       let counts :=
         for_range (num_states h)
           (fun j counts =>
              for_range (length sq - 1)
                (fun t counts =>
                   with_model_counts counts
                     (increment_transition (model_counts counts) i j
                        (xi_tij h gamma b fwd bwd t i j)))
                counts)
           counts in
       for_range (length sq)
         (fun t counts =>
            match nth_error sq t with
            | Some o =>
                with_obs_counts counts
                  (increment (obs_counts counts) o i (gamma t i))
            | None => counts
            end)
         counts)
    counts.

Lemma accumulate_sequence_unfold (counts : expected_counts D) :
  accumulate_sequence h counts sq
  = for_range (length sq)
      (fun t counts =>
         with_log_likelihood counts
           (log_likelihood counts + - ln (normalizer fwd t)))
      (counts_loop counts).
Proof. reflexivity. Qed.

Lemma counts_loop_log_likelihood (counts : expected_counts D) :
  log_likelihood (counts_loop counts) = log_likelihood counts.
Proof.
  unfold counts_loop.
  apply (for_range_inv (fun x => log_likelihood x = log_likelihood counts));
    [reflexivity|].
  intros i x _ Hx. cbv zeta.
  apply for_range_inv.
  - apply for_range_inv; [exact Hx|].
    intros j y _ Hy. apply for_range_inv; [exact Hy|].
    intros t z _ Hz. exact Hz.
  - intros t y _ Hy. destruct (nth_error sq t); exact Hy.
Qed.

(** The sequence adds the negated logarithms of its scale factors to the
    log likelihood. *)
Lemma accumulate_log_likelihood (counts : expected_counts D) :
  log_likelihood (accumulate_sequence h counts sq)
  = log_likelihood counts + sequence_log_likelihood h sq.
Proof.
  rewrite accumulate_sequence_unfold.
  rewrite (for_range_add log_likelihood (fun t => - ln (normalizer fwd t)))
    by reflexivity.
  rewrite counts_loop_log_likelihood. reflexivity.
Qed.

Lemma accumulate_model_counts (counts : expected_counts D) :
  model_counts (accumulate_sequence h counts sq)
  = model_counts (counts_loop counts).
Proof.
  rewrite accumulate_sequence_unfold.
  apply (for_range_inv
           (fun x => model_counts x = model_counts (counts_loop counts)));
    [reflexivity|].
  intros t x _ Hx. exact Hx.
Qed.

Lemma accumulate_obs_counts (counts : expected_counts D) :
  obs_counts (accumulate_sequence h counts sq)
  = obs_counts (counts_loop counts).
Proof.
  rewrite accumulate_sequence_unfold.
  apply (for_range_inv
           (fun x => obs_counts x = obs_counts (counts_loop counts)));
    [reflexivity|].
  intros t x _ Hx. exact Hx.
Qed.

(** The transition count of [(i, j)] grows by the sum of [xi_tij] over the
    time steps [0 .. T-2]. *)
Lemma accumulate_trans_count (counts : expected_counts D) (i j : state_id) :
  trans_count (model_counts (accumulate_sequence h counts sq)) i j
  = trans_count (model_counts counts) i j
    + (if (i <? num_states h)%nat && (j <? num_states h)%nat
       then sum_upto (length sq - 1)
              (fun t => xi_tij h gamma b fwd bwd t i j)
       else 0).
Proof.
  rewrite accumulate_model_counts. unfold counts_loop.
  set (total := sum_upto (length sq - 1)
                  (fun t => xi_tij h gamma b fwd bwd t i j)).
  rewrite (for_range_add (fun c => trans_count (model_counts c) i j)
             (fun i' => if (i' =? i)%nat
                        then if (j <? num_states h)%nat then total else 0
                        else 0)).
  - rewrite sum_upto_indicator.
    destruct (i <? num_states h)%nat, (j <? num_states h)%nat; reflexivity.
  - intros i' x _. cbv zeta.
    (* the observation loop leaves the chain counts alone *)
    match goal with
    | |- trans_count (model_counts (for_range ?n ?body ?a)) i j = _ =>
        assert (E : model_counts (for_range n body a) = model_counts a)
    end.
    { apply (for_range_inv (fun y => model_counts y = _)); [reflexivity|].
      intros t y _ Hy. destruct (nth_error sq t); exact Hy. }
    rewrite E. clear E.
    rewrite (for_range_add (fun c => trans_count (model_counts c) i j)
               (fun j' => if (j' =? j)%nat
                          then if (i' =? i)%nat then total else 0
                          else 0)).
    + rewrite sum_upto_indicator. cbn [model_counts with_model_counts
                                       increment_initial trans_count].
      destruct (Nat.eqb_spec i' i), (j <? num_states h)%nat; lra.
    + intros j' y _.
      rewrite (for_range_add (fun c => trans_count (model_counts c) i j)
                 (fun t => if (i =? i')%nat && (j =? j')%nat
                           then xi_tij h gamma b fwd bwd t i' j' else 0)).
      * f_equal.
        destruct (Nat.eqb_spec j' j) as [->|Hj], (Nat.eqb_spec i' i) as [->|Hi].
        -- rewrite !Nat.eqb_refl. reflexivity.
        -- destruct (Nat.eqb_spec i i'); [congruence|]. apply sum_upto_zero.
        -- destruct (Nat.eqb_spec j j'); [congruence|].
           rewrite andb_false_r. apply sum_upto_zero.
        -- destruct (Nat.eqb_spec j j'); [congruence|].
           rewrite andb_false_r. apply sum_upto_zero.
      * intros t z _.
        cbn [model_counts with_model_counts increment_transition trans_count].
        destruct ((i =? i')%nat && (j =? j')%nat); lra.
Qed.

(** The initial count of [s] grows by [gamma(0, s)]. *)
Lemma accumulate_initial_count (counts : expected_counts D) (s : state_id) :
  initial_count (model_counts (accumulate_sequence h counts sq)) s
  = initial_count (model_counts counts) s
    + (if (s <? num_states h)%nat then gamma 0%nat s else 0).
Proof.
  rewrite accumulate_model_counts. unfold counts_loop.
  rewrite (for_range_add (fun c => initial_count (model_counts c) s)
             (fun i' => if (i' =? s)%nat then gamma 0%nat s else 0)).
  - rewrite sum_upto_indicator. reflexivity.
  - intros i' x _. cbv zeta.
    match goal with
    | |- initial_count (model_counts (for_range ?n ?body ?a)) s = _ =>
        assert (E : model_counts (for_range n body a) = model_counts a)
    end.
    { apply (for_range_inv (fun y => model_counts y = _)); [reflexivity|].
      intros t y _ Hy. destruct (nth_error sq t); exact Hy. }
    rewrite E. clear E.
    match goal with
    | |- initial_count (model_counts (for_range ?n ?body ?a)) s = _ =>
        assert (E : initial_count (model_counts (for_range n body a)) s
                    = initial_count (model_counts a) s)
    end.
    { apply (for_range_inv
               (fun y => initial_count (model_counts y) s = _)); [reflexivity|].
      intros j y _ Hy.
      apply (for_range_inv
               (fun z => initial_count (model_counts z) s = _)); [exact Hy|].
      intros t z _ Hz. exact Hz. }
    rewrite E. clear E.
    cbn [model_counts with_model_counts increment_initial initial_count].
    destruct (Nat.eqb_spec s i') as [->|Hne].
    + rewrite Nat.eqb_refl. reflexivity.
    + destruct (Nat.eqb_spec i' s); [congruence | lra].
Qed.

Lemma accumulate_cc_num_states (counts : expected_counts D) :
  cc_num_states (model_counts (accumulate_sequence h counts sq))
  = cc_num_states (model_counts counts).
Proof.
  rewrite accumulate_model_counts. unfold counts_loop.
  apply (for_range_inv (fun x => cc_num_states (model_counts x) = _));
    [reflexivity|].
  intros i x _ Hx. cbv zeta.
  apply for_range_inv.
  - apply for_range_inv; [exact Hx|].
    intros j y _ Hy. apply for_range_inv; [exact Hy|].
    intros t z _ Hz. exact Hz.
  - intros t y _ Hy. destruct (nth_error sq t); exact Hy.
Qed.

End ExpectationStep.

(** * The likelihood of a sequence *)

Lemma sum_list_app (l1 l2 : list R) :
  sum_list (l1 ++ l2) = sum_list l1 + sum_list l2.
Proof.
  induction l1 as [|x l1 IH]; simpl.
  - lra.
  - rewrite IH. lra.
Qed.

Lemma sum_list_seq (n : nat) (f : nat -> R) :
  sum_list (map f (seq 0 n)) = sum_upto n f.
Proof.
  induction n as [|n IH].
  - reflexivity.
  - rewrite seq_S, map_app, sum_list_app, IH, sum_upto_S. simpl. lra.
Qed.

Lemma sum_list_flat_map {A B : Type} (f : B -> R) (g : A -> list B)
    (l : list A) :
  sum_list (map f (flat_map g l))
  = sum_list (map (fun x => sum_list (map f (g x))) l).
Proof.
  induction l as [|x l IH]; simpl.
  - reflexivity.
  - rewrite map_app, sum_list_app, IH. reflexivity.
Qed.

Lemma sum_list_map_ext {A : Type} (f g : A -> R) (l : list A) :
  (forall x, In x l -> f x = g x) ->
  sum_list (map f l) = sum_list (map g l).
Proof.
  induction l as [|x l IH]; intros H; simpl.
  - reflexivity.
  - rewrite H, IH by (try (left; reflexivity); intros; apply H; right; assumption).
    reflexivity.
Qed.

Lemma sum_list_map_scal_r {A : Type} (f : A -> R) (c : R) (l : list A) :
  sum_list (map (fun x => f x * c) l) = sum_list (map f l) * c.
Proof.
  induction l as [|x l IH]; simpl.
  - lra.
  - rewrite IH. lra.
Qed.

Lemma state_paths_length (K T : nat) (p : list state_id) :
  In p (state_paths K T) -> length p = T.
Proof.
  revert p. induction T as [|T IH]; intros p Hp; simpl in Hp.
  - destruct Hp as [<-|[]]. reflexivity.
  - apply in_flat_map in Hp. destruct Hp as (s & _ & Hp).
    apply in_map_iff in Hp. destruct Hp as (q & <- & Hq).
    simpl. rewrite (IH q Hq). reflexivity.
Qed.

Section Likelihood.

Context {D : Type} `{OD : ObsDist D}.
Variable h : hidden_markov_model D.
Variable b : dense_matrix.

Let K := num_states h.

(** The paths that end in state [s] at time [t] carry alpha(t, s). *)
Lemma paths_ending_in (t : nat) (s : state_id) :
  sum_list (map (fun p => path_probability h b (s :: p)) (state_paths K t))
  = alpha h b t s.
Proof.
  revert s. induction t as [|t IH]; intros s.
  - simpl. lra.
  - cbn [state_paths]. rewrite sum_list_flat_map, sum_list_seq.
    cbn [alpha]. fold K. rewrite <- sum_upto_scal_r.
    apply sum_upto_ext. intros j _.
    rewrite map_map, <- IH, <- !sum_list_map_scal_r.
    apply sum_list_map_ext. intros p Hp.
    cbn [path_probability length].
    rewrite (state_paths_length K t p Hp). lra.
Qed.

(** The sum over all paths of length [t + 1] is the sum of alpha(t, .). *)
Lemma paths_total (t : nat) :
  sum_list (map (path_probability h b) (state_paths K (S t)))
  = sum_upto K (alpha h b t).
Proof.
  cbn [state_paths]. rewrite sum_list_flat_map, sum_list_seq.
  apply sum_upto_ext. intros s _. rewrite map_map. apply paths_ending_in.
Qed.

Hypothesis init_nonneg : forall s, (s < K)%nat -> 0 <= init_prob h s.
Hypothesis trans_nonneg :
  forall i j, (i < K)%nat -> (j < K)%nat -> 0 <= trans_prob h i j.

Variable T : nat.
Hypothesis b_nonneg : forall t s, (t < T)%nat -> (s < K)%nat -> 0 <= b t s.

Lemma alpha_nonneg (t : nat) (s : state_id) :
  (t < T)%nat -> (s < K)%nat -> 0 <= alpha h b t s.
Proof.
  revert s. induction t as [|t IH]; intros s Ht Hs; cbn [alpha].
  - apply Rmult_le_pos; [apply init_nonneg | apply b_nonneg]; assumption.
  - apply Rmult_le_pos; [|apply b_nonneg; assumption].
    apply sum_upto_nonneg. intros j Hj.
    apply Rmult_le_pos; [apply IH; [lia | exact Hj] | apply trans_nonneg; assumption].
Qed.

(** Once the total mass is zero it stays zero. *)
Lemma alpha_total_zero (t n : nat) :
  (t + n < T)%nat -> sum_upto K (alpha h b t) = 0 ->
  sum_upto K (alpha h b (t + n)) = 0.
Proof.
  intros Ht H0. induction n as [|n IH].
  - rewrite Nat.add_0_r. exact H0.
  - replace (t + S n)%nat with (S (t + n)) by lia.
    assert (Hz : forall j, (j < K)%nat -> alpha h b (t + n) j = 0).
    { apply sum_upto_zero_inv; [|apply IH; lia].
      intros j Hj. apply alpha_nonneg; [lia | exact Hj]. }
    rewrite <- (sum_upto_zero K). apply sum_upto_ext. intros s Hs.
    cbn [alpha]. fold K.
    rewrite (sum_upto_ext K _ (fun _ => 0)).
    + rewrite sum_upto_zero. lra.
    + intros j Hj. rewrite Hz by exact Hj. lra.
Qed.

Lemma alpha_total_pos (t : nat) :
  (t < T)%nat -> 0 < sum_upto K (alpha h b (T - 1)) ->
  0 < sum_upto K (alpha h b t).
Proof.
  intros Ht Hpos.
  assert (Hge : 0 <= sum_upto K (alpha h b t)).
  { apply sum_upto_nonneg. intros s Hs. apply alpha_nonneg; assumption. }
  destruct (Req_dec (sum_upto K (alpha h b t)) 0) as [Hz|Hnz]; [|lra].
  pose proof (alpha_total_zero t (T - 1 - t)) as Hprop.
  replace (t + (T - 1 - t))%nat with (T - 1)%nat in Hprop by lia.
  rewrite Hprop in Hpos; [lra | lia | exact Hz].
Qed.

Variable fwd : forward_trellis.
Hypothesis fwd_columns : forall t, (t < T)%nat -> forward_column h b fwd t.

(** The scaled cell times the scale factors so far is the unscaled value,
    as long as the earlier scale factors are not zero. *)
Lemma scaled_alpha (t : nat) :
  (t < T)%nat ->
  (forall u, (u <= t)%nat -> normalizer fwd u <> 0) ->
  forall s, (s < K)%nat ->
    ft_probability fwd t s * prod_upto (S t) (normalizer fwd) = alpha h b t s.
Proof.
  induction t as [|t IH]; intros Ht Hnz s Hs.
  - destruct (fwd_columns 0%nat Ht) as [_ Hc].
    rewrite Hc by exact Hs. cbn [prod_upto forward_raw alpha].
    field. apply Hnz. lia.
  - destruct (fwd_columns (S t) Ht) as [_ Hc].
    rewrite Hc by exact Hs. cbn [forward_raw alpha]. fold K.
    change (prod_upto (S (S t)) (normalizer fwd))
      with (prod_upto (S t) (normalizer fwd) * normalizer fwd (S t)).
    rewrite (sum_upto_ext K (fun j => alpha h b t j * trans_prob h j s)
               (fun j => prod_upto (S t) (normalizer fwd)
                         * (ft_probability fwd t j * trans_prob h j s))).
    + rewrite sum_upto_scal_l. field. apply Hnz. lia.
    + intros j Hj. rewrite <- IH by (try assumption; try lia; intros; apply Hnz; lia).
      lra.
Qed.

(** The scale factor of column [t] times the earlier ones is the total
    unscaled mass of column [t]. *)
Lemma scale_product (t : nat) :
  (t < T)%nat ->
  (forall u, (u < t)%nat -> normalizer fwd u <> 0) ->
  prod_upto (S t) (normalizer fwd) = sum_upto K (alpha h b t).
Proof.
  intros Ht Hnz. destruct (fwd_columns t Ht) as [Hn _].
  cbn [prod_upto]. rewrite Hn. fold K. rewrite <- sum_upto_scal_l.
  apply sum_upto_ext. intros s Hs.
  destruct t as [|t].
  - cbn [prod_upto forward_raw alpha]. lra.
  - cbn [forward_raw alpha]. fold K.
    rewrite (sum_upto_ext K (fun j => alpha h b t j * trans_prob h j s)
               (fun j => prod_upto (S t) (normalizer fwd)
                         * (ft_probability fwd t j * trans_prob h j s))).
    + rewrite sum_upto_scal_l. lra.
    + intros j Hj. rewrite <- scaled_alpha by (try assumption; try lia; intros; apply Hnz; lia).
      lra.
Qed.

Hypothesis likelihood_pos : 0 < sum_upto K (alpha h b (T - 1)).

Lemma normalizer_pos (t : nat) :
  (t < T)%nat -> 0 < normalizer fwd t.
Proof.
  induction t as [t IH] using lt_wf_ind. intros Ht.
  assert (Hprev : forall u, (u < t)%nat -> normalizer fwd u <> 0).
  { intros u Hu. assert (0 < normalizer fwd u) by (apply IH; lia). lra. }
  pose proof (scale_product t Ht Hprev) as Hp.
  pose proof (alpha_total_pos t Ht likelihood_pos) as Hpos.
  rewrite <- Hp in Hpos. cbn [prod_upto] in Hpos.
  assert (Hpp : 0 < prod_upto t (normalizer fwd)).
  { clear Hp Hpos Hprev. induction t as [|t IHt]; cbn [prod_upto]; [lra|].
    apply Rmult_lt_0_compat.
    - apply IHt; [intros; apply IH; lia | lia].
    - apply IH; lia. }
  destruct (Rle_or_lt (normalizer fwd t) 0) as [Hle|Hlt]; [|exact Hlt].
  exfalso.
  assert (prod_upto t (normalizer fwd) * normalizer fwd t <= 0); [|lra].
  rewrite <- (Rmult_0_r (prod_upto t (normalizer fwd))).
  apply Rmult_le_compat_l; lra.
Qed.

Lemma ln_prod_upto (n : nat) (f : nat -> R) :
  (forall u, (u < n)%nat -> 0 < f u) ->
  ln (prod_upto n f) = sum_upto n (fun u => ln (f u))
  /\ 0 < prod_upto n f.
Proof.
  induction n as [|n IH]; intros H.
  - cbn [prod_upto]. rewrite sum_upto_0, ln_1. split; lra.
  - destruct IH as [IH1 IH2]; [intros; apply H; lia|].
    assert (0 < f n) by (apply H; lia).
    cbn [prod_upto]. rewrite sum_upto_S, ln_mult, IH1 by assumption.
    split; [reflexivity|]. apply Rmult_lt_0_compat; assumption.
Qed.

(** The negated logarithms of the scale factors add up to the negated
    logarithm of the total unscaled mass of the last column. *)
Lemma scale_factors_log (Tpos : (0 < T)%nat) :
  sum_upto T (fun t => - ln (normalizer fwd t))
  = - ln (sum_upto K (alpha h b (T - 1))).
Proof.
  rewrite <- (scale_product (T - 1)); [|lia|].
  - replace (S (T - 1)) with T by lia.
    destruct (ln_prod_upto T (normalizer fwd)) as [Hln _].
    { intros u Hu. apply normalizer_pos. exact Hu. }
    rewrite Hln.
    rewrite (sum_upto_ext T (fun t => - ln (normalizer fwd t))
               (fun t => -1 * ln (normalizer fwd t))) by (intros; lra).
    rewrite sum_upto_scal_l. lra.
  - intros u Hu. assert (0 < normalizer fwd u) by (apply normalizer_pos; lia). lra.
Qed.

End Likelihood.

(** * The scenario with the sequence [A; B; A] *)

Lemma scenario3_outputs :
  Scenario.b3 0%nat 0%nat = 0.8 /\ Scenario.b3 0%nat 1%nat = 0.2
  /\ Scenario.b3 1%nat 0%nat = 0.2 /\ Scenario.b3 1%nat 1%nat = 0.8
  /\ Scenario.b3 2%nat 0%nat = 0.8 /\ Scenario.b3 2%nat 1%nat = 0.2.
Proof. repeat split; reflexivity. Qed.

Lemma scenario3_forward :
  (normalizer Scenario.fwd3 0 = 0.5 /\ ft_probability Scenario.fwd3 0 0 = 0.8
   /\ ft_probability Scenario.fwd3 0 1 = 0.2)
  /\ (normalizer Scenario.fwd3 1 = 0.5 /\ ft_probability Scenario.fwd3 1 0 = 0.2
      /\ ft_probability Scenario.fwd3 1 1 = 0.8)
  /\ (normalizer Scenario.fwd3 2 = 0.5 /\ ft_probability Scenario.fwd3 2 0 = 0.8
      /\ ft_probability Scenario.fwd3 2 1 = 0.2).
Proof.
  destruct scenario3_outputs as (O00 & O01 & O10 & O11 & O20 & O21).
  destruct (forward_columns Scenario.hmm Scenario.b3 Scenario.ABA)
    as (_ & _ & Hcol).
  fold Scenario.fwd3 in Hcol.
  destruct (Hcol 0%nat ltac:(cbv; lia)) as [N0 C0].
  pose proof (C0 0%nat ltac:(cbv; lia)) as F00.
  pose proof (C0 1%nat ltac:(cbv; lia)) as F01.
  unroll_sums_in N0. unroll_sums_in F00. unroll_sums_in F01.
  rewrite O00, O01 in N0. rewrite N0, ?O00, ?O01 in F00, F01.
  assert (N0' : normalizer Scenario.fwd3 0 = 0.5) by lra.
  assert (F00' : ft_probability Scenario.fwd3 0 0 = 0.8) by lra.
  assert (F01' : ft_probability Scenario.fwd3 0 1 = 0.2) by lra.
  clear N0 C0 F00 F01.
  destruct (Hcol 1%nat ltac:(cbv; lia)) as [N1 C1].
  pose proof (C1 0%nat ltac:(cbv; lia)) as F10.
  pose proof (C1 1%nat ltac:(cbv; lia)) as F11.
  unroll_sums_in N1. unroll_sums_in F10. unroll_sums_in F11.
  rewrite F00', F01', O10, O11 in N1.
  rewrite N1, F00', F01', ?O10, ?O11 in F10, F11.
  assert (N1' : normalizer Scenario.fwd3 1 = 0.5) by lra.
  assert (F10' : ft_probability Scenario.fwd3 1 0 = 0.2) by lra.
  assert (F11' : ft_probability Scenario.fwd3 1 1 = 0.8) by lra.
  clear N1 C1 F10 F11.
  destruct (Hcol 2%nat ltac:(cbv; lia)) as [N2 C2].
  pose proof (C2 0%nat ltac:(cbv; lia)) as F20.
  pose proof (C2 1%nat ltac:(cbv; lia)) as F21.
  unroll_sums_in N2. unroll_sums_in F20. unroll_sums_in F21.
  rewrite F10', F11', O20, O21 in N2.
  rewrite N2, F10', F11', ?O20, ?O21 in F20, F21.
  repeat split; try assumption; lra.
Qed.

Lemma scenario3_backward :
  tr_probability Scenario.bwd3 2 0 = 1 /\ tr_probability Scenario.bwd3 2 1 = 1
  /\ tr_probability Scenario.bwd3 1 0 = 0.25
  /\ tr_probability Scenario.bwd3 1 1 = 0.25
  /\ tr_probability Scenario.bwd3 0 0 = 0.0625
  /\ tr_probability Scenario.bwd3 0 1 = 0.0625.
Proof.
  destruct scenario3_outputs as (O00 & O01 & O10 & O11 & O20 & O21).
  destruct scenario3_forward as (_ & (N1 & _) & (N2 & _)).
  destruct (backward_columns Scenario.hmm Scenario.b3 Scenario.fwd3 Scenario.ABA)
    as (Hlast & Hcol & _); [discriminate|].
  fold Scenario.bwd3 in Hlast, Hcol.
  pose proof (Hlast 0%nat ltac:(cbv; lia)) as G20.
  pose proof (Hlast 1%nat ltac:(cbv; lia)) as G21.
  change (length Scenario.ABA - 1)%nat with 2%nat in G20, G21.
  pose proof (Hcol 1%nat ltac:(cbv; lia) 0%nat ltac:(cbv; lia)) as G10.
  pose proof (Hcol 1%nat ltac:(cbv; lia) 1%nat ltac:(cbv; lia)) as G11.
  unroll_sums_in G10. unroll_sums_in G11.
  rewrite G20, G21, N2, O20, O21 in G10, G11.
  assert (G10' : tr_probability Scenario.bwd3 1 0 = 0.25) by lra.
  assert (G11' : tr_probability Scenario.bwd3 1 1 = 0.25) by lra.
  clear G10 G11.
  pose proof (Hcol 0%nat ltac:(cbv; lia) 0%nat ltac:(cbv; lia)) as G00.
  pose proof (Hcol 0%nat ltac:(cbv; lia) 1%nat ltac:(cbv; lia)) as G01.
  unroll_sums_in G00. unroll_sums_in G01.
  rewrite G10', G11', N1, O10, O11 in G00, G01.
  repeat split; try assumption; lra.
Qed.

Lemma scenario3_gamma :
  Scenario.gamma3 0%nat 0%nat = 0.8 /\ Scenario.gamma3 1%nat 0%nat = 0.2.
Proof.
  destruct scenario3_forward as ((_ & F00 & F01) & (_ & F10 & F11) & _).
  destruct scenario3_backward as (_ & _ & G10 & G11 & G00 & G01).
  unfold Scenario.gamma3.
  rewrite !posterior_state_membership_spec by (cbv; lia).
  cbv [sum_upto for_range seq fold_left num_states Scenario.hmm model_
       Scenario.chain mm_num_states].
  rewrite F00, F01, F10, F11, G00, G01, G10, G11.
  split; lra.
Qed.

Lemma scenario3_xi :
  xi_tij Scenario.hmm Scenario.gamma3 Scenario.b3 Scenario.fwd3 Scenario.bwd3
    0 0 0 = 0.16
  /\ xi_tij Scenario.hmm Scenario.gamma3 Scenario.b3 Scenario.fwd3 Scenario.bwd3
       1 0 0 = 0.16
  /\ xi_claimed Scenario.hmm Scenario.gamma3 Scenario.b3 Scenario.fwd3
       Scenario.bwd3 0 0 0 = 0.64
  /\ xi_claimed Scenario.hmm Scenario.gamma3 Scenario.b3 Scenario.fwd3
       Scenario.bwd3 1 0 0 = 0.16.
Proof.
  destruct scenario3_outputs as (_ & _ & O10 & _ & O20 & _).
  destruct scenario3_forward as (_ & (N1 & _) & (N2 & _)).
  destruct scenario3_backward as (G20 & _ & G10 & _ & G00 & _).
  destruct scenario3_gamma as (P00 & P10).
  unfold xi_tij, xi_claimed.
  cbv [trans_prob Scenario.hmm model_ Scenario.chain transition_probability
       Nat.add].
  rewrite O10, O20, N1, N2, G20, G10, G00, P00, P10.
  repeat split; lra.
Qed.

Lemma scenario_brute_force :
  brute_force_likelihood Scenario.hmm Scenario.AB = 0.25.
Proof.
  cbv [brute_force_likelihood state_paths path_probability sum_list flat_map
       map app fold_right Scenario.hmm Scenario.AB Scenario.A Scenario.B
       Scenario.emissions Scenario.chain
       output_probabilities
       for_range for_from sum_upto fold_left seq length nth_error
       num_states trans_prob init_prob obs_dist_ model_ mm_num_states
       initial_probability transition_probability
       probability categorical_ObsDist cat_prob cat_states cat_symbols
       mset zero_matrix Nat.eqb andb Nat.sub Nat.add].
  lra.
Qed.

(** * Bounds on the logarithm of 2 *)

Lemma exp_square_lower (a y z : R) :
  0 < y -> y < exp a -> z <= y * y -> z < exp (a + a).
Proof.
  intros Hy Hlt Hz. rewrite exp_plus.
  apply Rle_lt_trans with (y * y); [exact Hz|].
  apply Rmult_le_0_lt_compat; lra.
Qed.
(** [exp 0.6932] exceeds 2: thirteen squarings of [1 + 0.6932 / 8192], rounded
    down. *)
Lemma ln_2_upper : ln 2 < 0.6932.
Proof.
  assert (H0 : 1.00008461914062 < exp (0.000084619140625))
    by (pose proof (exp_ineq1 (0.000084619140625)); lra).
  assert (H1 : 1.00016924544163 < exp (0.00016923828125)).
  { replace (0.00016923828125) with (0.000084619140625 + (0.000084619140625)) by lra.
    apply (exp_square_lower _ 1.00008461914062); [lra | exact H0 | lra]. }
  assert (H2 : 1.00033851952727 < exp (0.0003384765625)).
  { replace (0.0003384765625) with (0.00016923828125 + (0.00016923828125)) by lra.
    apply (exp_square_lower _ 1.00016924544163); [lra | exact H1 | lra]. }
  assert (H3 : 1.00067715365001 < exp (0.000676953125)).
  { replace (0.000676953125) with (0.0003384765625 + (0.0003384765625)) by lra.
    apply (exp_square_lower _ 1.00033851952727); [lra | exact H2 | lra]. }
  assert (H4 : 1.00135476583708 < exp (0.00135390625)).
  { replace (0.00135390625) with (0.000676953125 + (0.000676953125)) by lra.
    apply (exp_square_lower _ 1.00067715365001); [lra | exact H3 | lra]. }
  assert (H5 : 1.00271136706463 < exp (0.0027078125)).
  { replace (0.0027078125) with (0.00135390625 + (0.00135390625)) by lra.
    apply (exp_square_lower _ 1.00135476583708); [lra | exact H4 | lra]. }
  assert (H6 : 1.00543008564061 < exp (0.005415625)).
  { replace (0.005415625) with (0.0027078125 + (0.0027078125)) by lra.
    apply (exp_square_lower _ 1.00271136706463); [lra | exact H5 | lra]. }
  assert (H7 : 1.01088965711128 < exp (0.01083125)).
  { replace (0.01083125) with (0.005415625 + (0.005415625)) by lra.
    apply (exp_square_lower _ 1.00543008564061); [lra | exact H6 | lra]. }
  assert (H8 : 1.02189789885456 < exp (0.0216625)).
  { replace (0.0216625) with (0.01083125 + (0.01083125)) by lra.
    apply (exp_square_lower _ 1.01088965711128); [lra | exact H7 | lra]. }
  assert (H9 : 1.04427531568336 < exp (0.043325)).
  { replace (0.043325) with (0.0216625 + (0.0216625)) by lra.
    apply (exp_square_lower _ 1.02189789885456); [lra | exact H8 | lra]. }
  assert (H10 : 1.09051093494558 < exp (0.08665)).
  { replace (0.08665) with (0.043325 + (0.043325)) by lra.
    apply (exp_square_lower _ 1.04427531568336); [lra | exact H9 | lra]. }
  assert (H11 : 1.18921409923588 < exp (0.1733)).
  { replace (0.1733) with (0.08665 + (0.08665)) by lra.
    apply (exp_square_lower _ 1.09051093494558); [lra | exact H10 | lra]. }
  assert (H12 : 1.4142301738214 < exp (0.3466)).
  { replace (0.3466) with (0.1733 + (0.1733)) by lra.
    apply (exp_square_lower _ 1.18921409923588); [lra | exact H11 | lra]. }
  assert (H13 : 2.0000469845469 < exp (0.6932)).
  { replace (0.6932) with (0.3466 + (0.3466)) by lra.
    apply (exp_square_lower _ 1.4142301738214); [lra | exact H12 | lra]. }
  rewrite <- (ln_exp 0.6932). apply ln_increasing; lra.
Qed.

(** [exp (- 0.6931)] exceeds 1/2: thirteen squarings of [1 - 0.6931 / 8192],
    rounded down. *)
Lemma ln_2_lower : 0.6931 < ln 2.
Proof.
  assert (H0 : 0.9999153930664 < exp (- 0.00008460693359375))
    by (pose proof (exp_ineq1 (- 0.00008460693359375)); lra).
  assert (H1 : 0.99983079329113 < exp (- 0.0001692138671875)).
  { replace (- 0.0001692138671875) with (- 0.00008460693359375 + (- 0.00008460693359375)) by lra.
    apply (exp_square_lower _ 0.9999153930664); [lra | exact H0 | lra]. }
  assert (H2 : 0.99966161521317 < exp (- 0.000338427734375)).
  { replace (- 0.000338427734375) with (- 0.0001692138671875 + (- 0.0001692138671875)) by lra.
    apply (exp_square_lower _ 0.99983079329113); [lra | exact H1 | lra]. }
  assert (H3 : 0.9993233449306 < exp (- 0.00067685546875)).
  { replace (- 0.00067685546875) with (- 0.000338427734375 + (- 0.000338427734375)) by lra.
    apply (exp_square_lower _ 0.99966161521317); [lra | exact H2 | lra]. }
  assert (H4 : 0.99864714772328 < exp (- 0.0013537109375)).
  { replace (- 0.0013537109375) with (- 0.00067685546875 + (- 0.00067685546875)) by lra.
    apply (exp_square_lower _ 0.9993233449306); [lra | exact H3 | lra]. }
  assert (H5 : 0.99729612565584 < exp (- 0.002707421875)).
  { replace (- 0.002707421875) with (- 0.0013537109375 + (- 0.0013537109375)) by lra.
    apply (exp_square_lower _ 0.99864714772328); [lra | exact H4 | lra]. }
  assert (H6 : 0.99459956224814 < exp (- 0.00541484375)).
  { replace (- 0.00541484375) with (- 0.002707421875 + (- 0.002707421875)) by lra.
    apply (exp_square_lower _ 0.99729612565584); [lra | exact H5 | lra]. }
  assert (H7 : 0.98922828922419 < exp (- 0.0108296875)).
  { replace (- 0.0108296875) with (- 0.00541484375 + (- 0.00541484375)) by lra.
    apply (exp_square_lower _ 0.99459956224814); [lra | exact H6 | lra]. }
  assert (H8 : 0.97857260820141 < exp (- 0.021659375)).
  { replace (- 0.021659375) with (- 0.0108296875 + (- 0.0108296875)) by lra.
    apply (exp_square_lower _ 0.98922828922419); [lra | exact H7 | lra]. }
  assert (H9 : 0.95760434952211 < exp (- 0.04331875)).
  { replace (- 0.04331875) with (- 0.021659375 + (- 0.021659375)) by lra.
    apply (exp_square_lower _ 0.97857260820141); [lra | exact H8 | lra]. }
  assert (H10 : 0.91700609022366 < exp (- 0.0866375)).
  { replace (- 0.0866375) with (- 0.04331875 + (- 0.04331875)) by lra.
    apply (exp_square_lower _ 0.95760434952211); [lra | exact H9 | lra]. }
  assert (H11 : 0.84090016950728 < exp (- 0.173275)).
  { replace (- 0.173275) with (- 0.0866375 + (- 0.0866375)) by lra.
    apply (exp_square_lower _ 0.91700609022366); [lra | exact H10 | lra]. }
  assert (H12 : 0.70711309507737 < exp (- 0.34655)).
  { replace (- 0.34655) with (- 0.173275 + (- 0.173275)) by lra.
    apply (exp_square_lower _ 0.84090016950728); [lra | exact H11 | lra]. }
  assert (H13 : 0.50000892922989 < exp (- 0.6931)).
  { replace (- 0.6931) with (- 0.34655 + (- 0.34655)) by lra.
    apply (exp_square_lower _ 0.70711309507737); [lra | exact H12 | lra]. }
  rewrite <- (ln_exp 0.6931) at 1. apply ln_increasing; [apply exp_pos|].
  pose proof (exp_pos 0.6931) as Hpos.
  assert (Hinv : exp (- 0.6931) * exp 0.6931 = 1).
  { rewrite <- exp_plus. replace (- 0.6931 + 0.6931) with 0 by lra.
    apply exp_0. }
  assert (Hhalf : 0.5 * exp 0.6931 < exp (- 0.6931) * exp 0.6931)
    by (apply Rmult_lt_compat_r; lra).
  lra.
Qed.

Lemma two_ln_2_approx : 1.3862 < 2 * ln 2 < 1.3864.
Proof. pose proof ln_2_upper. pose proof ln_2_lower. lra. Qed.

(** * The forward-backward procedure: main results *)

Lemma for_from_ext {A : Type} (body body' : nat -> A -> A) (lo n : nat) (a : A) :
  (forall i x, body i x = body' i x) ->
  for_from lo n body a = for_from lo n body' a.
Proof.
  intros H. induction n as [|n IH].
  - reflexivity.
  - rewrite !for_from_S, IH. apply H.
Qed.

Lemma nonempty_length {A : Type} (l : list A) : l <> [] -> (0 < length l)%nat.
Proof. destruct l; [contradiction | simpl; lia]. Qed.

(** C4.  For a non-empty sequence the forward pass leaves in column 0 the
    values [initial(s) * b(0,s)] divided by their sum, which is the scale
    factor [c_0]; in every later column [t] it leaves the values
    [b(t,s) * sum_j f(t-1,j) * trans(j,s)] divided by their sum, which is
    [c_t].  The columns are filled left to right: a column does not depend
    on how many columns follow it. *)
Theorem forward_fills_columns {D : Type} `{OD : ObsDist D}
    (h : hidden_markov_model D) (sq : sequence_type) (b : dense_matrix) :
  sq <> [] ->
  let K := num_states h in
  let fwd := forward h sq b in
  normalizer fwd 0 = sum_upto K (fun s => init_prob h s * b 0%nat s)
  /\ (forall s, (s < K)%nat ->
        ft_probability fwd 0 s = init_prob h s * b 0%nat s / normalizer fwd 0)
  /\ (forall t, (1 <= t)%nat -> (t < length sq)%nat ->
        normalizer fwd t
        = sum_upto K
            (fun s => b t s * sum_upto K
                                (fun j => ft_probability fwd (t - 1) j
                                          * trans_prob h j s))
        /\ forall s, (s < K)%nat ->
             ft_probability fwd t s
             = b t s * sum_upto K
                         (fun j => ft_probability fwd (t - 1) j
                                   * trans_prob h j s)
               / normalizer fwd t)
  /\ (forall (longer : sequence_type) (t : nat),
        (length sq <= length longer)%nat -> (t < length sq)%nat ->
        normalizer (forward h longer b) t = normalizer fwd t
        /\ forall s, (s < K)%nat ->
             ft_probability (forward h longer b) t s = ft_probability fwd t s).
Proof.
  intros Hne K fwd.
  pose proof (nonempty_length sq Hne) as Hlen.
  destruct (forward_columns h b sq) as (_ & _ & Hcol). fold fwd in Hcol.
  repeat split.
  - destruct (Hcol 0%nat Hlen) as [Hn _]. exact Hn.
  - intros s Hs. destruct (Hcol 0%nat Hlen) as [_ Hc]. apply Hc, Hs.
  - destruct (Hcol t H0) as [Hn _]. rewrite Hn.
    apply sum_upto_ext. intros s _.
    destruct t as [|t]; [lia|]. cbn [forward_raw].
    replace (S t - 1)%nat with t by lia. fold K. lra.
  - intros s Hs. destruct (Hcol t H0) as [_ Hc]. rewrite Hc by exact Hs.
    destruct t as [|t]; [lia|]. cbn [forward_raw].
    replace (S t - 1)%nat with t by lia. fold K. lra.
  - destruct (forward_columns h b longer) as (_ & _ & Hcol').
    apply (forward_column_unique h b (forward h longer b) fwd (length sq - 1)).
    + intros u Hu. apply Hcol'. lia.
    + intros u Hu. apply Hcol. lia.
    + lia.
  - destruct (forward_columns h b longer) as (_ & _ & Hcol').
    apply (forward_column_unique h b (forward h longer b) fwd (length sq - 1)).
    + intros u Hu. apply Hcol'. lia.
    + intros u Hu. apply Hcol. lia.
    + lia.
Qed.

Lemma forward_fills_columns_witness :
  Scenario.AB <> []
  /\ normalizer Scenario.fwd 0
     = sum_upto 2 (fun s => init_prob Scenario.hmm s * Scenario.b 0%nat s).
Proof.
  assert (Hne : Scenario.AB <> []) by discriminate.
  split; [exact Hne|].
  exact (proj1 (forward_fills_columns Scenario.hmm Scenario.AB Scenario.b Hne)).
Defined.

(** C5.  For a non-empty sequence of length [T] the backward pass leaves 1
    in every cell of column [T-1] and, in every earlier column [t], the value
    [c_{t+1} * sum_j g(t+1,j) * trans(s,j) * b(t+1,j)], where [c_{t+1}] is the
    scale factor of the forward trellis.  Of the forward trellis only the
    scale factors are read. *)
Theorem backward_fills_columns {D : Type} `{OD : ObsDist D}
    (h : hidden_markov_model D) (sq : sequence_type) (fwd : forward_trellis)
    (b : dense_matrix) :
  sq <> [] ->
  let K := num_states h in
  let bwd := backward h sq fwd b in
  (forall s, (s < K)%nat -> tr_probability bwd (length sq - 1) s = 1)
  /\ (forall t s, (t + 1 < length sq)%nat -> (s < K)%nat ->
        tr_probability bwd t s
        = normalizer fwd (t + 1)
          * sum_upto K
              (fun j => tr_probability bwd (t + 1) j * trans_prob h s j
                        * b (t + 1)%nat j))
  /\ (forall fwd' : forward_trellis,
        (forall t, normalizer fwd' t = normalizer fwd t) ->
        backward h sq fwd' b = bwd).
Proof.
  intros Hne K bwd.
  destruct (backward_columns h b fwd sq Hne) as (Hlast & Hcol & _).
  split; [exact Hlast|]. split.
  - intros t s Ht Hs. apply (Hcol t Ht s Hs).
  - intros fwd' Hn. unfold bwd, backward.
    apply for_from_ext. intros k x. apply for_range_ext. intros i y _.
    cbv zeta. rewrite Hn. reflexivity.
Qed.

Lemma backward_fills_columns_witness :
  Scenario.AB <> [] /\ tr_probability Scenario.bwd 1 0 = 1.
Proof.
  assert (Hne : Scenario.AB <> []) by discriminate.
  split; [exact Hne|].
  apply (proj1 (backward_fills_columns Scenario.hmm Scenario.AB Scenario.fwd
                  Scenario.b Hne)).
  cbv. lia.
Defined.

(** C3.  The two-state scenario with the sequence [A; B]: the forward
    columns normalize to [0.8, 0.2] and [0.2, 0.8] with scale factor 0.5
    each, the accumulated log likelihood is [2 * ln 2], which lies between
    1.3862 and 1.3864, the backward column 0 is [0.25, 0.25] and the
    posteriors are [0.8, 0.2] and [0.2, 0.8]. *)
Theorem scenario_trellis_values :
  (ft_probability Scenario.fwd 0 0 = 0.8 /\ ft_probability Scenario.fwd 0 1 = 0.2
   /\ normalizer Scenario.fwd 0 = 0.5)
  /\ (ft_probability Scenario.fwd 1 0 = 0.2 /\ ft_probability Scenario.fwd 1 1 = 0.8
      /\ normalizer Scenario.fwd 1 = 0.5)
  /\ log_likelihood
       (accumulate_sequence Scenario.hmm
          (new_expected_counts Scenario.emissions Scenario.chain) Scenario.AB)
     = 2 * ln 2
  /\ 1.3862
     < log_likelihood
         (accumulate_sequence Scenario.hmm
            (new_expected_counts Scenario.emissions Scenario.chain) Scenario.AB)
     < 1.3864
  /\ (tr_probability Scenario.bwd 0 0 = 0.25
      /\ tr_probability Scenario.bwd 0 1 = 0.25)
  /\ (Scenario.gamma 0%nat 0%nat = 0.8 /\ Scenario.gamma 0%nat 1%nat = 0.2)
  /\ (Scenario.gamma 1%nat 0%nat = 0.2 /\ Scenario.gamma 1%nat 1%nat = 0.8).
Proof.
  destruct scenario_forward as (F00 & F01 & N0 & F10 & F11 & N1).
  destruct scenario_backward as (B00 & B01).
  destruct scenario_gamma as (P00 & P01 & P10 & P11).
  assert (L : log_likelihood
                (accumulate_sequence Scenario.hmm
                   (new_expected_counts Scenario.emissions Scenario.chain)
                   Scenario.AB) = 2 * ln 2).
  { rewrite accumulate_log_likelihood, scenario_log_likelihood.
    cbn [log_likelihood new_expected_counts]. lra. }
  pose proof two_ln_2_approx as Happrox. rewrite <- L in Happrox.
  repeat split; try assumption; apply Happrox.
Qed.

(** The scale factors of a sequence of positive probability are positive,
    their product is the brute-force probability, and their negated
    logarithms add up to its negated logarithm. *)
Lemma scale_factors_brute_force {D : Type} `{OD : ObsDist D}
    (h : hidden_markov_model D) (sq : sequence_type) :
  sq <> [] ->
  (forall s, (s < num_states h)%nat -> 0 <= init_prob h s) ->
  (forall i j, (i < num_states h)%nat -> (j < num_states h)%nat ->
               0 <= trans_prob h i j) ->
  (forall o s, In o sq -> (s < num_states h)%nat ->
               0 <= probability (obs_dist_ h) o s) ->
  0 < brute_force_likelihood h sq ->
  let fwd := forward h sq (output_probabilities h sq) in
  (forall t, (t < length sq)%nat -> 0 < normalizer fwd t)
  /\ prod_upto (length sq) (normalizer fwd) = brute_force_likelihood h sq
  /\ sum_upto (length sq) (fun t => - ln (normalizer fwd t))
     = - ln (brute_force_likelihood h sq).
Proof.
  intros Hne Hinit Htrans Hobs Hpos fwd.
  pose proof (nonempty_length sq Hne) as Hlen.
  set (b := output_probabilities h sq) in *.
  assert (Hb : forall t s, (t < length sq)%nat -> (s < num_states h)%nat ->
                 0 <= b t s).
  { intros t s Ht Hs.
    destruct (nth_error sq t) as [o|] eqn:Ho.
    - unfold b. rewrite (output_probabilities_spec h sq t s o Ho Hs).
      apply Hobs; [|exact Hs]. eapply nth_error_In. exact Ho.
    - apply nth_error_None in Ho. lia. }
  assert (Hcol : forall t, (t < length sq)%nat -> forward_column h b fwd t).
  { intros t Ht. destruct (forward_columns h b sq) as (_ & _ & Hcol).
    apply Hcol. exact Ht. }
  assert (Hbrute : brute_force_likelihood h sq
                   = sum_upto (num_states h) (alpha h b (length sq - 1))).
  { unfold brute_force_likelihood. fold b.
    replace (length sq) with (S (length sq - 1)) at 1 by lia.
    apply paths_total. }
  rewrite Hbrute in *.
  assert (Hn : forall t, (t < length sq)%nat -> 0 < normalizer fwd t).
  { intros t Ht.
    apply (normalizer_pos h b Hinit Htrans (length sq) Hb fwd Hcol Hpos).
    exact Ht. }
  split; [exact Hn|]. split.
  - replace (length sq) with (S (length sq - 1)) at 1 by lia.
    apply (scale_product h b (length sq) fwd Hcol); [lia|].
    intros u Hu. assert (0 < normalizer fwd u) by (apply Hn; lia). lra.
  - apply (scale_factors_log h b Hinit Htrans (length sq)); assumption.
Qed.

(** ** The log likelihood of a sequence under the recorded scale factors *)

(** [forward] is the parametric forward pass at the normalization of
    section 4.1. *)
Lemma forward_is_forward_with {D : Type} `{OD : ObsDist D}
    (h : hidden_markov_model D) (sq : sequence_type) (b : dense_matrix) :
  forward h sq b = forward_with normalize h sq b.
Proof. reflexivity. Qed.

Lemma normalize_reciprocal_records : records_reciprocal normalize_reciprocal.
Proof.
  intros fwd idx labels sum.
  assert (Hg : reads_unwritten idx (fun m s => m idx s / sum)).
  { intros m1 m2 i H. rewrite H by (right; lia). reflexivity. }
  destruct (tr_row_loop idx labels (fun m s => m idx s / sum)
              (ft_trellis fwd) Hg) as (Hc & Hl & Hs).
  repeat split.
  - intros r c. unfold ft_probability, normalize_reciprocal. cbn [ft_trellis].
    fold labels. fold sum. apply Hc.
  - unfold normalize_reciprocal. cbn [ft_trellis]. exact Hl.
  - unfold ft_size, normalize_reciprocal. cbn [ft_trellis]. exact Hs.
Qed.

Section ForwardWithFacts.

Context {D : Type} `{OD : ObsDist D}.
Variable trellis_normalize : forward_trellis -> nat -> forward_trellis.
Hypothesis reciprocal : records_reciprocal trellis_normalize.
Variable h : hidden_markov_model D.
Variable b : dense_matrix.

(** Column [t] of [fwd] holds the raw values divided by their sum, and the
    reciprocal of that sum as its scale factor. *)
Let reciprocal_column (fwd : forward_trellis) (t : nat) : Prop :=
  normalizer fwd t = 1 / sum_upto (num_states h) (forward_raw h b fwd t)
  /\ forall s, (s < num_states h)%nat ->
       ft_probability fwd t s
       = forward_raw h b fwd t s
         / sum_upto (num_states h) (forward_raw h b fwd t).

Lemma reciprocal_column_ext (fwd fwd' : forward_trellis) (t : nat) :
  (forall t' j, (t' <= t)%nat ->
     ft_probability fwd t' j = ft_probability fwd' t' j) ->
  normalizer fwd t = normalizer fwd' t ->
  reciprocal_column fwd t -> reciprocal_column fwd' t.
Proof.
  intros Hc Hn [H1 H2].
  assert (Hraw : forall s, forward_raw h b fwd t s = forward_raw h b fwd' t s).
  { intros s. apply forward_raw_ext. intros. apply Hc. lia. }
  assert (Hsum : sum_upto (num_states h) (forward_raw h b fwd t)
                 = sum_upto (num_states h) (forward_raw h b fwd' t)).
  { apply sum_upto_ext. intros s _. apply Hraw. }
  split.
  - rewrite <- Hn, H1, Hsum. reflexivity.
  - intros s Hs. rewrite <- Hc, H2, Hsum, Hraw by (try assumption; lia).
    reflexivity.
Qed.

(** One pass of the column loop under the contract. *)
Lemma forward_with_step (fwd : forward_trellis) (t : nat)
    (raw : dense_matrix -> nat -> R) :
  reads_unwritten t raw ->
  tr_labels (ft_trellis fwd) = num_states h ->
  let fwd' :=
    trellis_normalize
      (for_range (num_states h)
         (fun i fwd' => ft_set fwd' t i (raw (tr_cells (ft_trellis fwd')) i)) fwd)
      t in
  let cells := tr_cells (ft_trellis fwd) in
  (forall r c, r <> t -> ft_probability fwd' r c = ft_probability fwd r c)
  /\ (forall r, r <> t -> normalizer fwd' r = normalizer fwd r)
  /\ normalizer fwd' t = 1 / sum_upto (num_states h) (raw cells)
  /\ (forall s, (s < num_states h)%nat ->
        ft_probability fwd' t s
        = raw cells s / sum_upto (num_states h) (raw cells))
  /\ tr_labels (ft_trellis fwd') = num_states h
  /\ ft_size fwd' = ft_size fwd.
Proof.
  intros Hraw Hlab fwd' cells.
  destruct (ft_row_loop t (num_states h) raw fwd Hraw) as (Hc & Hn & Hl & Hs).
  set (mid := for_range (num_states h) _ fwd) in *.
  destruct (reciprocal mid t) as (Nc & Nn & Nl & Ns).
  rewrite Hl, Hlab in Nc, Nn, Nl.
  assert (Hsum : sum_upto (num_states h) (fun s => ft_probability mid t s)
                 = sum_upto (num_states h) (raw cells)).
  { apply sum_upto_ext. intros s Hs'. rewrite Hc, Nat.eqb_refl.
    destruct (Nat.ltb_spec s (num_states h)); [reflexivity | lia]. }
  repeat split.
  - intros r c Hr. unfold fwd'. rewrite Nc.
    destruct (Nat.eqb_spec r t); [contradiction|]. simpl. rewrite Hc.
    destruct (Nat.eqb_spec r t); [contradiction | reflexivity].
  - intros r Hr. unfold fwd'. rewrite Nn.
    destruct (Nat.eqb_spec r t); [contradiction | apply Hn].
  - unfold fwd'. rewrite Nn, Nat.eqb_refl, Hsum. reflexivity.
  - intros s Hs'. unfold fwd'. rewrite Nc, !Nat.eqb_refl, Hsum.
    destruct (Nat.ltb_spec s (num_states h)); [|lia]. simpl.
    rewrite Hc, Nat.eqb_refl.
    destruct (Nat.ltb_spec s (num_states h)); [reflexivity | lia].
  - exact Nl.
  - unfold fwd'. rewrite Ns. exact Hs.
Qed.

Lemma forward_with_loop_inv (size n : nat) :
  let fwd :=
    for_from 1 n
      (fun t fwd =>
         trellis_normalize
           (for_range (num_states h)
              (fun i fwd =>
                 ft_set fwd t i
                   (sum_upto (num_states h)
                      (fun j => ft_probability fwd (t - 1) j * trans_prob h j i)
                    * b t i))
              fwd) t)
      (trellis_normalize
         (for_range (num_states h)
            (fun l fwd => ft_set fwd 0 l (init_prob h l * b 0%nat l))
            (new_forward_trellis size (num_states h)))
         0) in
  tr_labels (ft_trellis fwd) = num_states h
  /\ ft_size fwd = size
  /\ forall t, (t <= n)%nat -> reciprocal_column fwd t.
Proof.
  induction n as [|n IH].
  - cbn zeta. unfold for_from. cbn [seq fold_left].
    destruct (forward_with_step (new_forward_trellis size (num_states h)) 0
                (fun _ l => init_prob h l * b 0%nat l))
      as (_ & _ & Hn & Hc & Hl & Hs); [intros ? ? ? ?; reflexivity | reflexivity |].
    split; [exact Hl|]. split; [exact Hs|].
    intros t Ht. replace t with 0%nat by lia. split; [exact Hn | exact Hc].
  - cbn zeta. rewrite for_from_S. cbn zeta in IH.
    set (prev := for_from 1 n _ _) in *.
    destruct IH as (Hlab & Hsize & Hcols).
    replace (1 + n)%nat with (S n) by lia.
    assert (Hraw : reads_unwritten (S n)
              (fun m i => sum_upto (num_states h)
                            (fun j => m (S n - 1)%nat j * trans_prob h j i)
                          * b (S n) i)).
    { intros m1 m2 i H. f_equal. apply sum_upto_ext. intros j _.
      rewrite H by (left; lia). reflexivity. }
    match goal with
    | |- context [trellis_normalize ?x ?t] => set (cur := trellis_normalize x t)
    end.
    pose proof (forward_with_step prev (S n) _ Hraw Hlab) as Hstep.
    cbv zeta in Hstep. change (trellis_normalize _ _) with cur in Hstep.
    destruct Hstep as (Hc & Hn & Hnt & Hct & Hl & Hs).
    split; [exact Hl|]. split; [rewrite <- Hsize; exact Hs|].
    assert (Hrawcur : forall s,
              sum_upto (num_states h)
                (fun j => tr_cells (ft_trellis prev) (S n - 1)%nat j
                          * trans_prob h j s) * b (S n) s
              = forward_raw h b cur (S n) s).
    { intros s. simpl. replace (n - 0)%nat with n by lia.
      f_equal. apply sum_upto_ext. intros j _.
      rewrite Hc by lia. reflexivity. }
    assert (Hsumcur :
              sum_upto (num_states h)
                (fun s => sum_upto (num_states h)
                            (fun j => tr_cells (ft_trellis prev) (S n - 1)%nat j
                                      * trans_prob h j s) * b (S n) s)
              = sum_upto (num_states h) (forward_raw h b cur (S n))).
    { apply sum_upto_ext. intros s _. apply Hrawcur. }
    intros t Ht. destruct (Nat.eq_dec t (S n)) as [->|Hne].
    + split.
      * etransitivity; [exact Hnt|]. rewrite Hsumcur. reflexivity.
      * intros s Hs'. etransitivity; [apply Hct; exact Hs'|].
        rewrite Hsumcur, Hrawcur. reflexivity.
    + apply (reciprocal_column_ext prev).
      * intros t' j Ht'. symmetry. apply Hc. lia.
      * symmetry. apply Hn. lia.
      * apply Hcols. lia.
Qed.

(** The parametric forward pass and [forward] fill the same cells; the
    scale factors the one records are the reciprocals of the other's. *)
Lemma forward_with_reciprocal (sq : sequence_type) (t : nat) :
  (t < length sq)%nat ->
  normalizer (forward_with trellis_normalize h sq b) t
  = 1 / normalizer (forward h sq b) t
  /\ forall s, (s < num_states h)%nat ->
       ft_probability (forward_with trellis_normalize h sq b) t s
       = ft_probability (forward h sq b) t s.
Proof.
  destruct (forward_with_loop_inv (length sq) (length sq - 1))
    as (_ & _ & Hrec).
  destruct (forward_columns h b sq) as (_ & _ & Hcol).
  change (for_from 1 (length sq - 1) _ _)
    with (forward_with trellis_normalize h sq b) in Hrec.
  set (fwdN := forward_with trellis_normalize h sq b) in *.
  set (fwd := forward h sq b) in *.
  induction t as [t IH] using lt_wf_ind. intros Ht.
  destruct (Hrec t ltac:(lia)) as [Hn Hc], (Hcol t Ht) as [Hn' Hc'].
  assert (Eraw : forall s, forward_raw h b fwdN t s = forward_raw h b fwd t s).
  { intros s. destruct t as [|t]; [reflexivity|]. simpl.
    f_equal. apply sum_upto_ext. intros j Hj.
    destruct (IH t ltac:(lia) ltac:(lia)) as [_ E]. rewrite E by exact Hj.
    reflexivity. }
  assert (Esum : sum_upto (num_states h) (forward_raw h b fwdN t)
                 = normalizer fwd t).
  { rewrite Hn'. apply sum_upto_ext. intros s _. apply Eraw. }
  split.
  - rewrite Hn, Esum. reflexivity.
  - intros s Hs. rewrite Hc, Hc', Esum, Eraw by exact Hs. reflexivity.
Qed.

End ForwardWithFacts.

Lemma prod_upto_reciprocal (n : nat) (f g : nat -> R) :
  (forall t, (t < n)%nat -> g t = 1 / f t) ->
  prod_upto n g = / prod_upto n f.
Proof.
  induction n as [|n IH]; intros H.
  - cbn [prod_upto]. rewrite Rinv_1. reflexivity.
  - cbn [prod_upto]. rewrite IH, H, Rinv_mult by (try lia; intros; apply H; lia).
    unfold Rdiv. ring.
Qed.



(** C2 as the specification words it leaves out the backward value
    [g(t+1,j)].  On the two-state scenario with the sequence [A; B; A] the
    value added for [(t,i,j) = (0,0,0)] is 0.16, the worded formula gives
    0.64, and the transition count of [(0,0)] ends at 0.32, not at 0.8. *)
Lemma xi_claimed_differs :
  xi_tij Scenario.hmm Scenario.gamma3 Scenario.b3 Scenario.fwd3 Scenario.bwd3
    0 0 0
  <> xi_claimed Scenario.hmm Scenario.gamma3 Scenario.b3 Scenario.fwd3
       Scenario.bwd3 0 0 0
  /\ trans_count
       (model_counts
          (accumulate_sequence Scenario.hmm
             (new_expected_counts Scenario.emissions Scenario.chain)
             Scenario.ABA)) 0 0
     <> trans_count
          (model_counts (new_expected_counts Scenario.emissions Scenario.chain))
          0 0
        + sum_upto (length Scenario.ABA - 1)
            (fun t => xi_claimed Scenario.hmm Scenario.gamma3 Scenario.b3
                        Scenario.fwd3 Scenario.bwd3 t 0 0).
Proof.
  destruct scenario3_xi as (X0 & X1 & C0 & C1).
  split.
  - rewrite X0, C0. lra.
  - rewrite accumulate_trans_count.
    fold Scenario.b3. fold Scenario.fwd3. fold Scenario.bwd3.
    fold Scenario.gamma3.
    change (num_states Scenario.hmm) with 2%nat.
    change (length Scenario.ABA - 1)%nat with 2%nat.
    cbv [sum_upto for_range seq fold_left Nat.ltb Nat.leb andb
         new_expected_counts model_counts mm_expected_counts trans_count].
    rewrite X0, X1, C0, C1. lra.
Qed.

(** C2 (amended).  For a non-empty sequence and every state pair [(i,j)],
    the expectation step adds to the [(i,j)] transition count, for every [t]
    in [0 .. T-2], the value
    [gamma(t,i) * trans(i,j) * b(t+1,j) * c_{t+1} * g(t+1,j) / g(t,i)]:
    the worded formula times the backward value [g(t+1,j)] of the target
    state.  At the last step [t = T-2], where [g(T-1,j) = 1], the two
    agree. *)
Theorem transition_counts_accumulate_xi {D : Type} `{OD : ObsDist D}
    (h : hidden_markov_model D) (sq : sequence_type)
    (counts : expected_counts D) (i j : state_id) :
  sq <> [] -> (i < num_states h)%nat -> (j < num_states h)%nat ->
  let b := output_probabilities h sq in
  let fwd := forward h sq b in
  let bwd := backward h sq fwd b in
  let gamma := posterior_state_membership h fwd bwd in
  trans_count (model_counts (accumulate_sequence h counts sq)) i j
  = trans_count (model_counts counts) i j
    + sum_upto (length sq - 1)
        (fun t => gamma t i * trans_prob h i j * b (t + 1)%nat j
                  * normalizer fwd (t + 1) * tr_probability bwd (t + 1) j
                  / tr_probability bwd t i)
  /\ (forall t, (t + 2 = length sq)%nat ->
        xi_tij h gamma b fwd bwd t i j = xi_claimed h gamma b fwd bwd t i j).
Proof.
  intros Hne Hi Hj b fwd bwd gamma. split.
  - rewrite accumulate_trans_count.
    destruct (Nat.ltb_spec i (num_states h)); [|lia].
    destruct (Nat.ltb_spec j (num_states h)); [|lia].
    reflexivity.
  - intros t Ht. unfold xi_tij, xi_claimed.
    destruct (backward_columns h b fwd sq Hne) as (Hlast & _ & _).
    fold bwd in Hlast.
    replace (t + 1)%nat with (length sq - 1)%nat by lia.
    rewrite (Hlast j Hj). lra.
Qed.

Lemma transition_counts_accumulate_xi_witness :
  Scenario.ABA <> []
  /\ xi_tij Scenario.hmm Scenario.gamma3 Scenario.b3 Scenario.fwd3
       Scenario.bwd3 1 0 0
     = xi_claimed Scenario.hmm Scenario.gamma3 Scenario.b3 Scenario.fwd3
         Scenario.bwd3 1 0 0.
Proof.
  assert (Hne : Scenario.ABA <> []) by discriminate.
  split; [exact Hne|].
  apply (proj2 (transition_counts_accumulate_xi Scenario.hmm Scenario.ABA
                  (new_expected_counts Scenario.emissions Scenario.chain)
                  0%nat 0%nat Hne ltac:(cbv; lia) ltac:(cbv; lia))).
  reflexivity.
Defined.

(** * The expected counts as a monoid *)

Lemma chain_counts_ext (a b : chain_counts) :
  cc_num_states a = cc_num_states b ->
  (forall s, initial_count a s = initial_count b s) ->
  (forall i j, trans_count a i j = trans_count b i j) ->
  a = b.
Proof.
  destruct a as [ka ia ta], b as [kb ib tb]. cbn. intros -> Hi Ht.
  f_equal.
  - apply functional_extensionality. exact Hi.
  - apply functional_extensionality. intros i.
    apply functional_extensionality. apply Ht.
Qed.

Lemma cc_plus_assoc (a b c : chain_counts) :
  cc_plus a (cc_plus b c) = cc_plus (cc_plus a b) c.
Proof. apply chain_counts_ext; cbn; intros; try reflexivity; lra. Qed.

Lemma cc_plus_comm (a b : chain_counts) :
  cc_num_states a = cc_num_states b -> cc_plus a b = cc_plus b a.
Proof. intros H. apply chain_counts_ext; cbn; intros; try assumption; lra. Qed.

Lemma cc_plus_fresh_r (model : markov_model) (c : chain_counts) :
  cc_plus c (mm_expected_counts model) = c.
Proof. apply chain_counts_ext; cbn; intros; try reflexivity; lra. Qed.

Lemma increment_initial_plus (a b : chain_counts) (s : state_id) (w : R) :
  increment_initial (cc_plus a b) s w = cc_plus a (increment_initial b s w).
Proof.
  apply chain_counts_ext; cbn; intros; try reflexivity.
  destruct (s0 =? s)%nat; lra.
Qed.

Lemma increment_transition_plus (a b : chain_counts) (i j : state_id) (w : R) :
  increment_transition (cc_plus a b) i j w
  = cc_plus a (increment_transition b i j w).
Proof.
  apply chain_counts_ext; cbn; intros; try reflexivity.
  destruct ((i0 =? i)%nat && (j0 =? j)%nat); lra.
Qed.

Lemma for_range_additive {A : Type} (plus : A -> A -> A)
    (body : nat -> A -> A) (n : nat) :
  (forall i a b, body i (plus a b) = plus a (body i b)) ->
  forall a b, for_range n body (plus a b) = plus a (for_range n body b).
Proof.
  intros H a b. induction n as [|n IH].
  - reflexivity.
  - rewrite !for_range_S, IH. apply H.
Qed.

Section Monoid.

Context {D : Type} `{OD : ObsDist D} `{Laws : !ObsDistLaws D}.
Variable h : hidden_markov_model D.

Let zero := new_expected_counts (obs_dist_ h) (model_ h).

Lemma ec_shaped_zero : ec_shaped h zero.
Proof. split; [apply od_shaped_fresh | reflexivity]. Qed.

Lemma ec_shaped_plus (a b : expected_counts D) :
  ec_shaped h a -> ec_shaped h b -> ec_shaped h (ec_plus a b).
Proof.
  intros [Ha1 Ha2] [Hb1 Hb2]. split; cbn.
  - apply od_shaped_plus; assumption.
  - exact Ha2.
Qed.

Lemma ec_plus_assoc (a b c : expected_counts D) :
  ec_plus a (ec_plus b c) = ec_plus (ec_plus a b) c.
Proof.
  unfold ec_plus. cbn. f_equal.
  - apply od_plus_assoc.
  - apply cc_plus_assoc.
  - lra.
Qed.

Lemma ec_plus_comm (a b : expected_counts D) :
  ec_shaped h a -> ec_shaped h b -> ec_plus a b = ec_plus b a.
Proof.
  intros [Ha1 Ha2] [Hb1 Hb2]. unfold ec_plus. f_equal.
  - apply (od_plus_comm (obs_dist_ h)); assumption.
  - apply cc_plus_comm. congruence.
  - lra.
Qed.

Lemma ec_plus_zero_r (c : expected_counts D) :
  ec_shaped h c -> ec_plus c zero = c.
Proof.
  intros [Hc1 Hc2]. destruct c as [oc mc ll]. unfold ec_plus, zero. cbn in *.
  f_equal.
  - apply od_plus_fresh_r. exact Hc1.
  - apply cc_plus_fresh_r.
  - lra.
Qed.

Lemma ec_plus_zero_l (c : expected_counts D) :
  ec_shaped h c -> ec_plus zero c = c.
Proof.
  intros Hc. rewrite ec_plus_comm by (try apply ec_shaped_zero; assumption).
  apply ec_plus_zero_r, Hc.
Qed.

(** An accumulated sequence can be split off: what the sequence adds does
    not depend on what the accumulator already holds. *)
Lemma accumulate_sequence_plus (a b : expected_counts D) (sq : sequence_type) :
  accumulate_sequence h (ec_plus a b) sq
  = ec_plus a (accumulate_sequence h b sq).
Proof.
  unfold accumulate_sequence.
  rewrite <- (for_range_additive ec_plus).
  - f_equal. apply for_range_additive. intros i x y. cbv zeta.
    rewrite <- (for_range_additive ec_plus).
    + f_equal. rewrite <- (for_range_additive ec_plus).
      * f_equal. unfold with_model_counts, ec_plus. cbn. f_equal.
        apply increment_initial_plus.
      * intros j x' y'. apply for_range_additive. intros t x'' y''.
        unfold with_model_counts, ec_plus. cbn. f_equal.
        apply increment_transition_plus.
    + intros t x' y'. destruct (nth_error sq t); [|reflexivity].
      unfold with_obs_counts, ec_plus. cbn. f_equal.
      apply od_increment_plus.
  - intros t x y. unfold with_log_likelihood, ec_plus. cbn. f_equal. lra.
Qed.

Lemma accumulate_sequence_shaped (c : expected_counts D) (sq : sequence_type) :
  ec_shaped h c -> ec_shaped h (accumulate_sequence h c sq).
Proof.
  intros [Hc1 Hc2]. split.
  - unfold accumulate_sequence.
    apply (for_range_inv (fun x => od_shaped (obs_dist_ h) (obs_counts x))).
    + apply (for_range_inv (fun x => od_shaped (obs_dist_ h) (obs_counts x)));
        [exact Hc1|].
      intros i x _ Hx. cbv zeta.
      apply (for_range_inv (fun y => od_shaped (obs_dist_ h) (obs_counts y))).
      * apply (for_range_inv (fun y => od_shaped (obs_dist_ h) (obs_counts y)));
          [exact Hx|].
        intros j y _ Hy.
        apply (for_range_inv (fun z => od_shaped (obs_dist_ h) (obs_counts z)));
          [exact Hy|].
        intros t z _ Hz. exact Hz.
      * intros t y _ Hy. destruct (nth_error sq t); [|exact Hy].
        cbn. apply od_shaped_increment. exact Hy.
    + intros t x _ Hx. exact Hx.
  - rewrite accumulate_cc_num_states. exact Hc2.
Qed.

Lemma fold_accumulate_plus (l : training_data_type) (a b : expected_counts D) :
  fold_left (accumulate_sequence h) l (ec_plus a b)
  = ec_plus a (fold_left (accumulate_sequence h) l b).
Proof.
  revert b. induction l as [|sq l IH]; intros b; cbn.
  - reflexivity.
  - rewrite accumulate_sequence_plus. apply IH.
Qed.

Lemma fold_accumulate_shaped (l : training_data_type) (c : expected_counts D) :
  ec_shaped h c -> ec_shaped h (fold_left (accumulate_sequence h) l c).
Proof.
  revert c. induction l as [|sq l IH]; intros c Hc; cbn.
  - exact Hc.
  - apply IH, accumulate_sequence_shaped, Hc.
Qed.

Lemma sequential_counts_shaped (l : training_data_type) :
  ec_shaped h (sequential_counts h l).
Proof. apply fold_accumulate_shaped, ec_shaped_zero. Qed.

Lemma sequential_counts_app (l1 l2 : training_data_type) :
  sequential_counts h (l1 ++ l2)
  = ec_plus (sequential_counts h l1) (sequential_counts h l2).
Proof.
  unfold sequential_counts at 1. rewrite fold_left_app.
  fold (sequential_counts h l1).
  rewrite <- (ec_plus_zero_r (sequential_counts h l1)) at 1
    by apply sequential_counts_shaped.
  apply fold_accumulate_plus.
Qed.

Lemma sequential_counts_cons (sq : sequence_type) (l : training_data_type) :
  sequential_counts h (sq :: l)
  = ec_plus (sequential_counts h [sq]) (sequential_counts h l).
Proof. apply (sequential_counts_app [sq] l). Qed.

(** The order of the training sequences does not matter. *)
Lemma sequential_counts_perm (l l' : training_data_type) :
  Permutation l l' -> sequential_counts h l = sequential_counts h l'.
Proof.
  induction 1 as [|x l l' _ IH|x y l|l l' l'' _ IH1 _ IH2].
  - reflexivity.
  - rewrite (sequential_counts_cons x l), (sequential_counts_cons x l'), IH.
    reflexivity.
  - rewrite (sequential_counts_cons y (x :: l)), (sequential_counts_cons x l),
      (sequential_counts_cons x (y :: l)), (sequential_counts_cons y l).
    rewrite !ec_plus_assoc. f_equal.
    apply ec_plus_comm; apply sequential_counts_shaped.
  - congruence.
Qed.

Lemma merge_blocks (rest : list training_data_type) (first : training_data_type) :
  fold_left ec_plus
    (map (fun block => fold_left (accumulate_sequence h) block zero) rest)
    (sequential_counts h first)
  = sequential_counts h (first ++ concat rest).
Proof.
  revert first. induction rest as [|r rest IH]; intros first.
  - cbn. rewrite app_nil_r. reflexivity.
  - cbn [map fold_left concat].
    change (fold_left (accumulate_sequence h) r zero)
      with (sequential_counts h r).
    rewrite <- sequential_counts_app, IH, app_assoc. reflexivity.
Qed.

(** Merging the workers' accumulators gives the accumulator of a single
    worker over the concatenated blocks. *)
Lemma reduction_sequential (blocks : list training_data_type) :
  reduction blocks zero (accumulate_sequence h) ec_plus
  = sequential_counts h (concat blocks).
Proof.
  unfold reduction. destruct blocks as [|first rest]; [reflexivity|].
  cbn [map concat]. apply merge_blocks.
Qed.

End Monoid.

(** * The categorical distribution obeys the contract *)

Lemma categorical_counts_ext (a b : categorical_counts) :
  cnt_states a = cnt_states b -> cnt_symbols a = cnt_symbols b ->
  (forall s o, cnt a s o = cnt b s o) -> a = b.
Proof.
  destruct a as [ka va ca], b as [kb vb cb]. cbn. intros -> -> H.
  f_equal. apply functional_extensionality. intros s.
  apply functional_extensionality. apply H.
Qed.

Lemma cat_plus_assoc (a b c : categorical_counts) :
  cat_plus a (cat_plus b c) = cat_plus (cat_plus a b) c.
Proof. apply categorical_counts_ext; cbn; intros; try reflexivity; lra. Qed.

Lemma cat_plus_comm (d : categorical) (a b : categorical_counts) :
  cat_shaped d a -> cat_shaped d b -> cat_plus a b = cat_plus b a.
Proof.
  intros [Ha1 Ha2] [Hb1 Hb2].
  apply categorical_counts_ext; cbn; intros; try congruence; lra.
Qed.

Lemma cat_plus_fresh_r (d : categorical) (c : categorical_counts) :
  cat_shaped d c -> cat_plus c (cat_expected_counts d) = c.
Proof.
  intros _. apply categorical_counts_ext; cbn; intros; try reflexivity; lra.
Qed.

Lemma cat_increment_plus (a b : categorical_counts) (o : nat) (s : state_id)
    (w : R) :
  cat_increment (cat_plus a b) o s w = cat_plus a (cat_increment b o s w).
Proof.
  apply categorical_counts_ext; cbn; intros; try reflexivity.
  destruct ((s0 =? s)%nat && (o0 =? o)%nat); lra.
Qed.

#[export] Instance categorical_ObsDistLaws : ObsDistLaws categorical.
Proof.
  refine {| od_shaped := cat_shaped |}.
  - intros d. split; reflexivity.
  - intros d c o s w H. exact H.
  - intros d a b Ha Hb. exact Ha.
  - exact cat_plus_assoc.
  - exact cat_plus_comm.
  - exact cat_plus_fresh_r.
  - exact cat_increment_plus.
  - intros d c [H _]. exact H.
Defined.

(** * The expected counts: main result *)

(** C8.  The accumulators shaped after the current model form a commutative
    monoid under [+=] with the fresh accumulator (zero counts, zero log
    likelihood) as identity.  Hence however the pool splits the training
    sequences into blocks and orders the merge, the aggregate counts, the log
    likelihood and the re-estimated parameters of one iteration are the
    same. *)
Theorem expected_counts_monoid {D : Type} `{OD : ObsDist D}
    `{Laws : !ObsDistLaws D} (h : hidden_markov_model D) :
  let zero := new_expected_counts (obs_dist_ h) (model_ h) in
  (ec_shaped h zero /\ log_likelihood zero = 0
   /\ (forall s, initial_count (model_counts zero) s = 0)
   /\ (forall i j, trans_count (model_counts zero) i j = 0))
  /\ (forall a b, ec_shaped h a -> ec_shaped h b -> ec_shaped h (ec_plus a b))
  /\ (forall c, ec_shaped h c -> ec_plus zero c = c /\ ec_plus c zero = c)
  /\ (forall a b c, ec_plus a (ec_plus b c) = ec_plus (ec_plus a b) c)
  /\ (forall a b, ec_shaped h a -> ec_shaped h b -> ec_plus a b = ec_plus b a)
  /\ (forall (instances : training_data_type) (pool pool' : thread_pool),
        Permutation (concat (pool instances)) instances ->
        Permutation (concat (pool' instances)) instances ->
        aggregate_counts h instances pool = aggregate_counts h instances pool'
        /\ expectation_maximization h instances pool
           = expectation_maximization h instances pool').
Proof.
  intros zero. split; [|split; [|split; [|split; [|split]]]].
  - split; [apply ec_shaped_zero|]. repeat split; reflexivity.
  - apply ec_shaped_plus.
  - intros c Hc. split; [apply ec_plus_zero_l | apply ec_plus_zero_r]; exact Hc.
  - apply ec_plus_assoc.
  - apply ec_plus_comm.
  - intros instances pool pool' Hp Hp'.
    assert (E : aggregate_counts h instances pool
                = aggregate_counts h instances pool').
    { unfold aggregate_counts. rewrite !reduction_sequential.
      rewrite (sequential_counts_perm h _ _ Hp).
      rewrite (sequential_counts_perm h _ _ Hp'). reflexivity. }
    split; [exact E|]. unfold expectation_maximization. rewrite E. reflexivity.
Qed.

Lemma expected_counts_monoid_witness :
  Permutation (concat (single_worker Scenario.training_data))
    Scenario.training_data
  /\ Permutation (concat (worker_per_sequence Scenario.training_data))
       Scenario.training_data
  /\ expectation_maximization Scenario.hmm Scenario.training_data single_worker
     = expectation_maximization Scenario.hmm Scenario.training_data
         worker_per_sequence.
Proof.
  assert (H1 : Permutation (concat (single_worker Scenario.training_data))
                 Scenario.training_data).
  { cbn. apply Permutation_refl. }
  assert (H2 : Permutation (concat (worker_per_sequence Scenario.training_data))
                 Scenario.training_data).
  { cbn. apply perm_swap. }
  split; [exact H1|]. split; [exact H2|].
  apply (proj2 (proj2 (proj2 (proj2 (proj2
           (expected_counts_monoid Scenario.hmm)))))).
  - exact H1.
  - exact H2.
Defined.

(** * The loop of [fit] *)

Lemma uint64_modulus_value : uint64_modulus = 18446744073709551616%Z.
Proof. reflexivity. Qed.

Lemma iter_after_S (n : nat) : iter_after (S n) = uint64_succ (iter_after n).
Proof. reflexivity. Qed.

Lemma iter_after_range (n : nat) : (0 <= iter_after n <= uint64_max)%Z.
Proof.
  unfold uint64_max. rewrite uint64_modulus_value.
  destruct n as [|n].
  - cbn. lia.
  - rewrite iter_after_S. unfold uint64_succ. rewrite uint64_modulus_value.
    pose proof (Z.mod_pos_bound (iter_after n + 1) 18446744073709551616).
    lia.
Qed.

(** Below the modulus the counter has not wrapped. *)
Lemma iter_after_small (n : nat) :
  (Z.of_nat n < uint64_max)%Z -> iter_after n = (Z.of_nat n + 1)%Z.
Proof.
  unfold uint64_max. rewrite uint64_modulus_value.
  induction n as [|n IH]; intros Hn.
  - reflexivity.
  - rewrite iter_after_S, IH by lia. unfold uint64_succ.
    rewrite uint64_modulus_value, Z.mod_small by lia. lia.
Qed.

Lemma lowest_below_minus_one : lowest < -1.
Proof.
  unfold lowest.
  assert (H : IZR 1 < IZR (2 ^ 1024 - 2 ^ 971)) by (apply IZR_lt; reflexivity).
  lra.
Qed.

Lemma lowest_negative : lowest < 0.
Proof. pose proof lowest_below_minus_one. lra. Qed.

Section FitLoop.

Context {D : Type} `{OD : ObsDist D}.
Variable instances : training_data_type.
Variable pool : thread_pool.
Variable options : training_options.
Variable h : hidden_markov_model D.

Hypothesis max_iters_uint64 : is_uint64 (max_iters options).

Let st := em_state instances pool h.
Let ll := em_ll instances pool h.
Let old := old_ll_after instances pool h.

Lemma em_step (n : nat) :
  expectation_maximization (st n) instances pool = (st (S n), ll (S n)).
Proof.
  unfold st, ll, em_ll. cbn [em_state].
  replace (S n - 1)%nat with n by lia.
  apply surjective_pairing.
Qed.

Lemma budget_allows_le (i k : nat) :
  (k <= i)%nat -> budget_allows options i -> budget_allows options k.
Proof. intros Hk [H|H]; [left; exact H | right; lia]. Qed.

(** The loop condition after [n] completed iterations. *)
Lemma budget_test (n : nat) :
  n = 0%nat \/ budget_allows options n ->
  (iter_after n <=? max_iters options)%Z = true <-> budget_allows options (S n).
Proof.
  intros Hn. pose proof (iter_after_range n) as Hr.
  unfold is_uint64 in max_iters_uint64.
  rewrite Z.leb_le. unfold budget_allows.
  destruct (Z.eq_dec (max_iters options) uint64_max) as [E|NE].
  - split; [left; exact E | intros _; lia].
  - assert (Hsmall : (Z.of_nat n <= max_iters options)%Z).
    { destruct Hn as [->|[E|H]]; [lia | contradiction | exact H]. }
    rewrite iter_after_small by lia.
    split; [intros H; right; lia | intros [E|H]; [contradiction | lia]].
Qed.

(** One pass of the loop, after [n] completed iterations. *)
Lemma fit_loop_step (fuel n : nat) :
  n = 0%nat \/ budget_allows options n ->
  fit_loop (S fuel) instances pool options (st n) (iter_after n) (old n)
  = if (iter_after n <=? max_iters options)%Z then
      if Rgt_dec (old n) (ll (S n)) then
        Some (st (S n), Throws (runtime_error did_not_improve))
      else if Rlt_dec (ll (S n) - old n) (delta options) then
        Some (st (S n), Returns (ll (S n)))
      else
        fit_loop fuel instances pool options (st (S n)) (iter_after (S n))
          (old (S n))
    else Some (st n, Returns (old n)).
Proof.
  intros _. cbn [fit_loop]. rewrite em_step. reflexivity.
Qed.

Lemma continues_iff (n : nat) :
  continues instances pool options h (S n)
  <-> ~ old n > ll (S n) /\ ~ ll (S n) - old n < delta options.
Proof.
  unfold continues. replace (S n - 1)%nat with n by lia. reflexivity.
Qed.

(** While the iterations continue, the loop goes on. *)
Lemma fit_loop_continues (k fuel n : nat) :
  n = 0%nat \/ budget_allows options n ->
  budget_allows options (n + k) ->
  (forall i, (n < i <= n + k)%nat -> continues instances pool options h i) ->
  fit_loop (k + fuel) instances pool options (st n) (iter_after n) (old n)
  = fit_loop fuel instances pool options (st (n + k)) (iter_after (n + k))
      (old (n + k)).
Proof.
  revert n. induction k as [|k IH]; intros n Hn Hb Hc.
  - rewrite Nat.add_0_r. reflexivity.
  - cbn [Nat.add]. rewrite fit_loop_step by exact Hn.
    assert (Hb1 : budget_allows options (S n))
      by (apply (budget_allows_le (n + S k)); [lia | exact Hb]).
    destruct (budget_test n Hn) as [_ Ht]. rewrite (Ht Hb1).
    destruct (continues_iff n) as [Hcn _].
    destruct (Hcn (Hc (S n) ltac:(lia))) as [H1 H2].
    destruct (Rgt_dec (old n) (ll (S n))); [contradiction|].
    destruct (Rlt_dec (ll (S n) - old n) (delta options)); [contradiction|].
    replace (n + S k)%nat with (S n + k)%nat in * by lia.
    apply IH.
    + right. exact Hb1.
    + exact Hb.
    + intros i Hi. apply Hc. lia.
Qed.

Lemma fit_reaches (i fuel : nat) :
  reaches instances pool options h (S i) ->
  fit (S i + fuel) h instances pool options
  = fit_loop (S fuel) instances pool options (st i) (iter_after i) (old i).
Proof.
  intros [Hb Hc]. unfold fit.
  replace (S i + fuel)%nat with (i + S fuel)%nat by lia.
  change (fit_loop (i + S fuel) instances pool options h 1%Z lowest)
    with (fit_loop (i + S fuel) instances pool options (st 0) (iter_after 0)
            (old 0)).
  rewrite (fit_loop_continues i (S fuel) 0); try reflexivity.
  - left. reflexivity.
  - apply (budget_allows_le (S i)); [lia | exact Hb].
  - intros k Hk. apply Hc. lia.
Qed.

(** A decrease at a reached iteration raises. *)
Lemma fit_decrease (i fuel : nat) :
  (1 <= i)%nat -> reaches instances pool options h i ->
  decreases_at instances pool h i ->
  fit (i + fuel) h instances pool options
  = Some (st i, Throws (runtime_error did_not_improve)).
Proof.
  intros Hi Hr Hd. destruct i as [|i]; [lia|].
  rewrite fit_reaches by exact Hr.
  assert (Hn : i = 0%nat \/ budget_allows options i).
  { right. apply (budget_allows_le (S i)); [lia | apply Hr]. }
  rewrite fit_loop_step by exact Hn.
  destruct (budget_test i Hn) as [_ Ht]. rewrite (Ht (proj1 Hr)).
  unfold decreases_at in Hd. replace (S i - 1)%nat with i in Hd by lia.
  destruct (Rgt_dec (old i) (ll (S i))); [reflexivity | contradiction].
Qed.

Lemma converges_iff (n : nat) :
  converges_at instances pool options h (S n)
  <-> ~ old n > ll (S n) /\ ll (S n) - old n < delta options.
Proof.
  unfold converges_at, decreases_at. replace (S n - 1)%nat with n by lia.
  fold (old n). fold (ll (S n)).
  split; intros [H1 H2]; (split; [exact H1|]).
  - rewrite Rabs_right in H2 by lra. exact H2.
  - rewrite Rabs_right by lra. exact H2.
Qed.

(** Convergence at a reached iteration returns its log likelihood. *)
Lemma fit_converge (i fuel : nat) :
  (1 <= i)%nat -> reaches instances pool options h i ->
  converges_at instances pool options h i ->
  fit (i + fuel) h instances pool options = Some (st i, Returns (ll i)).
Proof.
  intros Hi Hr Hc. destruct i as [|i]; [lia|].
  rewrite fit_reaches by exact Hr.
  assert (Hn : i = 0%nat \/ budget_allows options i).
  { right. apply (budget_allows_le (S i)); [lia | apply Hr]. }
  rewrite fit_loop_step by exact Hn.
  destruct (budget_test i Hn) as [_ Ht]. rewrite (Ht (proj1 Hr)).
  destruct (converges_iff i) as [Hci _]. destruct (Hci Hc) as [H1 H2].
  destruct (Rgt_dec (old i) (ll (S i))); [contradiction|].
  destruct (Rlt_dec (ll (S i) - old i) (delta options));
    [reflexivity | contradiction].
Qed.

(** When the budget is used up the loop returns the last log likelihood. *)
Lemma fit_exhausted (n fuel : nat) :
  Z.of_nat n = max_iters options -> max_iters options <> uint64_max ->
  (forall k, (1 <= k <= n)%nat -> continues instances pool options h k) ->
  fit (S n + fuel) h instances pool options = Some (st n, Returns (old n)).
Proof.
  intros Hn Hmax Hc. unfold fit.
  replace (S n + fuel)%nat with (n + S fuel)%nat by lia.
  change (fit_loop (n + S fuel) instances pool options h 1%Z lowest)
    with (fit_loop (n + S fuel) instances pool options (st 0) (iter_after 0)
            (old 0)).
  assert (Hbn : budget_allows options n) by (right; lia).
  rewrite (fit_loop_continues n (S fuel) 0); cbn [Nat.add].
  - rewrite fit_loop_step by (right; exact Hbn).
    destruct (iter_after n <=? max_iters options)%Z eqn:Ht; [|reflexivity].
    apply (budget_test n (or_intror Hbn)) in Ht.
    destruct Ht as [E|H]; [contradiction | lia].
  - left. reflexivity.
  - exact Hbn.
  - intros k Hk. apply Hc. lia.
Qed.

(** While every iteration continues and the budget lasts, the fuel runs
    out. *)
Lemma fit_out_of_fuel (fuel : nat) :
  budget_allows options fuel ->
  (forall k, (1 <= k <= fuel)%nat -> continues instances pool options h k) ->
  fit fuel h instances pool options = None.
Proof.
  intros Hb Hc. unfold fit.
  replace fuel with (fuel + 0)%nat at 1 by lia.
  change (fit_loop (fuel + 0) instances pool options h 1%Z lowest)
    with (fit_loop (fuel + 0) instances pool options (st 0) (iter_after 0)
            (old 0)).
  rewrite (fit_loop_continues fuel 0 0); cbn [Nat.add]; try reflexivity.
  - left. reflexivity.
  - exact Hb.
  - intros k Hk. apply Hc. lia.
Qed.

(** Every result of [fit] is one of the three ways the loop stops. *)
Lemma fit_loop_inversion (fuel n : nat)
    (r : hidden_markov_model D * outcome R) :
  n = 0%nat \/ budget_allows options n ->
  (forall k, (1 <= k <= n)%nat -> continues instances pool options h k) ->
  fit_loop fuel instances pool options (st n) (iter_after n) (old n) = Some r ->
  (exists i, (n < i)%nat /\ reaches instances pool options h i
             /\ decreases_at instances pool h i
             /\ r = (st i, Throws (runtime_error did_not_improve)))
  \/ (exists i, (n < i)%nat /\ reaches instances pool options h i
                /\ converges_at instances pool options h i
                /\ r = (st i, Returns (ll i)))
  \/ (exists m, (n <= m)%nat /\ Z.of_nat m = max_iters options
                /\ max_iters options <> uint64_max
                /\ (forall k, (1 <= k <= m)%nat ->
                      continues instances pool options h k)
                /\ r = (st m, Returns (old m))).
Proof.
  revert n. induction fuel as [|fuel IH]; intros n Hn Hc Hr.
  - discriminate.
  - rewrite fit_loop_step in Hr by exact Hn.
    destruct (iter_after n <=? max_iters options)%Z eqn:Ht.
    + apply (budget_test n Hn) in Ht.
      assert (Hreach : reaches instances pool options h (S n)).
      { split; [exact Ht|]. intros k Hk. apply Hc. lia. }
      destruct (Rgt_dec (old n) (ll (S n))) as [Hgt|Hngt].
      { left. exists (S n). split; [lia|]. split; [exact Hreach|].
        split; [|congruence].
        unfold decreases_at. replace (S n - 1)%nat with n by lia. exact Hgt. }
      destruct (Rlt_dec (ll (S n) - old n) (delta options)) as [Hlt|Hnlt].
      { right. left. exists (S n). split; [lia|]. split; [exact Hreach|].
        split; [|congruence]. apply converges_iff. split; assumption. }
      assert (Hc' : forall k, (1 <= k <= S n)%nat ->
                      continues instances pool options h k).
      { intros k Hk. destruct (Nat.eq_dec k (S n)) as [->|Hne].
        - apply continues_iff. split; assumption.
        - apply Hc. lia. }
      destruct (IH (S n) (or_intror Ht) Hc' Hr)
        as [(i & Hi & H)|[(i & Hi & H)|(m & Hm & H)]].
      * left. exists i. split; [lia | exact H].
      * right. left. exists i. split; [lia | exact H].
      * right. right. exists m. split; [lia | exact H].
    + right. right. exists n. split; [lia|].
      assert (Hnb : ~ budget_allows options (S n)).
      { intros Hb. apply (budget_test n Hn) in Hb. congruence. }
      assert (Hmax : max_iters options <> uint64_max).
      { intros E. apply Hnb. left. exact E. }
      split; [|split; [exact Hmax|split; [exact Hc|congruence]]].
      assert (~ (Z.of_nat (S n) <= max_iters options)%Z)
        by (intros H; apply Hnb; right; exact H).
      destruct Hn as [->|[E|H']]; [|contradiction|lia].
      unfold is_uint64 in max_iters_uint64. lia.
Qed.

Lemma fit_inversion (fuel : nat) (r : hidden_markov_model D * outcome R) :
  fit fuel h instances pool options = Some r ->
  (exists i, (1 <= i)%nat /\ reaches instances pool options h i
             /\ decreases_at instances pool h i
             /\ r = (st i, Throws (runtime_error did_not_improve)))
  \/ (exists i, (1 <= i)%nat /\ reaches instances pool options h i
                /\ converges_at instances pool options h i
                /\ r = (st i, Returns (ll i)))
  \/ (exists m, Z.of_nat m = max_iters options
                /\ max_iters options <> uint64_max
                /\ (forall k, (1 <= k <= m)%nat ->
                      continues instances pool options h k)
                /\ r = (st m, Returns (old m))).
Proof.
  intros Hr.
  destruct (fit_loop_inversion fuel 0 r) as [(i & Hi & H)|[(i & Hi & H)|(m & _ & H)]].
  - left. reflexivity.
  - intros k Hk. lia.
  - exact Hr.
  - left. exists i. split; [lia | exact H].
  - right. left. exists i. split; [lia | exact H].
  - right. right. exists m. exact H.
Qed.

End FitLoop.

(** * Training a single-state model *)

Section CategoricalCounts.

Variable h : hidden_markov_model categorical.
Variable sq : @sequence_type categorical _.

Let b := output_probabilities h sq.
Let fwd := forward h sq b.
Let bwd := backward h sq fwd b.
Let gamma := posterior_state_membership h fwd bwd.

(** The emission count of symbol [o] in state [s] grows by gamma(t, s) at
    every time step that observes [o]. *)
Lemma accumulate_categorical_counts (counts : expected_counts categorical)
    (s : state_id) (o : nat) :
  cnt (obs_counts (accumulate_sequence h counts sq)) s o
  = cnt (obs_counts counts) s o
    + sum_upto (num_states h)
        (fun i =>
           sum_upto (length sq)
             (fun t =>
                match nth_error sq t with
                | Some o' =>
                    if (s =? i)%nat && (o =? o')%nat then gamma t i else 0
                | None => 0
                end)).
Proof.
  rewrite accumulate_obs_counts.
  apply (for_range_add (fun c : @expected_counts categorical categorical_ObsDist => cnt (obs_counts c) s o)).
  intros i x _. cbv zeta.
  rewrite (for_range_add (fun c : @expected_counts categorical categorical_ObsDist => cnt (obs_counts c) s o)
             (fun t => match nth_error sq t with
                       | Some o' =>
                           if (s =? i)%nat && (o =? o')%nat
                           then gamma t i else 0
                       | None => 0
                       end)).
  - f_equal.
    apply (for_range_inv
             (fun y : @expected_counts categorical categorical_ObsDist =>
                cnt (obs_counts y) s o = cnt (obs_counts x) s o)).
    + reflexivity.
    + intros j y _ Hy.
      apply (for_range_inv
               (fun z : @expected_counts categorical categorical_ObsDist =>
                  cnt (obs_counts z) s o = cnt (obs_counts x) s o));
        [exact Hy|].
      intros t z _ Hz. exact Hz.
  - intros t y _. destruct (nth_error sq t) as [o'|]; [|lra].
    cbn [with_obs_counts obs_counts increment categorical_ObsDist
         cat_increment cnt].
    match goal with
    | |- context [if ?c then _ else _] => destruct c
    end; unfold gamma, bwd, fwd, b; lra.
Qed.

End CategoricalCounts.

Lemma single_state_step (p : R) (h : hidden_markov_model categorical) :
  single_state p h -> 0 < p ->
  snd (expectation_maximization h SingleState.training_data single_worker)
  = - ln p + - ln p
  /\ single_state 1
       (fst (expectation_maximization h SingleState.training_data
               single_worker)).
Proof.
  intros (HK & Hinit & Htrans & Hp & Hstates & Hsymbols) Hpos.
  set (sq := SingleState.AA).
  set (b := output_probabilities h sq).
  set (fwd := forward h sq b).
  set (bwd := backward h sq fwd b).
  set (gamma := posterior_state_membership h fwd bwd).
  set (zero := new_expected_counts (obs_dist_ h) (model_ h)).
  assert (Hagg : aggregate_counts h SingleState.training_data single_worker
                 = accumulate_sequence h zero sq) by reflexivity.
  (* the cache *)
  assert (O0 : b 0%nat 0%nat = p).
  { unfold b. rewrite (output_probabilities_spec h sq 0 0 0%nat);
      [exact Hp | reflexivity | lia]. }
  assert (O1 : b 1%nat 0%nat = p).
  { unfold b. rewrite (output_probabilities_spec h sq 1 0 0%nat);
      [exact Hp | reflexivity | lia]. }
  (* the forward trellis *)
  destruct (forward_columns h b sq) as (_ & Hsize & Hcol). fold fwd in Hcol, Hsize.
  destruct (Hcol 0%nat ltac:(cbv; lia)) as [N0 C0].
  specialize (C0 0%nat ltac:(lia)).
  rewrite N0 in C0. rewrite HK in N0, C0.
  cbv [sum_upto for_range seq fold_left forward_raw] in N0, C0.
  rewrite Hinit, O0 in N0, C0.
  assert (N0' : normalizer fwd 0 = p) by lra.
  assert (F0 : ft_probability fwd 0 0 = 1) by (rewrite C0; field; lra).
  clear N0 C0.
  destruct (Hcol 1%nat ltac:(cbv; lia)) as [N1 C1].
  specialize (C1 0%nat ltac:(lia)).
  rewrite N1 in C1. rewrite HK in N1, C1.
  cbv [sum_upto for_range seq fold_left forward_raw] in N1, C1.
  rewrite HK in N1, C1.
  cbv [sum_upto for_range seq fold_left] in N1, C1.
  rewrite F0, Htrans, O1 in N1, C1.
  assert (N1' : normalizer fwd 1 = p) by lra.
  assert (F1 : ft_probability fwd 1 0 = 1) by (rewrite C1; field; lra).
  clear N1 C1.
  (* the backward trellis *)
  destruct (backward_columns h b fwd sq) as (Hlast & Hbcol & _); [discriminate|].
  fold bwd in Hlast, Hbcol.
  assert (G1 : tr_probability bwd 1 0 = 1) by (apply (Hlast 0%nat); lia).
  pose proof (Hbcol 0%nat ltac:(cbv; lia) 0%nat ltac:(lia)) as G0.
  rewrite HK in G0. cbv [sum_upto for_range seq fold_left Nat.add] in G0.
  rewrite G1, N1', Htrans, O1 in G0.
  assert (G0' : tr_probability bwd 0 0 = p * p) by (rewrite G0; ring).
  clear G0.
  (* the posteriors *)
  assert (P0 : gamma 0%nat 0%nat = 1).
  { unfold gamma. rewrite posterior_state_membership_spec
      by (rewrite ?Hsize, ?HK; cbn; lia).
    rewrite HK. cbv [sum_upto for_range seq fold_left].
    rewrite F0, G0'. field. lra. }
  assert (P1 : gamma 1%nat 0%nat = 1).
  { unfold gamma. rewrite posterior_state_membership_spec
      by (rewrite ?Hsize, ?HK; cbn; lia).
    rewrite HK. cbv [sum_upto for_range seq fold_left].
    rewrite F1, G1. field. }
  assert (X0 : xi_tij h gamma b fwd bwd 0 0 0 = 1).
  { unfold xi_tij. cbn [Nat.add]. rewrite P0, Htrans, O1, N1', G1, G0'.
    field. lra. }
  set (agg := accumulate_sequence h zero sq) in *.
  assert (A1 : cc_num_states (model_counts agg) = 1%nat).
  { unfold agg. rewrite accumulate_cc_num_states. exact HK. }
  assert (A2 : initial_count (model_counts agg) 0 = 1).
  { unfold agg. rewrite accumulate_initial_count. fold sq b fwd bwd gamma.
    rewrite HK, P0. cbn. lra. }
  assert (A3 : trans_count (model_counts agg) 0 0 = 1).
  { unfold agg. rewrite accumulate_trans_count. fold sq b fwd bwd gamma.
    rewrite HK. change (length sq - 1)%nat with 1%nat.
    cbv [sum_upto for_range seq fold_left Nat.ltb Nat.leb andb].
    rewrite X0. cbn. lra. }
  assert (A4 : cnt (obs_counts agg) 0%nat 0%nat = 2).
  { unfold agg. rewrite accumulate_categorical_counts.
    fold sq b fwd bwd gamma. rewrite HK.
    cbv [sum_upto for_range seq fold_left length sq SingleState.AA nth_error
         Nat.eqb andb].
    rewrite P0, P1. cbn. lra. }
  assert (A5 : cnt (obs_counts agg) 0%nat 1%nat = 0).
  { unfold agg. rewrite accumulate_categorical_counts.
    fold sq b fwd bwd gamma. rewrite HK.
    cbv [sum_upto for_range seq fold_left length sq SingleState.AA nth_error
         Nat.eqb andb].
    cbn. lra. }
  assert (A6 : cat_shaped (obs_dist_ h) (obs_counts agg)).
  { exact (proj1 (accumulate_sequence_shaped h zero sq (ec_shaped_zero h))). }
  destruct A6 as [A6 A7]. rewrite Hstates in A6. rewrite Hsymbols in A7.
  assert (A8 : log_likelihood agg = - ln p + - ln p).
  { unfold agg. rewrite accumulate_log_likelihood.
    unfold sequence_log_likelihood. fold sq b fwd.
    cbv [sum_upto for_range seq fold_left length sq SingleState.AA].
    rewrite N0', N1'. cbn. lra. }
  unfold expectation_maximization. rewrite Hagg. cbn [fst snd].
  split; [exact A8|].
  unfold single_state.
  cbv [num_states init_prob trans_prob model_ obs_dist_ mm_from_counts
       mm_num_states initial_probability transition_probability].
  cbn [od_from_counts categorical_ObsDist cat_from_counts cat_prob
       cat_states cat_symbols].
  rewrite A1, A7. cbv [sum_upto for_range seq fold_left].
  rewrite A2, A3, A4, A5.
  repeat split; try assumption; field.
Qed.

(** * Runs of [fit] on the single-state model *)

Lemma single_state_initial (p : R) : single_state p (SingleState.hmm p).
Proof. repeat split. Qed.

Section SingleStateRun.

Variable p : R.
Hypothesis p_pos : 0 < p.

Let st := em_state SingleState.training_data single_worker (SingleState.hmm p).
Let ll := em_ll SingleState.training_data single_worker (SingleState.hmm p).

Lemma single_state_after (n : nat) : single_state 1 (st (S n)).
Proof.
  induction n as [|n IH].
  - apply (single_state_step p); [apply single_state_initial | exact p_pos].
  - apply (single_state_step 1); [exact IH | lra].
Qed.

Lemma single_state_first_ll : ll 1 = - ln p + - ln p.
Proof.
  apply (single_state_step p); [apply single_state_initial | exact p_pos].
Qed.

Lemma single_state_later_ll (n : nat) : ll (S (S n)) = 0.
Proof.
  unfold ll, em_ll. replace (S (S n) - 1)%nat with (S n) by lia.
  destruct (single_state_step 1 (st (S n))) as [E _];
    [apply single_state_after | lra |].
  fold st. rewrite E, ln_1. lra.
Qed.

End SingleStateRun.

Lemma ln_2_bounds : / 2 < ln 2 < 1.
Proof.
  split; [exact ln_lt_2|].
  rewrite <- (ln_exp 1). apply ln_increasing; [lra|].
  pose proof (exp_ineq1 1). lra.
Qed.

(** Started with P(A) = 1/2, the first iteration returns [2 * ln 2] and the
    second returns 0. *)
Lemma half_run :
  em_ll SingleState.training_data single_worker (SingleState.hmm 0.5) 1
  = 2 * ln 2
  /\ em_ll SingleState.training_data single_worker (SingleState.hmm 0.5) 2 = 0.
Proof.
  split.
  - rewrite single_state_first_ll by lra. rewrite ln_half. lra.
  - apply single_state_later_ll. lra.
Qed.

(** Started with P(A) = 1, every iteration returns 0. *)
Lemma sure_run (n : nat) :
  em_ll SingleState.training_data single_worker (SingleState.hmm 1) (S n) = 0.
Proof.
  destruct n as [|n].
  - rewrite single_state_first_ll by lra. rewrite ln_1. lra.
  - apply single_state_later_ll. lra.
Qed.

Lemma sure_run_continues (options : training_options) (k : nat) :
  delta options <= 0 -> (1 <= k)%nat ->
  continues SingleState.training_data single_worker options
    (SingleState.hmm 1) k.
Proof.
  intros Hd Hk. destruct k as [|k]; [lia|].
  unfold continues. replace (S k - 1)%nat with k by lia.
  rewrite sure_run. pose proof lowest_negative.
  destruct k as [|k]; cbn [old_ll_after]; [|rewrite sure_run]; split; lra.
Qed.

Lemma half_run_reaches_2 :
  reaches SingleState.training_data single_worker SingleState.loose
    (SingleState.hmm 0.5) 2.
Proof.
  split.
  - right. cbn. lia.
  - intros k Hk. replace k with 1%nat by lia.
    unfold continues. cbn [Nat.sub old_ll_after].
    destruct half_run as [E1 _]. rewrite E1.
    pose proof lowest_below_minus_one. pose proof ln_2_bounds.
    cbn [delta SingleState.loose]. split; lra.
Qed.

Lemma loose_uint64 : is_uint64 (max_iters SingleState.loose).
Proof. cbv. split; discriminate. Qed.

Lemma three_uint64 : is_uint64 (max_iters SingleState.three_iterations).
Proof. cbv. split; discriminate. Qed.

Lemma unbounded_uint64 : is_uint64 (max_iters SingleState.unbounded).
Proof. cbv. split; discriminate. Qed.

(** The run started with P(A) = 1/2 raises in its second iteration. *)
Lemma half_run_raises :
  fit 2 (SingleState.hmm 0.5) SingleState.training_data single_worker
    SingleState.loose
  = Some (em_state SingleState.training_data single_worker
            (SingleState.hmm 0.5) 2,
          Throws (runtime_error did_not_improve)).
Proof.
  apply (fit_decrease SingleState.training_data single_worker SingleState.loose
           (SingleState.hmm 0.5) loose_uint64 2 0).
  - lia.
  - exact half_run_reaches_2.
  - unfold decreases_at. cbn [Nat.sub old_ll_after].
    destruct half_run as [E1 E2]. rewrite E1, E2.
    pose proof ln_2_bounds. lra.
Qed.

(** * [fit]: main results *)

(** C6.  Let the first log likelihood be a finite double (at least
    [lowest()]).  If iteration [i >= 2] is reached and its log likelihood is
    strictly less than that of iteration [i - 1], [fit] raises the error
    right after the [i]-th expectation-maximization run, without returning
    or running further iterations; and [fit] raises only in this way. *)
Theorem decrease_raises {D : Type} `{OD : ObsDist D}
    (instances : training_data_type) (pool : thread_pool)
    (options : training_options) (h : hidden_markov_model D) :
  is_uint64 (max_iters options) ->
  lowest <= em_ll instances pool h 1 ->
  (forall i fuel : nat,
      (2 <= i)%nat -> reaches instances pool options h i ->
      em_ll instances pool h i < em_ll instances pool h (i - 1) ->
      fit (i + fuel) h instances pool options
      = Some (em_state instances pool h i,
              Throws (runtime_error did_not_improve)))
  /\ (forall (fuel : nat) (h' : hidden_markov_model D) (e : exception),
        fit fuel h instances pool options = Some (h', Throws e) ->
        exists i : nat,
          (2 <= i)%nat /\ reaches instances pool options h i
          /\ em_ll instances pool h i < em_ll instances pool h (i - 1)
          /\ h' = em_state instances pool h i
          /\ e = runtime_error did_not_improve).
Proof.
  intros Hmax Hfinite. split.
  - intros i fuel Hi Hr Hlt.
    apply fit_decrease; try assumption; [lia|].
    unfold decreases_at. destruct i as [|[|i]]; try lia.
    cbn [Nat.sub old_ll_after] in *. lra.
  - intros fuel h' e Hfit.
    destruct (fit_inversion instances pool options h Hmax fuel _ Hfit)
      as [(i & Hi & Hr & Hd & E)|[(i & _ & _ & _ & E)|(m & _ & _ & _ & E)]];
      try discriminate.
    injection E as -> ->.
    destruct i as [|[|i]]; [lia| |].
    + unfold decreases_at in Hd. cbn [Nat.sub old_ll_after] in Hd. lra.
    + exists (S (S i)). split; [lia|]. split; [exact Hr|].
      unfold decreases_at in Hd. cbn [Nat.sub old_ll_after] in *.
      repeat split. lra.
Qed.

Lemma decrease_raises_witness :
  is_uint64 (max_iters SingleState.loose)
  /\ lowest <= em_ll SingleState.training_data single_worker
                 (SingleState.hmm 0.5) 1
  /\ fit 2 (SingleState.hmm 0.5) SingleState.training_data single_worker
       SingleState.loose
     = Some (em_state SingleState.training_data single_worker
               (SingleState.hmm 0.5) 2,
             Throws (runtime_error did_not_improve)).
Proof.
  assert (Hfinite : lowest <= em_ll SingleState.training_data single_worker
                                (SingleState.hmm 0.5) 1).
  { destruct half_run as [E1 _]. rewrite E1.
    pose proof lowest_negative. pose proof ln_2_bounds. lra. }
  split; [exact loose_uint64|]. split; [exact Hfinite|].
  apply (proj1 (decrease_raises SingleState.training_data single_worker
                  SingleState.loose (SingleState.hmm 0.5)
                  loose_uint64 Hfinite) 2%nat 0%nat).
  - lia.
  - exact half_run_reaches_2.
  - destruct half_run as [E1 E2]. cbn [Nat.sub]. rewrite E1, E2.
    pose proof ln_2_bounds. lra.
Defined.

(** C10.  When [fit] raises, the model it leaves behind is the one the
    failing iteration [i] installed: both parameter sets are those rebuilt
    from the expected counts of iteration [i], computed under the parameters
    of iteration [i - 1], and the accessors read them. *)
Theorem raise_keeps_replaced_parameters {D : Type} `{OD : ObsDist D}
    (instances : training_data_type) (pool : thread_pool)
    (options : training_options) (h h' : hidden_markov_model D)
    (fuel : nat) (e : exception) :
  is_uint64 (max_iters options) ->
  fit fuel h instances pool options = Some (h', Throws e) ->
  exists i : nat,
    (1 <= i)%nat
    /\ old_ll_after instances pool h (i - 1) > em_ll instances pool h i
    /\ let before := em_state instances pool h (i - 1) in
       let counts := aggregate_counts before instances pool in
       h' = fst (expectation_maximization before instances pool)
       /\ observation_distribution h' = od_from_counts (obs_counts counts)
       /\ model_ h' = mm_from_counts (model_counts counts)
       /\ num_states h' = cc_num_states (model_counts counts)
       /\ (forall s, init_prob h' s
                     = initial_probability (mm_from_counts (model_counts counts)) s)
       /\ (forall a b, trans_prob h' a b
                       = transition_probability
                           (mm_from_counts (model_counts counts)) a b).
Proof.
  intros Hmax Hfit.
  destruct (fit_inversion instances pool options h Hmax fuel _ Hfit)
    as [(i & Hi & Hr & Hd & E)|[(i & _ & _ & _ & E)|(m & _ & _ & _ & E)]];
    try discriminate.
  injection E as -> ->.
  exists i. split; [exact Hi|]. split; [exact Hd|].
  destruct i as [|i]; [lia|]. cbn [Nat.sub]. rewrite Nat.sub_0_r.
  cbv zeta. repeat split.
Qed.

(** The run started with P(A) = 1/2 raises in its second iteration and
    leaves a model that emits [A] with probability 1. *)
Lemma raise_keeps_replaced_parameters_witness :
  is_uint64 (max_iters SingleState.loose)
  /\ fit 2 (SingleState.hmm 0.5) SingleState.training_data single_worker
       SingleState.loose
     = Some (em_state SingleState.training_data single_worker
               (SingleState.hmm 0.5) 2,
             Throws (runtime_error did_not_improve))
  /\ cat_prob (observation_distribution (SingleState.hmm 0.5)) 0%nat 0%nat = 0.5
  /\ cat_prob
       (observation_distribution
          (em_state SingleState.training_data single_worker
             (SingleState.hmm 0.5) 2)) 0%nat 0%nat = 1
  /\ exists i : nat,
       (1 <= i)%nat
       /\ em_state SingleState.training_data single_worker
            (SingleState.hmm 0.5) 2
          = fst (expectation_maximization
                   (em_state SingleState.training_data single_worker
                      (SingleState.hmm 0.5) (i - 1))
                   SingleState.training_data single_worker).
Proof.
  split; [exact loose_uint64|]. split; [exact half_run_raises|].
  split; [reflexivity|]. split.
  - apply (single_state_after 0.5 ltac:(lra) 1).
  - destruct (raise_keeps_replaced_parameters SingleState.training_data
                single_worker SingleState.loose (SingleState.hmm 0.5) _ 2 _
                loose_uint64 half_run_raises)
      as (i & Hi & _ & Hst & _).
    exists i. split; [exact Hi | exact Hst].
Defined.

Section Termination.

Context {D : Type} `{OD : ObsDist D}.
Variable instances : training_data_type.
Variable pool : thread_pool.
Variable options : training_options.
Variable h : hidden_markov_model D.

Hypothesis max_iters_uint64 : is_uint64 (max_iters options).
Hypothesis bounded : max_iters options <> uint64_max.

(** With a budget below the largest [uint64_t], fuel beyond the remaining
    budget is never used up. *)
Lemma fit_loop_terminates (fuel n : nat) :
  n = 0%nat \/ budget_allows options n ->
  (Z.to_nat (max_iters options) - n < fuel)%nat ->
  fit_loop fuel instances pool options (em_state instances pool h n)
    (iter_after n) (old_ll_after instances pool h n) <> None.
Proof.
  revert n. induction fuel as [|fuel IH]; intros n Hn Hfuel; [lia|].
  rewrite fit_loop_step by assumption.
  destruct (iter_after n <=? max_iters options)%Z eqn:Ht; [|discriminate].
  apply (budget_test options max_iters_uint64 n Hn) in Ht.
  destruct (Rgt_dec _ _); [discriminate|].
  destruct (Rlt_dec _ _); [discriminate|].
  apply IH; [right; exact Ht|].
  destruct Ht as [E|H]; [contradiction | lia].
Qed.

End Termination.

(** C7 as the specification words it fails in two ways.  With the
    default budget, the largest [uint64_t], no value of the counter ends the
    loop: on a model at a fixed point and [delta = 0] no amount of fuel lets
    [fit] return.  And a change below [delta] does not return when it is a
    decrease: started with P(A) = 1/2 and [delta = 2] the log likelihood
    moves from [2 * ln 2] to 0, by less than [delta], and [fit] raises. *)
Lemma fit_stops_counterexample :
  (is_uint64 (max_iters SingleState.unbounded)
   /\ forall fuel : nat,
        fit fuel (SingleState.hmm 1) SingleState.training_data single_worker
          SingleState.unbounded = None)
  /\ (is_uint64 (max_iters SingleState.loose)
      /\ Rabs (em_ll SingleState.training_data single_worker
                 (SingleState.hmm 0.5) 2
               - em_ll SingleState.training_data single_worker
                   (SingleState.hmm 0.5) 1)
         < delta SingleState.loose
      /\ fit 2 (SingleState.hmm 0.5) SingleState.training_data single_worker
           SingleState.loose
         = Some (em_state SingleState.training_data single_worker
                   (SingleState.hmm 0.5) 2,
                 Throws (runtime_error did_not_improve))).
Proof.
  split; split.
  - exact unbounded_uint64.
  - intros fuel. apply fit_out_of_fuel.
    + exact unbounded_uint64.
    + left. reflexivity.
    + intros k Hk. apply sure_run_continues; [cbn; lra | lia].
  - exact loose_uint64.
  - split; [|exact half_run_raises].
    destruct half_run as [E1 E2]. rewrite E1, E2.
    pose proof ln_2_bounds. cbn [delta SingleState.loose].
    rewrite Rabs_left by lra. lra.
Qed.

(** C7 (amended).  [fit] stops in one of three ways: it returns the log
    likelihood of the first iteration that finds no decrease and a change
    below [delta]; or it raises at the first decrease; or, with an iteration
    budget below the largest [uint64_t] and no iteration up to [max_iters]
    stopping the loop, it returns after exactly [max_iters] iterations the
    last log likelihood ([lowest()] when [max_iters] is 0).  With such a
    budget [fit] terminates within [max_iters] iterations. *)
Theorem fit_terminates_within_budget {D : Type} `{OD : ObsDist D}
    (instances : training_data_type) (pool : thread_pool)
    (options : training_options) (h : hidden_markov_model D) :
  is_uint64 (max_iters options) ->
  let n := Z.to_nat (max_iters options) in
  (forall i fuel : nat,
      (1 <= i)%nat -> reaches instances pool options h i ->
      converges_at instances pool options h i ->
      fit (i + fuel) h instances pool options
      = Some (em_state instances pool h i,
              Returns (em_ll instances pool h i)))
  /\ (forall (fuel : nat) (r : hidden_markov_model D * outcome R),
        fit fuel h instances pool options = Some r ->
        (exists i : nat,
            (1 <= i)%nat /\ reaches instances pool options h i
            /\ converges_at instances pool options h i
            /\ r = (em_state instances pool h i,
                    Returns (em_ll instances pool h i)))
        \/ (max_iters options <> uint64_max
            /\ (forall k, (1 <= k <= n)%nat ->
                   continues instances pool options h k)
            /\ r = (em_state instances pool h n,
                    Returns (old_ll_after instances pool h n)))
        \/ (exists i : nat,
               (1 <= i)%nat /\ reaches instances pool options h i
               /\ decreases_at instances pool h i
               /\ r = (em_state instances pool h i,
                       Throws (runtime_error did_not_improve))))
  /\ (max_iters options <> uint64_max ->
      (forall fuel : nat, (n < fuel)%nat ->
         fit fuel h instances pool options <> None)
      /\ (forall i : nat, reaches instances pool options h i -> (i <= n)%nat)
      /\ (forall fuel : nat,
            (forall k, (1 <= k <= n)%nat ->
               continues instances pool options h k) ->
            fit (S n + fuel) h instances pool options
            = Some (em_state instances pool h n,
                    Returns (old_ll_after instances pool h n)))).
Proof.
  intros Hmax n.
  assert (Hn : Z.of_nat n = max_iters options).
  { unfold n. apply Z2Nat.id. apply Hmax. }
  split; [|split].
  - intros i fuel Hi Hr Hc. apply fit_converge; assumption.
  - intros fuel r Hfit.
    destruct (fit_inversion instances pool options h Hmax fuel r Hfit)
      as [(i & Hi & Hr & Hd & E)|[(i & Hi & Hr & Hc & E)|(m & Hm & Hb & Hc & E)]].
    + right. right. exists i.
      split; [lia|]. split; [exact Hr|]. split; [exact Hd | exact E].
    + left. exists i.
      split; [lia|]. split; [exact Hr|]. split; [exact Hc | exact E].
    + right. left. assert (m = n) by lia. subst m.
      split; [exact Hb|]. split; assumption.
  - intros Hbounded. split; [|split].
    + intros fuel Hfuel. unfold fit.
      apply (fit_loop_terminates instances pool options h Hmax Hbounded fuel 0).
      * left. reflexivity.
      * fold n. lia.
    + intros i [[E|H] _]; [contradiction | lia].
    + intros fuel Hc. apply fit_exhausted; assumption.
Qed.

(** With the default options a model at a fixed point converges in the
    second iteration. *)
Lemma fit_terminates_within_budget_witness :
  is_uint64 (max_iters default_options)
  /\ fit 2 (SingleState.hmm 1) SingleState.training_data single_worker
       default_options
     = Some (em_state SingleState.training_data single_worker
               (SingleState.hmm 1) 2,
             Returns 0).
Proof.
  assert (Hd : is_uint64 (max_iters default_options))
    by (cbv; split; discriminate).
  split; [exact Hd|].
  rewrite <- (sure_run 1).
  apply (proj1 (fit_terminates_within_budget SingleState.training_data
                  single_worker default_options (SingleState.hmm 1) Hd)
           2%nat 0%nat).
  - lia.
  - split; [left; reflexivity|].
    intros k Hk. replace k with 1%nat by lia.
    unfold continues. cbn [Nat.sub old_ll_after]. rewrite (sure_run 0).
    pose proof lowest_below_minus_one. cbn [delta default_options].
    split; lra.
  - unfold converges_at, decreases_at. cbn [Nat.sub old_ll_after].
    rewrite (sure_run 1), (sure_run 0). cbn [delta default_options].
    rewrite Rminus_diag, Rabs_R0. split; lra.
Defined.

(** With a budget of three iterations and [delta = 0] the same model uses
    the budget up. *)
Lemma three_iterations_run :
  fit 4 (SingleState.hmm 1) SingleState.training_data single_worker
    SingleState.three_iterations
  = Some (em_state SingleState.training_data single_worker
            (SingleState.hmm 1) 3,
          Returns 0).
Proof.
  rewrite <- (sure_run 2).
  apply (fit_exhausted SingleState.training_data single_worker
           SingleState.three_iterations (SingleState.hmm 1) three_uint64 3 0).
  - reflexivity.
  - cbv. discriminate.
  - intros k Hk. apply sure_run_continues; [cbn; lra | lia].
Qed.

(** * The state-count invariant *)

Section StateCount.

Context {D : Type} `{OD : ObsDist D} `{Laws : !ObsDistLaws D}.

Lemma aggregate_counts_shaped (h : hidden_markov_model D)
    (instances : training_data_type) (pool : thread_pool) :
  ec_shaped h (aggregate_counts h instances pool).
Proof.
  unfold aggregate_counts, reduction.
  destruct (pool instances) as [|first rest]; [apply ec_shaped_zero|].
  cbn [map].
  assert (Hfirst : ec_shaped h
            (fold_left (accumulate_sequence h) first
               (new_expected_counts (obs_dist_ h) (model_ h))))
    by apply fold_accumulate_shaped, ec_shaped_zero.
  revert Hfirst. generalize (fold_left (accumulate_sequence h) first
                               (new_expected_counts (obs_dist_ h) (model_ h))).
  induction rest as [|r rest IH]; intros acc Hacc; cbn [map fold_left].
  - exact Hacc.
  - apply IH. apply ec_shaped_plus; [exact Hacc|].
    apply fold_accumulate_shaped, ec_shaped_zero.
Qed.

(** One iteration keeps both state counts. *)
Lemma expectation_maximization_states (h : hidden_markov_model D)
    (instances : training_data_type) (pool : thread_pool) :
  let h' := fst (expectation_maximization h instances pool) in
  od_num_states (obs_dist_ h') = od_num_states (obs_dist_ h)
  /\ num_states h' = num_states h.
Proof.
  destruct (aggregate_counts_shaped h instances pool) as [H1 H2].
  cbn. split.
  - apply od_from_counts_states. exact H1.
  - exact H2.
Qed.

Lemma em_state_states (h : hidden_markov_model D)
    (instances : training_data_type) (pool : thread_pool) (n : nat) :
  od_num_states (obs_dist_ (em_state instances pool h n))
  = od_num_states (obs_dist_ h)
  /\ num_states (em_state instances pool h n) = num_states h.
Proof.
  induction n as [|n [IH1 IH2]].
  - split; reflexivity.
  - cbn [em_state].
    destruct (expectation_maximization_states
                (em_state instances pool h n) instances pool) as [H1 H2].
    split; congruence.
Qed.

End StateCount.

(** C9.  Each of the two constructors that take an observation distribution
    raises the configuration error exactly when the distribution's state
    count differs from the requested one.  A model they return has the
    requested state count in both its observation distribution and its
    chain, and so has every model that [fit] leaves behind, whether it
    returns or raises. *)
Theorem constructors_fix_state_count {D : Type} `{OD : ObsDist D}
    `{Laws : !ObsDistLaws D}
    (K : nat) (rng : generator) (obs_dist : D) (trans_prior : dirichlet) :
  (make_random K rng obs_dist trans_prior
   = Throws (hmm_exception differing_states)
   <-> od_num_states obs_dist <> K)
  /\ (make_uniform K obs_dist trans_prior
      = Throws (hmm_exception differing_states)
      <-> od_num_states obs_dist <> K)
  /\ (forall h : hidden_markov_model D,
        make_random K rng obs_dist trans_prior = Returns h
        \/ make_uniform K obs_dist trans_prior = Returns h ->
        (od_num_states (obs_dist_ h) = K /\ num_states h = K)
        /\ (forall instances pool,
              let h' := fst (expectation_maximization h instances pool) in
              od_num_states (obs_dist_ h') = K /\ num_states h' = K)
        /\ (forall fuel instances pool options h' out,
              is_uint64 (max_iters options) ->
              fit fuel h instances pool options = Some (h', out) ->
              od_num_states (obs_dist_ h') = K /\ num_states h' = K)).
Proof.
  assert (Hcases :
    forall model : markov_model,
      mm_num_states model = K ->
      let made :=
        if negb (od_num_states obs_dist =? K)%nat
        then Throws (hmm_exception differing_states)
        else Returns {| obs_dist_ := obs_dist; model_ := model |} in
      (made = Throws (hmm_exception differing_states)
       <-> od_num_states obs_dist <> K)
      /\ forall h, made = Returns h ->
           od_num_states (obs_dist_ h) = K /\ num_states h = K).
  { intros model HK made. unfold made.
    destruct (Nat.eqb_spec (od_num_states obs_dist) K) as [E|NE]; cbn [negb].
    - split.
      + split; [discriminate | contradiction].
      + intros h0 Hh. injection Hh as <-. split; [exact E | exact HK].
    - split.
      + split; [intros _; exact NE | reflexivity].
      + intros h0 Hh. discriminate. }
  destruct (Hcases (mm_random K rng trans_prior) eq_refl) as [R1 R2].
  destruct (Hcases (mm_uniform K trans_prior) eq_refl) as [U1 U2].
  split; [exact R1|]. split; [exact U1|].
  intros h0 Hmade.
  assert (Hinv : od_num_states (obs_dist_ h0) = K /\ num_states h0 = K).
  { destruct Hmade as [Hm|Hm]; [apply R2 | apply U2]; exact Hm. }
  destruct Hinv as [I1 I2].
  split; [split; assumption|]. split.
  - intros instances pool.
    destruct (expectation_maximization_states h0 instances pool) as [H1 H2].
    cbv zeta. split; congruence.
  - intros fuel instances pool options h' out Hmax Hfit.
    assert (Hst : exists n, h' = em_state instances pool h0 n).
    { destruct (fit_inversion instances pool options h0 Hmax fuel _ Hfit)
        as [(i & _ & _ & _ & E)|[(i & _ & _ & _ & E)|(m & _ & _ & _ & E)]];
        injection E as -> _; eexists; reflexivity. }
    destruct Hst as [n ->].
    destruct (em_state_states h0 instances pool n) as [H1 H2].
    split; congruence.
Qed.

Lemma constructors_fix_state_count_witness :
  make_uniform 2 Scenario.emissions (fun _ => 1)
  = Returns {| obs_dist_ := Scenario.emissions;
               model_ := mm_uniform 2 (fun _ => 1) |}
  /\ make_uniform 3 Scenario.emissions (fun _ => 1)
     = Throws (hmm_exception differing_states)
  /\ num_states
       (fst (expectation_maximization
               {| obs_dist_ := Scenario.emissions;
                  model_ := mm_uniform 2 (fun _ => 1) |}
               Scenario.training_data single_worker)) = 2%nat.
Proof.
  set (rng := {| drawn_initial := fun _ => 1;
                 drawn_transition := fun _ _ => 1 |}).
  set (made := {| obs_dist_ := Scenario.emissions;
                  model_ := mm_uniform 2 (fun _ => 1) |}).
  assert (Hmade : make_uniform 2 Scenario.emissions (fun _ => 1) = Returns made)
    by reflexivity.
  split; [exact Hmade|]. split.
  - apply (proj1 (proj2 (constructors_fix_state_count 3 rng
                           Scenario.emissions (fun _ => 1)))).
    cbn. lia.
  - apply (proj1 (proj2 (proj2 (proj2 (constructors_fix_state_count 2 rng
                           Scenario.emissions (fun _ => 1)))
                     made (or_intror Hmade)))).
Defined.


(** * Further properties of the cache, the posteriors and the counts *)

(** The cache of [output_probabilities] holds, for every time step and
    state, the probability the observation distribution gives the
    observation of that time step in that state; no cell outside the
    [T x K] table is written. *)
Theorem output_cache_holds_emission_probabilities {D : Type} `{OD : ObsDist D}
    (h : hidden_markov_model D) (sq : sequence_type) :
  (forall t s o,
      nth_error sq t = Some o -> (s < num_states h)%nat ->
      output_probabilities h sq t s = probability (obs_dist_ h) o s)
  /\ (forall r c,
        (length sq <= r)%nat \/ (num_states h <= c)%nat ->
        output_probabilities h sq r c = zero_matrix r c).
Proof.
  split.
  - intros t s o Ho Hs. apply output_probabilities_spec; assumption.
  - intros r c Hout. unfold output_probabilities.
    rewrite output_probabilities_loop by lia.
    destruct (Nat.ltb_spec r (length sq)), (Nat.ltb_spec c (num_states h));
      try reflexivity.
    lia.
Qed.

Lemma sum_upto_le (n : nat) (f g : nat -> R) :
  (forall i, (i < n)%nat -> f i <= g i) -> sum_upto n f <= sum_upto n g.
Proof.
  induction n as [|n IH]; intros H.
  - rewrite !sum_upto_0. lra.
  - rewrite !sum_upto_S.
    assert (sum_upto n f <= sum_upto n g) by (apply IH; intros; apply H; lia).
    assert (f n <= g n) by (apply H; lia). lra.
Qed.

(** One term of a sum of non-negative terms is at most the sum. *)
Lemma sum_upto_term_le (n : nat) (f : nat -> R) (s : nat) :
  (forall i, (i < n)%nat -> 0 <= f i) -> (s < n)%nat -> f s <= sum_upto n f.
Proof.
  intros Hf Hs.
  assert (Hs' : f s = sum_upto n (fun k => if (k =? s)%nat then f s else 0)).
  { rewrite sum_upto_indicator. destruct (Nat.ltb_spec s n); [reflexivity|lia]. }
  rewrite Hs' at 1.
  apply sum_upto_le. intros i Hi.
  destruct (Nat.eqb_spec i s) as [->|_]; [lra | apply Hf, Hi].
Qed.

(** Where both trellises are non-negative and their products do not all
    vanish, the posteriors of a time step are a probability distribution
    over the states. *)
Theorem posterior_is_distribution {D : Type} `{OD : ObsDist D}
    (h : hidden_markov_model D) (fwd : forward_trellis) (bwd : trellis)
    (t : nat) :
  (t < ft_size fwd)%nat ->
  (forall s, (s < num_states h)%nat -> 0 <= ft_probability fwd t s) ->
  (forall s, (s < num_states h)%nat -> 0 <= tr_probability bwd t s) ->
  0 < sum_upto (num_states h)
        (fun i => ft_probability fwd t i * tr_probability bwd t i) ->
  sum_upto (num_states h) (fun s => posterior_state_membership h fwd bwd t s)
  = 1
  /\ forall s, (s < num_states h)%nat ->
       0 <= posterior_state_membership h fwd bwd t s <= 1.
Proof.
  intros Ht Hf Hg Hpos. split.
  - apply posterior_sums_to_one; [exact Ht | lra].
  - intros s Hs. rewrite posterior_state_membership_spec by assumption.
    set (p := fun i => ft_probability fwd t i * tr_probability bwd t i) in *.
    change (ft_probability fwd t s * tr_probability bwd t s) with (p s).
    change (0 < sum_upto (num_states h) p) in Hpos.
    assert (Hp : forall i, (i < num_states h)%nat -> 0 <= p i).
    { intros i Hi. apply Rmult_le_pos; [apply Hf | apply Hg]; exact Hi. }
    pose proof (sum_upto_term_le (num_states h) p s Hp Hs) as Hle.
    pose proof (Hp s Hs) as H0.
    split.
    + apply Rmult_le_pos; [exact H0|]. apply Rlt_le, Rinv_0_lt_compat, Hpos.
    + replace 1 with (sum_upto (num_states h) p / sum_upto (num_states h) p)
        by (field; lra).
      apply Rmult_le_compat_r; [|exact Hle].
      apply Rlt_le, Rinv_0_lt_compat, Hpos.
Qed.

Lemma posterior_is_distribution_witness :
  (0 < ft_size Scenario.fwd)%nat
  /\ sum_upto 2 (fun s => Scenario.gamma 0%nat s) = 1.
Proof.
  assert (Hsize : (0 < ft_size Scenario.fwd)%nat) by (cbv; lia).
  split; [exact Hsize|].
  destruct scenario_forward as (F00 & F01 & _).
  destruct scenario_backward as (B00 & B01).
  refine (proj1 (posterior_is_distribution Scenario.hmm Scenario.fwd
                   Scenario.bwd 0 Hsize _ _ _)).
  - intros s Hs. change (num_states Scenario.hmm) with 2%nat in Hs.
    destruct s as [|[|s]]; [rewrite F00 | rewrite F01 | lia]; lra.
  - intros s Hs. change (num_states Scenario.hmm) with 2%nat in Hs.
    destruct s as [|[|s]]; [rewrite B00 | rewrite B01 | lia]; lra.
  - change (num_states Scenario.hmm) with 2%nat.
    cbv [sum_upto for_range seq fold_left]. rewrite F00, F01, B00, B01. lra.
Defined.

(** The posteriors of a time step do not change when the column of either
    trellis is multiplied by a non-zero constant: the explicit
    renormalization absorbs any per-column scaling. *)
Theorem posterior_ignores_column_scaling {D : Type} `{OD : ObsDist D}
    (h : hidden_markov_model D) (fwd fwd' : forward_trellis)
    (bwd bwd' : trellis) (t : nat) (a c : R) :
  (t < ft_size fwd)%nat -> (t < ft_size fwd')%nat ->
  a <> 0 -> c <> 0 ->
  (forall s, (s < num_states h)%nat ->
     ft_probability fwd' t s = a * ft_probability fwd t s) ->
  (forall s, (s < num_states h)%nat ->
     tr_probability bwd' t s = c * tr_probability bwd t s) ->
  sum_upto (num_states h)
    (fun i => ft_probability fwd t i * tr_probability bwd t i) <> 0 ->
  forall s, (s < num_states h)%nat ->
    posterior_state_membership h fwd' bwd' t s
    = posterior_state_membership h fwd bwd t s.
Proof.
  intros Ht Ht' Ha Hc Hf Hg Hnz s Hs.
  rewrite !posterior_state_membership_spec by assumption.
  rewrite (sum_upto_ext _ _
             (fun i => (a * c) * (ft_probability fwd t i
                                  * tr_probability bwd t i))).
  - rewrite sum_upto_scal_l, Hf, Hg by assumption. field.
    repeat split; assumption.
  - intros i Hi. rewrite Hf, Hg by assumption. ring.
Qed.

Lemma posterior_ignores_column_scaling_witness :
  (2 : R) <> 0
  /\ posterior_state_membership Scenario.hmm Scenario.fwd
       {| tr_size := tr_size Scenario.bwd; tr_labels := tr_labels Scenario.bwd;
          tr_cells := fun r c => 2 * tr_cells Scenario.bwd r c |} 0%nat 0%nat
     = Scenario.gamma 0%nat 0%nat.
Proof.
  assert (H2 : (2 : R) <> 0) by lra.
  assert (H1 : (1 : R) <> 0) by lra.
  split; [exact H2|].
  destruct scenario_forward as (F00 & F01 & _).
  destruct scenario_backward as (B00 & B01).
  apply (posterior_ignores_column_scaling Scenario.hmm Scenario.fwd
           Scenario.fwd Scenario.bwd _ 0 1 2).
  - cbv. lia.
  - cbv. lia.
  - exact H1.
  - exact H2.
  - intros s _. lra.
  - intros s _. reflexivity.
  - change (num_states Scenario.hmm) with 2%nat.
    cbv [sum_upto for_range seq fold_left]. rewrite F00, F01, B00, B01. lra.
  - cbv. lia.
Defined.

(** At the last time step, where the backward column is 1, the posterior
    is the forward column divided by its sum. *)
Theorem last_posterior_is_forward_column {D : Type} `{OD : ObsDist D}
    (h : hidden_markov_model D) (sq : sequence_type) (fwd : forward_trellis)
    (b : dense_matrix) (s : state_id) :
  sq <> [] -> ft_size fwd = length sq -> (s < num_states h)%nat ->
  posterior_state_membership h fwd (backward h sq fwd b) (length sq - 1)%nat s
  = ft_probability fwd (length sq - 1)%nat s
    / sum_upto (num_states h) (fun i => ft_probability fwd (length sq - 1)%nat i).
Proof.
  intros Hne Hsize Hs.
  pose proof (nonempty_length sq Hne) as Hlen.
  destruct (backward_columns h b fwd sq Hne) as (Hlast & _ & _).
  rewrite posterior_state_membership_spec by (try assumption; lia).
  rewrite (Hlast s Hs).
  rewrite (sum_upto_ext _ _ (fun i => ft_probability fwd (length sq - 1)%nat i)).
  - f_equal. ring.
  - intros i Hi. rewrite (Hlast i Hi). ring.
Qed.

Lemma last_posterior_is_forward_column_witness :
  Scenario.AB <> []
  /\ Scenario.gamma 1%nat 0%nat
     = ft_probability Scenario.fwd 1 0
       / sum_upto 2 (fun i => ft_probability Scenario.fwd 1 i).
Proof.
  assert (Hne : Scenario.AB <> []) by discriminate.
  split; [exact Hne|].
  apply (last_posterior_is_forward_column Scenario.hmm Scenario.AB
           Scenario.fwd Scenario.b 0%nat Hne).
  - reflexivity.
  - cbv. lia.
Defined.

Lemma sum_upto_plus (n : nat) (f g : nat -> R) :
  sum_upto n (fun i => f i + g i) = sum_upto n f + sum_upto n g.
Proof.
  induction n as [|n IH].
  - rewrite !sum_upto_0. lra.
  - rewrite !sum_upto_S, IH. lra.
Qed.

Lemma sum_upto_swap (n m : nat) (f : nat -> nat -> R) :
  sum_upto n (fun i => sum_upto m (fun j => f i j))
  = sum_upto m (fun j => sum_upto n (fun i => f i j)).
Proof.
  induction n as [|n IH].
  - rewrite sum_upto_0. symmetry. apply sum_upto_zero.
  - rewrite sum_upto_S, IH, <- sum_upto_plus.
    apply sum_upto_ext. intros j _. rewrite sum_upto_S. reflexivity.
Qed.

Section TransitionWeights.

Context {D : Type} `{OD : ObsDist D}.
Variable h : hidden_markov_model D.
Variable sq : sequence_type.

Let b := output_probabilities h sq.
Let fwd := forward h sq b.
Let bwd := backward h sq fwd b.
Let gamma := posterior_state_membership h fwd bwd.

(** The transition weights leaving a state at one time step. *)
Lemma xi_row_sum (t : nat) (i : state_id) :
  sq <> [] -> (t + 1 < length sq)%nat -> (i < num_states h)%nat ->
  tr_probability bwd t i <> 0 ->
  sum_upto (num_states h) (fun j => xi_tij h gamma b fwd bwd t i j)
  = gamma t i.
Proof.
  intros Hne Ht Hi Hnz.
  destruct (backward_columns h b fwd sq Hne) as (_ & Hcol & _).
  pose proof (Hcol t Ht i Hi) as Hrec. fold bwd in Hrec.
  rewrite (sum_upto_ext _ _
             (fun j => (gamma t i * normalizer fwd (t + 1)
                        / tr_probability bwd t i)
                       * (tr_probability bwd (t + 1) j * trans_prob h i j
                          * b (t + 1)%nat j))).
  - rewrite sum_upto_scal_l.
    set (total := sum_upto (num_states h)
                    (fun j => tr_probability bwd (t + 1) j * trans_prob h i j
                              * b (t + 1)%nat j)) in *.
    transitivity (gamma t i * (normalizer fwd (t + 1) * total)
                  / tr_probability bwd t i); [field; exact Hnz|].
    rewrite <- Hrec. field. exact Hnz.
  - intros j _. unfold xi_tij. field. exact Hnz.
Qed.

End TransitionWeights.

(** The weights [xi(t, i, j)] the expectation step adds for the transitions
    leaving state [i] at time [t] sum over [j] to the posterior
    [gamma(t, i)], wherever the backward cell it divides by is not zero; so
    the row [i] of the transition counts gains the posteriors of [i] at all
    time steps but the last. *)
Theorem transition_weights_sum_to_posterior {D : Type} `{OD : ObsDist D}
    (h : hidden_markov_model D) (sq : sequence_type)
    (counts : expected_counts D) (i : state_id) :
  let b := output_probabilities h sq in
  let fwd := forward h sq b in
  let bwd := backward h sq fwd b in
  let gamma := posterior_state_membership h fwd bwd in
  sq <> [] -> (i < num_states h)%nat ->
  (forall t, (t + 1 < length sq)%nat -> tr_probability bwd t i <> 0) ->
  (forall t, (t + 1 < length sq)%nat ->
     sum_upto (num_states h) (fun j => xi_tij h gamma b fwd bwd t i j)
     = gamma t i)
  /\ sum_upto (num_states h)
       (fun j =>
          trans_count (model_counts (accumulate_sequence h counts sq)) i j
          - trans_count (model_counts counts) i j)
     = sum_upto (length sq - 1) (fun t => gamma t i).
Proof.
  intros b fwd bwd gamma Hne Hi Hnz.
  assert (Hrow : forall t, (t + 1 < length sq)%nat ->
            sum_upto (num_states h) (fun j => xi_tij h gamma b fwd bwd t i j)
            = gamma t i).
  { intros t Ht. apply xi_row_sum; auto. }
  split; [exact Hrow|].
  rewrite (sum_upto_ext _ _
             (fun j => sum_upto (length sq - 1)
                         (fun t => xi_tij h gamma b fwd bwd t i j))).
  - rewrite <- sum_upto_swap. apply sum_upto_ext.
    intros t Ht. apply Hrow. lia.
  - intros j Hj. rewrite accumulate_trans_count.
    destruct (Nat.ltb_spec i (num_states h)); [|lia].
    destruct (Nat.ltb_spec j (num_states h)); [|lia].
    cbn [andb]. fold b fwd bwd gamma. lra.
Qed.

Lemma transition_weights_sum_to_posterior_witness :
  Scenario.ABA <> []
  /\ sum_upto 2
       (fun j => xi_tij Scenario.hmm Scenario.gamma3 Scenario.b3 Scenario.fwd3
                   Scenario.bwd3 0 0 j)
     = Scenario.gamma3 0%nat 0%nat.
Proof.
  assert (Hne : Scenario.ABA <> []) by discriminate.
  split; [exact Hne|].
  assert (Hi : (0 < num_states Scenario.hmm)%nat) by (cbv; lia).
  assert (Hnz : forall t, (t + 1 < length Scenario.ABA)%nat ->
            tr_probability Scenario.bwd3 t 0 <> 0).
  { intros t Ht. change (length Scenario.ABA) with 3%nat in Ht.
    destruct scenario3_backward as (_ & _ & B10 & _ & B00 & _).
    destruct t as [|[|t]]; [rewrite B00 | rewrite B10 | lia]; lra. }
  refine (proj1 (transition_weights_sum_to_posterior Scenario.hmm Scenario.ABA
                   (new_expected_counts Scenario.emissions Scenario.chain)
                   0%nat Hne Hi Hnz) 0%nat _).
  cbv. lia.
Defined.

(** A sequence whose first posterior column is defined adds a total of 1
    to the initial-state counts. *)
Theorem initial_counts_gain_one {D : Type} `{OD : ObsDist D}
    (h : hidden_markov_model D) (sq : sequence_type)
    (counts : expected_counts D) :
  let b := output_probabilities h sq in
  let fwd := forward h sq b in
  let bwd := backward h sq fwd b in
  sq <> [] ->
  sum_upto (num_states h)
    (fun s => ft_probability fwd 0 s * tr_probability bwd 0 s) <> 0 ->
  sum_upto (num_states h)
    (fun s =>
       initial_count (model_counts (accumulate_sequence h counts sq)) s
       - initial_count (model_counts counts) s)
  = 1.
Proof.
  intros b fwd bwd Hne Hnz.
  pose proof (nonempty_length sq Hne) as Hlen.
  destruct (forward_columns h b sq) as (_ & Hsize & _). fold fwd in Hsize.
  rewrite <- (posterior_sums_to_one h fwd bwd 0) by (try exact Hnz; lia).
  apply sum_upto_ext. intros s Hs.
  rewrite accumulate_initial_count.
  destruct (Nat.ltb_spec s (num_states h)); [|lia].
  fold b fwd bwd. lra.
Qed.

Lemma initial_counts_gain_one_witness :
  Scenario.AB <> []
  /\ sum_upto 2
       (fun s =>
          initial_count
            (model_counts
               (accumulate_sequence Scenario.hmm
                  (new_expected_counts Scenario.emissions Scenario.chain)
                  Scenario.AB)) s
          - 0)
     = 1.
Proof.
  assert (Hne : Scenario.AB <> []) by discriminate.
  split; [exact Hne|].
  apply (initial_counts_gain_one Scenario.hmm Scenario.AB
           (new_expected_counts Scenario.emissions Scenario.chain) Hne).
  destruct scenario_forward as (F00 & F01 & _).
  destruct scenario_backward as (B00 & B01).
  change (num_states Scenario.hmm) with 2%nat.
  cbv [sum_upto for_range seq fold_left].
  change (forward Scenario.hmm Scenario.AB
            (output_probabilities Scenario.hmm Scenario.AB))
    with Scenario.fwd.
  change (backward Scenario.hmm Scenario.AB Scenario.fwd
            (output_probabilities Scenario.hmm Scenario.AB))
    with Scenario.bwd.
  rewrite F00, F01, B00, B01. lra.
Defined.


(** * Further properties of the training loop *)

Lemma sum_list_perm (l l' : list R) :
  Permutation l l' -> sum_list l = sum_list l'.
Proof.
  induction 1 as [|x l l' _ IH|x y l|l l' l'' _ IH1 _ IH2].
  - reflexivity.
  - change (x + sum_list l = x + sum_list l'). rewrite IH. reflexivity.
  - change (y + (x + sum_list l) = x + (y + sum_list l)). lra.
  - congruence.
Qed.

Section DataLogLikelihood.

Context {D : Type} `{OD : ObsDist D}.
Variable h : hidden_markov_model D.

Lemma fold_accumulate_log_likelihood (block : training_data_type)
    (counts : expected_counts D) :
  log_likelihood (fold_left (accumulate_sequence h) block counts)
  = log_likelihood counts + sum_list (map (sequence_log_likelihood h) block).
Proof.
  revert counts. induction block as [|sq block IH]; intros counts.
  - simpl. lra.
  - cbn [fold_left map]. rewrite IH, accumulate_log_likelihood.
    change (sum_list (?x :: ?l)) with (x + sum_list l). lra.
Qed.

Lemma fold_plus_log_likelihood (rest : list (expected_counts D))
    (first : expected_counts D) :
  log_likelihood (fold_left ec_plus rest first)
  = log_likelihood first + sum_list (map log_likelihood rest).
Proof.
  revert first. induction rest as [|r rest IH]; intros first.
  - simpl. lra.
  - cbn [fold_left map]. rewrite IH. cbn [ec_plus log_likelihood].
    change (sum_list (?x :: ?l)) with (x + sum_list l). lra.
Qed.

(** The merged accumulator holds the log likelihoods of all sequences of
    all blocks. *)
Lemma reduction_log_likelihood (blocks : list training_data_type)
    (zero : expected_counts D) :
  log_likelihood zero = 0 ->
  log_likelihood (reduction blocks zero (accumulate_sequence h) ec_plus)
  = sum_list (map (sequence_log_likelihood h) (concat blocks)).
Proof.
  intros Hz. unfold reduction.
  destruct blocks as [|block blocks]; [exact Hz|].
  cbn [map concat]. rewrite fold_plus_log_likelihood.
  rewrite fold_accumulate_log_likelihood, Hz, map_app, sum_list_app.
  rewrite Rplus_0_l. f_equal.
  induction blocks as [|block' blocks IH]; [reflexivity|].
  cbn [map concat]. rewrite map_app, sum_list_app, <- IH.
  change (sum_list (?x :: ?l)) with (x + sum_list l).
  rewrite fold_accumulate_log_likelihood, Hz. lra.
Qed.

Lemma expectation_maximization_log_likelihood
    (instances : training_data_type) (pool : thread_pool) :
  Permutation (concat (pool instances)) instances ->
  snd (expectation_maximization h instances pool)
  = data_log_likelihood h instances.
Proof.
  intros Hperm. unfold expectation_maximization, aggregate_counts.
  cbn [snd]. rewrite reduction_log_likelihood by reflexivity.
  unfold data_log_likelihood.
  apply sum_list_perm, Permutation_map, Hperm.
Qed.

End DataLogLikelihood.

(** However the pool splits the training set among its workers, as long as
    every sequence is handed out exactly once, the log likelihood that
    [expectation_maximization] returns is the sum over the sequences of the
    negated logarithms of their scale factors, computed with the parameters
    the model had before the update. *)
Theorem em_log_likelihood_sums_sequences {D : Type} `{OD : ObsDist D}
    (h : hidden_markov_model D) (instances : training_data_type)
    (pool : thread_pool) :
  Permutation (concat (pool instances)) instances ->
  snd (expectation_maximization h instances pool)
  = sum_list (map (sequence_log_likelihood h) instances).
Proof. apply expectation_maximization_log_likelihood. Qed.

Lemma em_log_likelihood_sums_sequences_witness :
  Permutation (concat (worker_per_sequence Scenario.training_data))
    Scenario.training_data
  /\ snd (expectation_maximization Scenario.hmm Scenario.training_data
            worker_per_sequence)
     = sum_list (map (sequence_log_likelihood Scenario.hmm)
                   Scenario.training_data).
Proof.
  assert (Hperm : Permutation
                    (concat (worker_per_sequence Scenario.training_data))
                    Scenario.training_data) by apply perm_swap.
  split; [exact Hperm|].
  exact (em_log_likelihood_sums_sequences Scenario.hmm Scenario.training_data
           worker_per_sequence Hperm).
Defined.

(** With [max_iters = 0] the loop body never runs: [fit] leaves the model
    as it is and returns the initial [old_ll], the most negative double. *)
Theorem fit_zero_budget {D : Type} `{OD : ObsDist D} (fuel : nat)
    (h : hidden_markov_model D) (instances : training_data_type)
    (pool : thread_pool) (options : training_options) :
  max_iters options = 0%Z ->
  fit (S fuel) h instances pool options = Some (h, Returns lowest).
Proof.
  intros Hmax. unfold fit. cbn [fit_loop]. rewrite Hmax. reflexivity.
Qed.

Lemma fit_zero_budget_witness :
  max_iters no_iterations = 0%Z
  /\ fit 1 Scenario.hmm Scenario.training_data single_worker no_iterations
     = Some (Scenario.hmm, Returns lowest).
Proof.
  assert (Hmax : max_iters no_iterations = 0%Z) by reflexivity.
  split; [exact Hmax|].
  exact (fit_zero_budget 0 Scenario.hmm Scenario.training_data single_worker
           no_iterations Hmax).
Defined.

(** A call of [fit] that returns has seen the log likelihood never decrease:
    it returns after some number [n] of iterations, and every one of them
    found a log likelihood at least as large as the one before (the first
    one at least the most negative double). *)
Theorem fit_return_certifies_monotone {D : Type} `{OD : ObsDist D}
    (fuel : nat) (h h' : hidden_markov_model D)
    (instances : training_data_type) (pool : thread_pool)
    (options : training_options) (ll : R) :
  is_uint64 (max_iters options) ->
  fit fuel h instances pool options = Some (h', Returns ll) ->
  exists n,
    h' = em_state instances pool h n
    /\ ll = old_ll_after instances pool h n
    /\ forall k, (1 <= k <= n)%nat ->
         old_ll_after instances pool h (k - 1) <= em_ll instances pool h k.
Proof.
  intros Hmax Hfit.
  destruct (fit_inversion instances pool options h Hmax fuel _ Hfit)
    as [(i & _ & _ & _ & E) | [(i & Hi & [_ Hc] & [Hnd _] & E)
                              | (m & _ & _ & Hc & E)]].
  - discriminate.
  - injection E as -> ->. exists i.
    split; [reflexivity|]. split; [destruct i; [lia | reflexivity]|].
    intros k Hk. destruct (Nat.eq_dec k i) as [->|Hne].
    + unfold decreases_at in Hnd. lra.
    + destruct (Hc k ltac:(lia)) as [Hk1 _]. lra.
  - injection E as -> ->. exists m.
    split; [reflexivity|]. split; [reflexivity|].
    intros k Hk. destruct (Hc k Hk) as [Hk1 _]. lra.
Qed.

Lemma fit_return_certifies_monotone_witness :
  is_uint64 (max_iters SingleState.three_iterations)
  /\ exists n,
       em_state SingleState.training_data single_worker (SingleState.hmm 1) 3
       = em_state SingleState.training_data single_worker (SingleState.hmm 1) n
       /\ 0 = old_ll_after SingleState.training_data single_worker
                (SingleState.hmm 1) n
       /\ forall k, (1 <= k <= n)%nat ->
            old_ll_after SingleState.training_data single_worker
              (SingleState.hmm 1) (k - 1)
            <= em_ll SingleState.training_data single_worker
                 (SingleState.hmm 1) k.
Proof.
  split; [exact three_uint64|].
  exact (fit_return_certifies_monotone 4 (SingleState.hmm 1) _
           SingleState.training_data single_worker
           SingleState.three_iterations 0 three_uint64 three_iterations_run).
Defined.

(** With [delta <= 0] the convergence test never succeeds: a call of [fit]
    that returns has used up its whole iteration budget, which is then not
    the largest [uint64_t]. *)
Theorem nonpositive_delta_runs_full_budget {D : Type} `{OD : ObsDist D}
    (fuel : nat) (h h' : hidden_markov_model D)
    (instances : training_data_type) (pool : thread_pool)
    (options : training_options) (ll : R) :
  is_uint64 (max_iters options) ->
  delta options <= 0 ->
  fit fuel h instances pool options = Some (h', Returns ll) ->
  max_iters options <> uint64_max
  /\ h' = em_state instances pool h (Z.to_nat (max_iters options))
  /\ ll = old_ll_after instances pool h (Z.to_nat (max_iters options)).
Proof.
  intros Hmax Hdelta Hfit.
  destruct (fit_inversion instances pool options h Hmax fuel _ Hfit)
    as [(i & _ & _ & _ & E) | [(i & Hi & _ & Hc & E)
                              | (m & Hm & Hne & _ & E)]].
  - discriminate.
  - exfalso. destruct i as [|i]; [lia|].
    apply (converges_iff instances pool options h) in Hc.
    destruct Hc as [Hnd Hlt]. lra.
  - injection E as -> ->. split; [exact Hne|].
    rewrite <- Hm, Nat2Z.id. split; reflexivity.
Qed.

Lemma nonpositive_delta_runs_full_budget_witness :
  is_uint64 (max_iters SingleState.three_iterations)
  /\ delta SingleState.three_iterations <= 0
  /\ max_iters SingleState.three_iterations <> uint64_max
  /\ 0 = old_ll_after SingleState.training_data single_worker
           (SingleState.hmm 1) 3.
Proof.
  assert (Hdelta : delta SingleState.three_iterations <= 0) by (cbn; lra).
  split; [exact three_uint64|]. split; [exact Hdelta|].
  destruct (nonpositive_delta_runs_full_budget 4 (SingleState.hmm 1) _
              SingleState.training_data single_worker
              SingleState.three_iterations 0 three_uint64 Hdelta
              three_iterations_run) as (H1 & _ & H3).
  split; [exact H1 | exact H3].
Defined.

(** A call of [fit] with [max_iters = 1] cannot raise when its one
    iteration yields a log likelihood not below the most negative double:
    it returns that log likelihood.  The check for a decrease compares only
    iterations of one call. *)
Theorem single_iteration_never_raises {D : Type} `{OD : ObsDist D}
    (fuel : nat) (h : hidden_markov_model D)
    (instances : training_data_type) (pool : thread_pool)
    (options : training_options) :
  max_iters options = 1%Z ->
  lowest <= em_ll instances pool h 1 ->
  fit (2 + fuel) h instances pool options
  = Some (em_state instances pool h 1, Returns (em_ll instances pool h 1)).
Proof.
  intros Hone Hll.
  assert (Hmax : is_uint64 (max_iters options)).
  { rewrite Hone. cbv. split; discriminate. }
  destruct (Rlt_dec (em_ll instances pool h 1 - lowest) (delta options))
    as [Hlt|Hge].
  - apply (fit_converge instances pool options h Hmax 1 (1 + fuel)).
    + lia.
    + split; [right; rewrite Hone; cbn; lia | intros k Hk; lia].
    + apply (converges_iff instances pool options h 0).
      cbn [old_ll_after]. split; [lra | exact Hlt].
  - apply (fit_exhausted instances pool options h Hmax 1 fuel).
    + rewrite Hone. reflexivity.
    + rewrite Hone. cbv. discriminate.
    + intros k Hk. replace k with 1%nat by lia.
      apply (continues_iff instances pool options h 0).
      cbn [old_ll_after]. split; [lra | exact Hge].
Qed.

Lemma single_iteration_never_raises_witness :
  max_iters single_iteration = 1%Z
  /\ fit 2 (SingleState.hmm 0.5) SingleState.training_data single_worker
       single_iteration
     = Some (em_state SingleState.training_data single_worker
               (SingleState.hmm 0.5) 1,
             Returns (2 * ln 2))
  /\ fit 2 (em_state SingleState.training_data single_worker
              (SingleState.hmm 0.5) 1)
       SingleState.training_data single_worker single_iteration
     = Some (em_state SingleState.training_data single_worker
               (SingleState.hmm 0.5) 2,
             Returns 0).
Proof.
  assert (Hone : max_iters single_iteration = 1%Z) by reflexivity.
  destruct half_run as [E1 E2].
  pose proof lowest_below_minus_one as Hlow.
  pose proof ln_2_bounds as Hln.
  split; [exact Hone|]. split.
  - rewrite <- E1.
    apply (single_iteration_never_raises 0 (SingleState.hmm 0.5)
             SingleState.training_data single_worker single_iteration Hone).
    rewrite E1. lra.
  - rewrite <- E2.
    apply (single_iteration_never_raises 0
             (em_state SingleState.training_data single_worker
                (SingleState.hmm 0.5) 1)
             SingleState.training_data single_worker single_iteration Hone).
    change (em_ll SingleState.training_data single_worker
              (em_state SingleState.training_data single_worker
                 (SingleState.hmm 0.5) 1) 1)
      with (em_ll SingleState.training_data single_worker
              (SingleState.hmm 0.5) 2).
    rewrite E2. lra.
Defined.

(** Training on an empty training set: every iteration yields the log
    likelihood 0, so with a positive [delta] (not above the magnitude of
    the most negative double) and room for two iterations [fit] returns 0
    from its second iteration. *)
Theorem fit_without_data {D : Type} `{OD : ObsDist D}
    (fuel : nat) (h : hidden_markov_model D) (pool : thread_pool)
    (options : training_options) :
  is_uint64 (max_iters options) ->
  (2 <= max_iters options)%Z ->
  0 < delta options <= - lowest ->
  concat (pool []) = [] ->
  fit (2 + fuel) h [] pool options
  = Some (em_state [] pool h 2, Returns 0).
Proof.
  intros Hmax Htwo [Hpos Hle] Hpool.
  assert (Hll : forall n, em_ll [] pool h n = 0).
  { intros n. unfold em_ll, expectation_maximization, aggregate_counts.
    cbn [snd]. rewrite reduction_log_likelihood by reflexivity.
    rewrite Hpool. reflexivity. }
  rewrite <- (Hll 2%nat).
  apply (fit_converge [] pool options h Hmax 2 fuel).
  - lia.
  - split; [right; lia|].
    intros k Hk. replace k with 1%nat by lia.
    apply (continues_iff [] pool options h 0).
    cbn [old_ll_after]. rewrite Hll. split; lra.
  - apply (converges_iff [] pool options h 1).
    cbn [old_ll_after]. rewrite !Hll. split; lra.
Qed.

Lemma fit_without_data_witness :
  is_uint64 (max_iters ten_iterations)
  /\ 0 < delta ten_iterations <= - lowest
  /\ fit 2 Scenario.hmm no_training_data single_worker ten_iterations
     = Some (em_state no_training_data single_worker Scenario.hmm 2,
             Returns 0).
Proof.
  assert (Hmax : is_uint64 (max_iters ten_iterations))
    by (cbv; split; discriminate).
  assert (Htwo : (2 <= max_iters ten_iterations)%Z) by (cbv; discriminate).
  assert (Hdelta : 0 < delta ten_iterations <= - lowest).
  { pose proof lowest_below_minus_one. cbn [delta ten_iterations]. lra. }
  split; [exact Hmax|]. split; [exact Hdelta|].
  exact (fit_without_data 0 Scenario.hmm single_worker ten_iterations
           Hmax Htwo Hdelta eq_refl).
Defined.

(** The log likelihood a call of [fit] returns after at least one
    iteration belongs to the parameters before the last update: the
    returned model is one more [expectation_maximization] step ahead of the
    model whose data log likelihood is returned. *)
Theorem returned_log_likelihood_precedes_update {D : Type} `{OD : ObsDist D}
    (fuel : nat) (h h' : hidden_markov_model D)
    (instances : training_data_type) (pool : thread_pool)
    (options : training_options) (ll : R) :
  is_uint64 (max_iters options) ->
  max_iters options <> 0%Z ->
  Permutation (concat (pool instances)) instances ->
  fit fuel h instances pool options = Some (h', Returns ll) ->
  exists before,
    h' = fst (expectation_maximization before instances pool)
    /\ ll = data_log_likelihood before instances.
Proof.
  intros Hmax Hnz Hperm Hfit.
  assert (Hstep : forall n,
            em_state instances pool h (S n)
            = fst (expectation_maximization (em_state instances pool h n)
                     instances pool)
            /\ em_ll instances pool h (S n)
               = data_log_likelihood (em_state instances pool h n) instances).
  { intros n. split; [reflexivity|].
    unfold em_ll. replace (S n - 1)%nat with n by lia.
    apply expectation_maximization_log_likelihood, Hperm. }
  destruct (fit_inversion instances pool options h Hmax fuel _ Hfit)
    as [(i & _ & _ & _ & E) | [(i & Hi & _ & _ & E) | (m & Hm & _ & _ & E)]].
  - discriminate.
  - injection E as -> ->. destruct i as [|i]; [lia|].
    exists (em_state instances pool h i). apply Hstep.
  - injection E as -> ->. destruct m as [|m]; [cbn in Hm; congruence|].
    exists (em_state instances pool h m). apply Hstep.
Qed.

Lemma returned_log_likelihood_precedes_update_witness :
  is_uint64 (max_iters SingleState.three_iterations)
  /\ max_iters SingleState.three_iterations <> 0%Z
  /\ exists before,
       em_state SingleState.training_data single_worker (SingleState.hmm 1) 3
       = fst (expectation_maximization before SingleState.training_data
                single_worker)
       /\ 0 = data_log_likelihood before SingleState.training_data.
Proof.
  assert (Hnz : max_iters SingleState.three_iterations <> 0%Z)
    by (cbv; discriminate).
  split; [exact three_uint64|]. split; [exact Hnz|].
  exact (returned_log_likelihood_precedes_update 4 (SingleState.hmm 1) _
           SingleState.training_data single_worker
           SingleState.three_iterations 0 three_uint64 Hnz
           (Permutation_refl _) three_iterations_run).
Defined.


(** * Saving and loading *)

#[export] Instance object_stream_laws
  : PersistenceLaws (categorical + markov_model) categorical.
Proof.
  split.
  - intros d os. reflexivity.
  - intros m os. reflexivity.
  - intros d rest. reflexivity.
  - intros m rest. reflexivity.
Qed.

Section PersistFacts.

Context {token : Type} {D : Type} `{P : Persistence token D}.
Context {Laws : PersistenceLaws token D}.

Lemma save_unfold (h : hidden_markov_model D) (os : list token) :
  save h os = os ++ od_save (obs_dist_ h) [] ++ mm_save (model_ h) [].
Proof.
  unfold save. cbv zeta.
  rewrite mm_save_appends, (od_save_appends (obs_dist_ h) os).
  rewrite <- app_assoc. reflexivity.
Qed.

Lemma load_parts (d : D) (m : markov_model) (rest : list token) :
  load (od_save d [] ++ mm_save m [] ++ rest)
  = Some ({| obs_dist_ := d; model_ := m |}, rest).
Proof.
  unfold load. rewrite od_load_save, mm_load_save. reflexivity.
Qed.

End PersistFacts.

(** What [save] writes, the constructor from an input stream reads back:
    it rebuilds the saved model and leaves the rest of the stream; and
    [save] only appends to the stream it is given. *)
Theorem save_load_round_trip {token : Type} {D : Type}
    `{P : Persistence token D} (Laws : PersistenceLaws token D)
    (h : hidden_markov_model D) (os rest : list token) :
  load (save h [] ++ rest) = Some (h, rest)
  /\ save h os = os ++ save h [].
Proof.
  split.
  - rewrite save_unfold. cbn [app]. rewrite <- app_assoc, load_parts.
    destruct h. reflexivity.
  - rewrite (save_unfold h os), (save_unfold h []). reflexivity.
Qed.

Lemma save_load_round_trip_witness :
  load (save Scenario.hmm [] ++ [inr SingleState.chain])
  = Some (Scenario.hmm, [inr SingleState.chain])
  /\ save Scenario.hmm [inr SingleState.chain]
     = inr SingleState.chain :: save Scenario.hmm [].
Proof.
  exact (save_load_round_trip object_stream_laws Scenario.hmm
           [inr SingleState.chain] [inr SingleState.chain]).
Defined.

(** The constructor from an input stream does not compare the state
    counts: from a stream that holds an observation distribution and a
    chain of differing state counts it builds a model, where the
    constructors that are given the distribution raise. *)
Theorem stream_constructor_skips_state_check {token : Type} {D : Type}
    `{OD : ObsDist D} `{P : Persistence token D}
    (Laws : PersistenceLaws token D)
    (d : D) (m : markov_model) (rest : list token)
    (rng : generator) (trans_prior : dirichlet) :
  od_num_states d <> mm_num_states m ->
  (exists h, load (od_save d [] ++ mm_save m [] ++ rest) = Some (h, rest)
             /\ od_num_states (obs_dist_ h) <> num_states h)
  /\ make_uniform (mm_num_states m) d trans_prior
     = Throws (hmm_exception differing_states)
  /\ make_random (mm_num_states m) rng d trans_prior
     = Throws (hmm_exception differing_states).
Proof.
  intros Hne. split.
  - exists {| obs_dist_ := d; model_ := m |}.
    split; [apply load_parts | exact Hne].
  - unfold make_uniform, make_random. cbn [obs_dist_].
    destruct (Nat.eqb_spec (od_num_states d) (mm_num_states m));
      [contradiction | split; reflexivity].
Qed.

Lemma stream_constructor_skips_state_check_witness :
  od_num_states Scenario.emissions = 2%nat
  /\ mm_num_states SingleState.chain = 1%nat
  /\ (exists h, load [inl Scenario.emissions; inr SingleState.chain]
                = Some (h, [])
                /\ od_num_states (obs_dist_ h) <> num_states h)
  /\ make_uniform 1 Scenario.emissions (fun _ => 1)
     = Throws (hmm_exception differing_states).
Proof.
  assert (Hne : od_num_states Scenario.emissions
                <> mm_num_states SingleState.chain) by (cbv; discriminate).
  split; [reflexivity|]. split; [reflexivity|].
  destruct (stream_constructor_skips_state_check object_stream_laws
              Scenario.emissions SingleState.chain []
              {| drawn_initial := fun _ => 1; drawn_transition := fun _ _ => 1 |}
              (fun _ => 1) Hne) as (Hload & Huniform & _).
  split; [exact Hload | exact Huniform].
Defined.
